(** * fxlens-app: the read-only SQL pipeline

    A shallow embedding of [main.py] (REST endpoint, Safety Gate,
    Executor, Language-Model Bridge) and of [app/services/mbridge.py] and
    [app/services/qlog.py] (secondary bridge and unanswered-question log),
    followed by the properties of the specification that were checked
    against them.  The embedding also covers the links of "Learn more"
    in [app/services/mbridge.py], [app/services/db.py] and the button
    "Ask Atlas" of [app/ui/Home.py], with further properties of the
    code.

    Python [str] values are lists of characters.  A character is one of
    the 256 code points U+0000..U+00FF, carried by [ascii]; [isspace] and
    [lower_char] are Python's [str.isspace] and [str.lower] on that range. *)

From Stdlib Require Import List Bool Arith NArith ZArith Lia.
From Stdlib Require Import Ascii String DecimalString.
Import ListNotations.

Set Implicit Arguments.

Local Open Scope string_scope.
Local Open Scope list_scope.

(* ================================================================== *)
(** ** Python strings *)

Module PyStr.

Definition str := list ascii.

(** A literal of the source. *)
Definition lit (s : string) : str := list_ascii_of_string s.

(** [str.isspace] on one code point below U+0100: TAB..CR, FS..US,
    SPACE, NEL and NBSP. *)
Definition isspace (c : ascii) : bool :=
  let n := N_of_ascii c in
  ((9 <=? n) && (n <=? 13) || (28 <=? n) && (n <=? 32)
   || (n =? 133) || (n =? 160))%N.

(** [str.lower] on one code point below U+0100: A..Z and the Latin-1
    capitals U+00C0..U+00DE (the multiplication sign U+00D7 excepted)
    move up by 32. *)
Definition lower_char (c : ascii) : ascii :=
  let n := N_of_ascii c in
  if ((65 <=? n) && (n <=? 90)
      || (192 <=? n) && (n <=? 222) && negb (n =? 215))%N
  then ascii_of_N (n + 32) else c.

(** [s.lower()] *)
Definition lower (s : str) : str := map lower_char s.

(** [s.lstrip(chars)], with the character set given as a predicate. *)
Fixpoint lstrip_with (p : ascii -> bool) (s : str) : str :=
  match s with
  | c :: t => if p c then lstrip_with p t else s
  | [] => []
  end.

(** [s.rstrip(chars)], with the character set given as a predicate. *)
Fixpoint rstrip_with (p : ascii -> bool) (s : str) : str :=
  match s with
  | c :: t =>
      match rstrip_with p t with
      | [] => if p c then [] else [c]
      | t' => c :: t'
      end
  | [] => []
  end.

(** [s.lstrip()], [s.rstrip()], [s.strip()] *)
Definition lstrip (s : str) : str := lstrip_with isspace s.
Definition rstrip (s : str) : str := rstrip_with isspace s.
Definition strip (s : str) : str := rstrip (lstrip s).

(** [s.rstrip(";")] *)
Definition is_semicolon (c : ascii) : bool := Ascii.eqb c ";"%char.
Definition rstrip_semicolons (s : str) : str := rstrip_with is_semicolon s.

(** [s.startswith(p)] *)
Fixpoint startswith (p s : str) : bool :=
  match p, s with
  | [], _ => true
  | a :: p', b :: s' => Ascii.eqb a b && startswith p' s'
  | _ :: _, [] => false
  end.

(** [needle in hay] *)
Fixpoint contains (needle hay : str) : bool :=
  startswith needle hay
  || match hay with
     | [] => false
     | _ :: t => contains needle t
     end.

(** [a == b] on strings *)
Definition str_eqb (a b : str) : bool :=
  if list_eq_dec ascii_dec a b then true else false.

(** [s.split(";")[0]]: the text before the first semicolon, the whole
    string when there is none. *)
Fixpoint before_semicolon (s : str) : str :=
  match s with
  | c :: t => if is_semicolon c then [] else c :: before_semicolon t
  | [] => []
  end.

(** [str(n)] for a Python [int], as the f-strings of the source print
    it: an optional minus sign and the decimal digits. *)
Definition str_of_int (n : Z) : str :=
  lit (NilEmpty.string_of_int (Z.to_int n)).

(** The empty string. *)
Definition empty : str := [].

(** Truthiness of a string: [bool(s)]. *)
Definition truthy (s : str) : bool :=
  match s with [] => false | _ :: _ => true end.

End PyStr.
Import PyStr.

(* ================================================================== *)
(** ** Exceptions *)

(** The exceptions the modelled code raises or lets through:
    FastAPI's [HTTPException(status_code, detail)] and any other Python
    exception, of which only [str(e)] is kept. *)
Inductive exn : Type :=
| HTTPException (status_code : Z) (detail : str)
| PyException (message : str).

(** [str(e)] as the f-strings of the source print it.  Starlette prints
    an [HTTPException] as ["<status>: <detail>"]. *)
Definition str_of_exn (e : exn) : str :=
  match e with
  | HTTPException c d => str_of_int c ++ lit ": " ++ d
  | PyException m => m
  end.

(* ================================================================== *)
(** ** The regular expressions of the source

    Python's [re] is a backtracking matcher: alternatives are tried in a
    fixed order and the first complete match wins.  The matcher below is
    written with a continuation for "the rest of the pattern", which is
    what makes greedy and lazy repetition differ.  It covers the
    constructs the source's patterns use. *)

Module Re.

(** [re.IGNORECASE], [re.DOTALL], [re.MULTILINE] *)
Record flags : Type := Flags
  { IGNORECASE : bool; DOTALL : bool; MULTILINE : bool }.

(** One-character items. *)
Inductive cls : Type :=
| CChr (c : ascii)      (* a literal character *)
| CDot                  (* .       *)
| CSpace                (* \s      *)
| CNonSpace             (* \S      *)
| CWord                 (* \w      *)
| CAny.                 (* [\s\S]  *)

Inductive regex : Type :=
| Eps
| One (c : cls)
| Star (c : cls)                (* c*  greedy *)
| StarLazy (c : cls)            (* c*? lazy   *)
| Plus (c : cls)                (* c+  greedy *)
| Opt (r : regex)               (* (?:r)?     *)
| Seq (r1 r2 : regex)
| Group (n : nat) (r : regex)   (* the n-th capturing group *)
| Bol                           (* ^ *)
| Eol.                          (* $ *)

(** A literal word of a pattern: its characters one after the other. *)
Definition chars (l : str) : regex :=
  fold_right (fun c r => Seq (One (CChr c)) r) Eps l.

Definition word (w : string) : regex := chars (lit w).

(** A pattern written as the sequence of its parts. *)
Definition seq (rs : list regex) : regex := fold_right Seq Eps rs.

Definition newline : ascii := "010"%char.
Definition underscore : ascii := "_"%char.

(** [str.isalnum] on one code point below U+0100. *)
Definition isalnum (c : ascii) : bool :=
  let n := N_of_ascii c in
  ((48 <=? n) && (n <=? 57) || (65 <=? n) && (n <=? 90)
   || (97 <=? n) && (n <=? 122)
   || (n =? 170) || (n =? 178) || (n =? 179) || (n =? 181)
   || (n =? 185) || (n =? 186) || (188 <=? n) && (n <=? 190)
   || (192 <=? n) && (n <=? 214) || (216 <=? n) && (n <=? 246)
   || (248 <=? n) && (n <=? 255))%N.

Definition cls_matches (fl : flags) (c : cls) (ch : ascii) : bool :=
  match c with
  | CChr a =>
      if IGNORECASE fl then Ascii.eqb (lower_char a) (lower_char ch)
      else Ascii.eqb a ch
  | CDot => DOTALL fl || negb (Ascii.eqb ch newline)
  | CSpace => isspace ch
  | CNonSpace => negb (isspace ch)
  | CWord => isalnum ch || Ascii.eqb ch underscore
  | CAny => true
  end.

(** A position in the subject: the text already consumed (last
    character first), the text still ahead, and the groups captured so
    far. *)
Record mstate : Type := MState
  { before : str; rest : str; groups : list (nat * str) }.

Definition subject (st : mstate) : str := rev (before st) ++ rest st.

(** [m.group(n)] *)
Fixpoint lookup_group (n : nat) (gs : list (nat * str)) : option str :=
  match gs with
  | (k, v) :: gs' => if Nat.eqb k n then Some v else lookup_group n gs'
  | [] => None
  end.

Definition group (m : mstate) (n : nat) : option str :=
  lookup_group n (groups m).

(** The text consumed between position [st] and the later position
    [st']. *)
Definition consumed (st st' : mstate) : str :=
  rev (firstn (List.length (before st') - List.length (before st))
              (before st')).

Definition at_bol (fl : flags) (st : mstate) : bool :=
  match before st with
  | [] => true
  | c :: _ => MULTILINE fl && Ascii.eqb c newline
  end.

Definition at_eol (fl : flags) (st : mstate) : bool :=
  match rest st with
  | [] => true
  | c :: t =>
      Ascii.eqb c newline
      && (MULTILINE fl || match t with [] => true | _ :: _ => false end)
  end.

Section Matcher.

Variable fl : flags.

(** Greedy repetition: take one more character first, give it back when
    the rest of the pattern fails. *)
Fixpoint star_greedy (c : cls) (bef rst : str) (gs : list (nat * str))
    (k : mstate -> option mstate) : option mstate :=
  match rst with
  | ch :: rst' =>
      if cls_matches fl c ch then
        match star_greedy c (ch :: bef) rst' gs k with
        | Some m => Some m
        | None => k (MState bef rst gs)
        end
      else k (MState bef rst gs)
  | [] => k (MState bef rst gs)
  end.

(** Lazy repetition: try the rest of the pattern first, take one more
    character when it fails. *)
Fixpoint star_lazy (c : cls) (bef rst : str) (gs : list (nat * str))
    (k : mstate -> option mstate) : option mstate :=
  match k (MState bef rst gs) with
  | Some m => Some m
  | None =>
      match rst with
      | ch :: rst' =>
          if cls_matches fl c ch then star_lazy c (ch :: bef) rst' gs k
          else None
      | [] => None
      end
  end.

Definition one (c : cls) (st : mstate)
    (k : mstate -> option mstate) : option mstate :=
  match rest st with
  | ch :: rst' =>
      if cls_matches fl c ch
      then k (MState (ch :: before st) rst' (groups st))
      else None
  | [] => None
  end.

(** [rmatch r st k]: match [r] at [st], then the rest of the pattern
    [k]; [None] when every alternative fails. *)
Fixpoint rmatch (r : regex) (st : mstate)
    (k : mstate -> option mstate) : option mstate :=
  match r with
  | Eps => k st
  | One c => one c st k
  | Star c => star_greedy c (before st) (rest st) (groups st) k
  | StarLazy c => star_lazy c (before st) (rest st) (groups st) k
  | Plus c =>
      one c st
        (fun st' => star_greedy c (before st') (rest st') (groups st') k)
  | Opt r1 =>
      match rmatch r1 st k with
      | Some m => Some m
      | None => k st
      end
  | Seq r1 r2 => rmatch r1 st (fun st' => rmatch r2 st' k)
  | Group n r1 =>
      rmatch r1 st
        (fun st' =>
           k (MState (before st') (rest st')
                     ((n, consumed st st') :: groups st')))
  | Bol => if at_bol fl st then k st else None
  | Eol => if at_eol fl st then k st else None
  end.

(** The matcher started at one position. *)
Definition match_at (r : regex) (bef rst : str) : option mstate :=
  rmatch r (MState bef rst []) Some.

(** [re.search]: the first position, from the left, where the pattern
    matches; the end of the subject is a position too. *)
Fixpoint search_from (r : regex) (bef rst : str) : option mstate :=
  match match_at r bef rst with
  | Some m => Some m
  | None =>
      match rst with
      | ch :: rst' => search_from r (ch :: bef) rst'
      | [] => None
      end
  end.

End Matcher.

(** [re.search(r, s, flags)] and [re.match(r, s, flags)] *)
Definition search (fl : flags) (r : regex) (s : str) : option mstate :=
  search_from fl r [] s.

Definition match_ (fl : flags) (r : regex) (s : str) : option mstate :=
  match_at fl r [] s.

End Re.

(* ================================================================== *)
(** ** Python values *)

(** The values a database row or a decoded JSON body can hold, told
    apart the way the source tells them apart: by [isinstance], by
    [is None] and by [str(v)].  A [float] is kept as its binary64 bit
    pattern; any other object is kept as its class name and its
    [str(v)]. *)
Inductive pyval : Type :=
| VNone
| VBool (b : bool)
| VInt (n : Z)
| VFloat (bits : Z)
| VStr (s : str)
| VObj (cls : str) (repr : str).

(** [isinstance(v, (int, float))]; [bool] is a subclass of [int]. *)
Definition isinstance_int_float (v : pyval) : bool :=
  match v with
  | VBool _ | VInt _ | VFloat _ => true
  | VNone | VStr _ | VObj _ _ => false
  end.

(** [v is None] *)
Definition is_None (v : pyval) : bool :=
  match v with VNone => true | _ => false end.

(** [type(v).__name__] *)
Definition type_name (v : pyval) : str :=
  match v with
  | VNone => lit "NoneType"
  | VBool _ => lit "bool"
  | VInt _ => lit "int"
  | VFloat _ => lit "float"
  | VStr _ => lit "str"
  | VObj cls _ => cls
  end.

(** A value that is a string or [None] ([Optional[str]]). *)
Definition pyopt := option str.

(** [a or b] on such values: [a] unless it is [None] or empty. *)
Definition py_or (a b : pyopt) : pyopt :=
  match a with
  | Some (_ :: _) => a
  | Some [] | None => b
  end.

(** A [dict] with string keys, as loaded from YAML. *)
Definition dict := list (str * pyopt).

(** [d.get(key, default)] *)
Fixpoint dict_get (d : dict) (key : str) (default : pyopt) : pyopt :=
  match d with
  | (k, v) :: d' => if str_eqb k key then v else dict_get d' key default
  | [] => default
  end.

(* ================================================================== *)
(** ** main.py *)

Module Main.

(** *** The outside world of one request *)

(** What [requests.post(LMSTUDIO_API_URL, ...)] and the decoding of its
    body give: an exception, or a response with its status code, its
    text, and the outcome of
    [resp.json()["choices"][0]["message"]["content"].strip()] (an
    exception [inl e], or the content before [strip()]). *)
Inductive http_outcome : Type :=
| PostRaised (e : exn)
| PostResponse (status_code : Z) (text : str) (content : exn + str).

(** What the database does with one statement: an exception anywhere
    between [connect] and [fetchall], or the column names
    [d[0] for d in cur.description] and the fetched rows. *)
Inductive db_outcome : Type :=
| DbRaised (e : exn)
| DbResult (cols : list str) (fetched : list (list pyval)).

Record world : Type := World
  { lmstudio : str -> http_outcome;   (* by the user message sent *)
    database : str -> db_outcome }.   (* by the statement executed *)

(** *** The calls a request makes *)

(** The calls of the three components, in the order they happen. *)
Inductive event : Type :=
| BridgeCalled (question : str)
| GateAccepted (sql : str)
| GateRejected (sql : str)
| ExecutorCalled (sql : str).

(** A computation that may raise and that records its calls; the
    record survives an exception. *)
Definition M (A : Type) : Type := list event -> list event * (exn + A).

Definition ret {A : Type} (a : A) : M A := fun tr => (tr, inr a).

Definition raise {A : Type} (e : exn) : M A := fun tr => (tr, inl e).

Definition bind {A B : Type} (m : M A) (f : A -> M B) : M B :=
  fun tr =>
    match m tr with
    | (tr', inr a) => f a tr'
    | (tr', inl e) => (tr', inl e)
    end.

Definition emit (ev : event) : M unit := fun tr => (tr ++ [ev], inr tt).

Definition lift {A : Type} (r : exn + A) : M A := fun tr => (tr, r).

Notation "x <- m ;; k" := (bind m (fun x => k))
  (at level 61, m at next level, right associativity).
Notation "m ;;; k" := (bind m (fun _ => k))
  (at level 61, right associativity).

(** *** Models *)

Record QuestionRequest : Type := Request
  { question : str;
    limit : option Z;
    params : option dict }.

(** *** Helpers *)

(** One cell of [_json_friendly_rows]:
    [v if isinstance(v, (int, float)) or v is None else str(v)]. *)
Definition json_friendly_value (v : pyval) : pyval :=
  match v with
  | VBool _ | VInt _ | VFloat _ => v      (* isinstance(v, (int, float)) *)
  | VNone => v                            (* v is None *)
  | VStr s => VStr s                      (* str(v) of a str *)
  | VObj _ repr => VStr repr              (* str(v) of anything else *)
  end.

Definition _json_friendly_rows (rows : list (list pyval))
  : list (list pyval) :=
  map (fun r => map json_friendly_value r) rows.

Record query_result : Type := QueryResult
  { columns : list str; rows : list (list pyval) }.

(** The body of [run_sql]. *)
Definition run_sql_pure (w : world) (sql : str) : exn + query_result :=
  match database w sql with
  | DbResult cols fetched =>
      inr (QueryResult cols (_json_friendly_rows fetched))
  | DbRaised e =>
      inl (HTTPException 500 (lit "Database error: " ++ str_of_exn e))
  end.

Definition run_sql (w : world) (sql : str) : M query_result :=
  emit (ExecutorCalled sql) ;;; lift (run_sql_pure w sql).

(** The denylist of [validate_read_only_sql], as written in the source. *)
Definition banned : list str :=
  map lit [" insert "; " update "; " delete "; " drop "; " alter ";
           " create "; " truncate "; " grant "; " revoke "; " copy ";
           " do "; " call "].

(** The body of [validate_read_only_sql(sql)]: [inr true] when it
    returns [True], [inl] the exception it raises otherwise. *)
Definition validate_read_only_sql_pure (sql : str) : exn + bool :=
  let s := lower (strip sql) in
  if negb (startswith (lit "select") s) then
    inl (HTTPException 400 (lit "Only SELECT queries are allowed."))
  else
    let s_spaced := lit " " ++ s ++ lit " " in
    if existsb (fun kw => contains kw s_spaced) banned then
      inl (HTTPException 400 (lit "Write/DDL statements are not allowed."))
    else inr true.

Definition validate_read_only_sql (sql : str) : M bool :=
  match validate_read_only_sql_pure sql with
  | inr b => emit (GateAccepted sql) ;;; ret b
  | inl e => emit (GateRejected sql) ;;; raise e
  end.

(** [add_optional_limit(sql, limit)].  [not limit] holds for [None]
    and for [0]. *)
Definition add_optional_limit (sql : str) (limit : option Z) : str :=
  match limit with
  | None => sql
  | Some n =>
      if (n =? 0)%Z then sql
      else
        let stripped := rstrip_semicolons (rstrip sql) in
        stripped ++ lit " LIMIT " ++ str_of_int n ++ lit ";"
  end.

(** *** LM Studio *)

Import Re.

(** [r"```sql\s*(.*?)```"] with [re.IGNORECASE | re.DOTALL] *)
Definition sql_block_flags : flags := Flags true true false.
Definition sql_block_re : regex :=
  seq [word "```sql"; Star CSpace; Group 1 (StarLazy CDot); word "```"].

(** [r"```(?:\w+)?\s*(.*?)```"] with [re.DOTALL] *)
Definition any_block_flags : flags := Flags false true false.
Definition any_block_re : regex :=
  seq [word "```"; Opt (Plus CWord); Star CSpace;
       Group 1 (StarLazy CDot); word "```"].

(** [r"^\s*Interpretation:\s*(.+)$"] and [r"^\s*Source:\s*(\S+)\s*$"]
    with [re.IGNORECASE | re.MULTILINE] *)
Definition line_flags : flags := Flags true false true.
Definition interpretation_re : regex :=
  seq [Bol; Star CSpace; word "Interpretation:"; Star CSpace;
       Group 1 (Plus CDot); Eol].
Definition source_re : regex :=
  seq [Bol; Star CSpace; word "Source:"; Star CSpace;
       Group 1 (Plus CNonSpace); Star CSpace; Eol].

(** [m.group(1)]; the group takes part in every match of the patterns
    above. *)
Definition group1 (m : mstate) : str :=
  match group m 1 with Some g => g | None => [] end.

(** "Parse ```sql ... ```": the fenced block of the completion, [None]
    when there is none. *)
Definition find_sql_block (content : str) : option mstate :=
  match search sql_block_flags sql_block_re content with
  | Some m => Some m
  | None => search any_block_flags any_block_re content
  end.

(** The code-block extraction of [ask_lmstudio_generate]: from the
    completion to [sql_code]. *)
Definition extract_sql_code (content : str) : exn + str :=
  match find_sql_block content with
  | None =>
      inl (HTTPException 500
             (lit "Could not parse SQL code block from LM Studio response."))
  | Some sql_block =>
      let sql_code := strip (group1 sql_block) in
      inr (strip (before_semicolon sql_code))   (* first statement only *)
  end.

Definition extract_interpretation (content : str) : str :=
  match search line_flags interpretation_re content with
  | Some i_match => strip (group1 i_match)
  | None => lit "No interpretation provided."
  end.

Definition extract_source_url (content : str) : pyopt :=
  match search line_flags source_re content with
  | Some s_match => Some (strip (group1 s_match))
  | None => None
  end.

(** The [try] block of [ask_lmstudio_generate]: every exception in it,
    the [HTTPException] raised for a status other than 200 included, is
    caught and raised again as "LM Studio request failed". *)
Definition lmstudio_content (o : http_outcome) : exn + str :=
  let failed (e : exn) : exn + str :=
    inl (HTTPException 500
           (lit "LM Studio request failed: " ++ str_of_exn e)) in
  match o with
  | PostRaised e => failed e
  | PostResponse status_code text content =>
      if negb (status_code =? 200)%Z then
        failed (HTTPException 500 (lit "LM Studio API error: " ++ text))
      else
        match content with
        | inl e => failed e
        | inr c => inr (strip c)
        end
  end.

Definition ask_lmstudio_generate_pure (w : world) (question : str)
  : exn + (str * str * pyopt) :=
  match lmstudio_content (lmstudio w (strip question)) with
  | inl e => inl e
  | inr content =>
      match extract_sql_code content with
      | inl e => inl e
      | inr sql_code =>
          inr (sql_code, extract_interpretation content,
               extract_source_url content)
      end
  end.

Definition ask_lmstudio_generate (w : world) (question : str)
  : M (str * str * pyopt) :=
  emit (BridgeCalled question) ;;;
  lift (ask_lmstudio_generate_pure w question).

(** *** Routes *)

(** The JSON object [/ask] answers with; [sql_generated] is absent from
    a registry answer. *)
Record response : Type := Response
  { source : str;
    r_question : str;
    sql_generated : option str;
    r_columns : list str;
    r_rows : list (list pyval);
    interpretation : pyopt;
    source_url : pyopt }.

(** Step 2 of [ask_query]: no registry match, full LM Studio fallback. *)
Definition lmstudio_fallback (w : world) (req : QuestionRequest)
    (q_in : str) : M response :=
  gen <- ask_lmstudio_generate w q_in ;;
  let '(sql_gen, interp, src_url) := gen in
  let sql_gen := add_optional_limit sql_gen (limit req) in
  validate_read_only_sql sql_gen ;;;
  result <- run_sql w sql_gen ;;
  ret (Response (lit "lmstudio_fallback") q_in (Some sql_gen)
         (columns result) (rows result)
         (py_or (Some interp) (Some (lit "No interpretation available.")))
         src_url).

(** The body of the loop of step 1 for an entry whose question matches:
    1a when the entry carries SQL, 1b otherwise. *)
Definition registry_match (w : world) (req : QuestionRequest)
    (q_in nlq : str) (entry : dict) : M response :=
  let sql :=
    strip (match py_or (dict_get entry (lit "sql_query") None) (Some [])
           with Some s => s | None => [] end) in
  if truthy sql then
    let sql := add_optional_limit sql (limit req) in
    validate_read_only_sql sql ;;;
    result <- run_sql w sql ;;
    ret (Response (lit "registry") nlq None
           (columns result) (rows result)
           (dict_get entry (lit "business_interpretation")
              (Some (lit "No interpretation available.")))
           (dict_get entry (lit "source_url") None))
  else
    gen <- ask_lmstudio_generate w q_in ;;
    let '(sql_gen, interp, src_url) := gen in
    let sql_gen := add_optional_limit sql_gen (limit req) in
    validate_read_only_sql sql_gen ;;;
    result <- run_sql w sql_gen ;;
    ret (Response (lit "registry_match_missing_sql_lmstudio_fallback")
           nlq (Some sql_gen) (columns result) (rows result)
           (py_or (dict_get entry (lit "business_interpretation") None)
              (py_or (Some interp)
                 (Some (lit "No interpretation available."))))
           (py_or (dict_get entry (lit "source_url") None) src_url)).

(** The loop of step 1 over the registry entries still to be looked at.
    An entry whose question is [None] makes [.strip()] raise. *)
Fixpoint registry_loop (w : world) (req : QuestionRequest) (q_in : str)
    (entries : list dict) : M response :=
  match entries with
  | [] => lmstudio_fallback w req q_in
  | entry :: more =>
      match dict_get entry (lit "natural_language_question") (Some []) with
      | None =>
          raise (PyException
                   (lit "'NoneType' object has no attribute 'strip'"))
      | Some q =>
          let nlq := strip q in
          if str_eqb (lower q_in) (lower nlq)
          then registry_match w req q_in nlq entry
          else registry_loop w req q_in more
      end
  end.

(** [ask_query(req)], the handler of [POST /ask]. *)
Definition ask_query (queries_registry : list dict) (w : world)
    (req : QuestionRequest) : M response :=
  let q_in := strip (question req) in
  registry_loop w req q_in queries_registry.

(** One request, from an empty record of calls. *)
Definition handle_ask (queries_registry : list dict) (w : world)
    (req : QuestionRequest) : list event * (exn + response) :=
  ask_query queries_registry w req [].

End Main.

(* ================================================================== *)
(** ** app/services/qlog.py *)

Module Qlog.

(** The file [unanswered_queries.csv]: [None] while it does not exist,
    otherwise its text.  The file is opened with [newline=""], so the
    text is kept as the writer gives it. *)
Definition logfile := option str.

Definition content (f : logfile) : str :=
  match f with Some text => text | None => [] end.

(** [csv.writer(f).writerow(fields)] with the default dialect.  A field
    is quoted when it holds the delimiter, the quote character or a
    character of the line terminator, and a quote character inside it
    is doubled; a row of one empty field is written as two quote
    characters; the line ends with CR LF. *)
Definition delimiter : ascii := ","%char.
Definition quotechar : ascii := ascii_of_nat 34.
Definition CR : ascii := "013"%char.
Definition LF : ascii := "010"%char.

Definition special (c : ascii) : bool :=
  Ascii.eqb c delimiter || Ascii.eqb c quotechar
  || Ascii.eqb c CR || Ascii.eqb c LF.

Definition doubled (s : str) : str :=
  flat_map (fun c => if Ascii.eqb c quotechar then [c; c] else [c]) s.

Definition field (s : str) : str :=
  if existsb special s then [quotechar] ++ doubled s ++ [quotechar]
  else s.

Fixpoint join (fields : list str) : str :=
  match fields with
  | [] => []
  | [x] => x
  | x :: more => x ++ [delimiter] ++ join more
  end.

Definition writerow (fields : list str) : str :=
  match fields with
  | [[]] => [quotechar; quotechar]
  | _ => join (map field fields)
  end ++ [CR; LF].

Definition header : list str :=
  [lit "timestamp"; lit "question"; lit "failed_sql"].

(** What a write to the file does: the text is appended, or [open],
    [writerow] or the flush at the end of the [with] block raises, and
    the file is left as the failure left it. *)
Inductive write_outcome : Type :=
| Written
| WriteRaised (e : exn) (after : logfile).

(** The disk: what it does with a text to append, by the file as it is
    and the text. *)
Definition disk : Type := logfile -> str -> write_outcome.

(** [append_unanswered(question, failed_sql)] at the UTC time [now]
    (already in ISO format).  The result is the file afterwards and
    the exception raised, if any. *)
Definition append_unanswered (d : disk) (now : str) (question : str)
    (failed_sql : pyopt) (f : logfile) : logfile * (exn + unit) :=
  let row :=
    writerow
      [now; question;
       match py_or failed_sql (Some []) with Some s => s | None => [] end] in
  let text :=
    match f with
    | None => writerow header ++ row
    | Some _ => row
    end in
  match d f text with
  | Written => (Some (content f ++ text), inr tt)
  | WriteRaised e after => (after, inl e)
  end.

End Qlog.

(* ================================================================== *)
(** ** app/services/mbridge.py *)

Module Mbridge.

Import Re Qlog.

(** [r"^```(?:sql)?\s*([\s\S]*?)\s*```$"] with [re.IGNORECASE].  On
    the code points of the model a letter of the tag matches its two
    cases.  (Beyond them the library also lets U+017F match [s].) *)
Definition fence_flags : flags := Flags true false false.
Definition fence_re : regex :=
  seq [Bol; word "```"; Opt (word "sql"); Star CSpace;
       Group 1 (StarLazy CAny); Star CSpace; word "```"; Eol].

Definition _strip_fences (sql_text : str) : str :=
  let sql_text := strip sql_text in
  let m := match_ fence_flags fence_re sql_text in
  strip (match m with
         | Some m => match group m 1 with Some g => g | None => [] end
         | None => sql_text
         end).

Definition _clean (sql_text : str) : str :=
  let sql := _strip_fences sql_text in
  rstrip_semicolons (strip sql) ++ lit ";".   (* ensure trailing ; *)

(** [_clean] applied to whatever [_post] returned: a value that is not
    a [str] has no [strip]. *)
Definition clean_value (content : pyval) : exn + str :=
  match content with
  | VStr c => inr (_clean c)
  | v =>
      inl (PyException
             (lit "'" ++ type_name v
              ++ lit "' object has no attribute 'strip'"))
  end.

(** The first two statements of the [try] block of [ask_qwen]:
    [_post(...)], then [_clean(content)]. *)
Definition post_and_clean (posted : exn + pyval) : exn + str :=
  match posted with
  | inl e => inl e
  | inr content => clean_value content
  end.

(** The sanity checks of [ask_qwen] on the returned SQL. *)
Definition bad_sql (sql : str) : bool :=
  negb (truthy sql)
  || existsb (str_eqb (lower (strip sql)))
       [empty; lit "none;"; lit "null;"]
  || negb (contains (lit "select") (lower sql))
  || negb (contains (lit "forex_bars") (lower sql)).

(** [ask_qwen(user_question)].  [posted] is what [_post] does for this
    question: it raises, or it returns the decoded content.  [now] is
    the time at the write to the log; a write that raises inside the
    [try] block is caught like any other exception, and [retry] is the
    time at the write of the handler that follows it.  What the write of
    the handler raises reaches the caller.  The result is the file
    afterwards and the returned string or the exception raised. *)
Definition ask_qwen (d : disk) (posted : exn + pyval) (now retry : str)
    (user_question : str) (f : logfile) : logfile * (exn + str) :=
  (* except Exception as e *)
  let handler (e : exn) (now : str) (f : logfile) : logfile * (exn + str) :=
    match append_unanswered d now user_question
            (Some (lit "ERROR: " ++ str_of_exn e)) f with
    | (f, inr _) => (f, inr empty)
    | (f, inl e) => (f, inl e)
    end in
  match post_and_clean posted with
  | inr sql =>
      if bad_sql sql then
        match append_unanswered d now user_question
                (py_or (Some sql) (Some [])) f with
        | (f, inr _) => (f, inr empty)
        | (f, inl e) => handler e retry f
        end
      else (f, inr sql)
  | inl e => handler e now f
  end.

End Mbridge.


(* ================================================================== *)
(** ** The vocabulary of the specification *)

Module Spec.

Import Re Main Qlog.

(** The first character of [s], if any, is not in [p]. *)
Definition no_lead (p : ascii -> bool) (s : str) : Prop :=
  match s with
  | [] => True
  | c :: _ => p c = false
  end.

(** The last character of [s], if any, is not in [p]. *)
Definition no_trail (p : ascii -> bool) (s : str) : Prop :=
  forall a c, s = a ++ [c] -> p c = false.

(** The keyword set of the Safety Gate, as the specification lists it. *)
Definition banned_keywords : list str :=
  map lit ["insert"; "update"; "delete"; "drop"; "alter"; "create";
           "truncate"; "grant"; "revoke"; "copy"; "do"; "call"].

(** Kinds of boundary a word can have next to it. *)
Definition is_blank (c : ascii) : bool := Ascii.eqb c " "%char.
Definition is_token_boundary (c : ascii) : bool :=
  negb (isalnum c || Ascii.eqb c underscore).

(** [w] occurs in [s] as a word of its own: on each side the string
    ends or a boundary character (one in [b]) follows. *)
Definition left_bounded (b : ascii -> bool) (pre : str) : Prop :=
  pre = [] \/ exists p c, pre = p ++ [c] /\ b c = true.

Definition right_bounded (b : ascii -> bool) (post : str) : Prop :=
  post = [] \/ exists c t, post = c :: t /\ b c = true.

Definition standalone (b : ascii -> bool) (w s : str) : Prop :=
  exists pre post,
    s = pre ++ w ++ post /\ left_bounded b pre /\ right_bounded b post.

(** The same, decided by a scan of [s]; [edge] tells whether the
    position scanned has a boundary on its left. *)
Definition right_boundedb (b : ascii -> bool) (post : str) : bool :=
  match post with
  | [] => true
  | c :: _ => b c
  end.

Fixpoint standalone_from (b : ascii -> bool) (w : str) (edge : bool)
    (s : str) : bool :=
  edge && startswith w s && right_boundedb b (skipn (List.length w) s)
  || match s with
     | [] => false
     | c :: t => standalone_from b w (b c) t
     end.

Definition standaloneb (b : ascii -> bool) (w s : str) : bool :=
  standalone_from b w true s.

(** The first whitespace-delimited word of [s] ([s.split()[0]]), empty
    when [s] has none. *)
Fixpoint until_space (s : str) : str :=
  match s with
  | c :: t => if isspace c then [] else c :: until_space t
  | [] => []
  end.

Definition first_word (s : str) : str := until_space (lstrip s).

(** The whitespace-delimited words of [s] ([s.split()]); [cur] is the
    word being read, last character first. *)
Fixpoint words_from (cur : str) (s : str) : list str :=
  match s with
  | c :: t =>
      if isspace c then
        match cur with
        | [] => words_from [] t
        | _ :: _ => rev cur :: words_from [] t
        end
      else words_from (c :: cur) t
  | [] =>
      match cur with
      | [] => []
      | _ :: _ => [rev cur]
      end
  end.

Definition words (s : str) : list str := words_from [] s.

(** The words that follow a [FROM] or a [JOIN]: the tables a statement
    reads. *)
Fixpoint tables_of (ws : list str) : list str :=
  match ws with
  | kw :: ((t :: _) as more) =>
      if str_eqb kw (lit "from") || str_eqb kw (lit "join")
      then t :: tables_of more
      else tables_of more
  | _ => []
  end.

Definition referenced_tables (sql : str) : list str :=
  tables_of (words (lower sql)).

Definition only_permitted_table (sql : str) : Prop :=
  forall t, In t (referenced_tables sql) -> t = lit "forex_bars".

(** The text after the first semicolon. *)
Fixpoint after_semicolon (s : str) : str :=
  match s with
  | c :: t => if is_semicolon c then t else after_semicolon t
  | [] => []
  end.

(** A single statement: nothing but whitespace after the first
    terminator. *)
Definition single_statement (sql : str) : Prop :=
  strip (after_semicolon sql) = [].

(** A single SELECT statement on the permitted table. *)
Definition single_select_on_permitted_table (sql : str) : Prop :=
  first_word (lower (strip sql)) = lit "select"
  /\ single_statement sql
  /\ only_permitted_table sql.

(** Every call of the Executor comes after an acceptance of the same
    statement by the Safety Gate. *)
Definition gate_before_executor (tr : list event) : Prop :=
  forall pre sql post,
    tr = pre ++ ExecutorCalled sql :: post -> In (GateAccepted sql) pre.

(** What the conversion of the Executor does to one cell. *)
Inductive converted : pyval -> pyval -> Prop :=
| conv_number v : isinstance_int_float v = true -> converted v v
| conv_none : converted VNone VNone
| conv_str s : converted (VStr s) (VStr s)
| conv_other cls repr : converted (VObj cls repr) (VStr repr).

(** A cell that is a number, null or a string. *)
Definition transport_safe (v : pyval) : Prop :=
  isinstance_int_float v = true \/ v = VNone \/ exists s, v = VStr s.

(** A string that ends in exactly one semicolon. *)
Definition ends_in_one_semicolon (s : str) : Prop :=
  exists body, s = body ++ lit ";" /\ no_trail is_semicolon body.

(** No backtick in a text. *)
Definition backtick : ascii := "`"%char.
Definition no_backtick (s : str) : Prop :=
  Forall (fun c => c <> backtick) s.

(** No semicolon in a text. *)
Definition no_semicolon (s : str) : Prop :=
  Forall (fun c => is_semicolon c = false) s.

(** A statement between the padding spaces of the Gate. *)
Definition pad (w : str) : str := lit " " ++ w ++ lit " ".

(** The invariant of the record of calls: the Executor is only called
    on a statement accepted before, and an acceptance is recorded only
    for a statement the Gate returns [True] on. *)
Definition sound (tr : list event) : Prop :=
  gate_before_executor tr
  /\ forall sql, In (GateAccepted sql) tr ->
                 validate_read_only_sql_pure sql = inr true.

Definition keeps_sound {A : Type} (m : M A) : Prop :=
  forall tr, sound tr -> sound (fst (m tr)).

(** The text [l'] matches the literal word [l] of a pattern, character
    by character. *)
Definition matches_word (fl : flags) (l l' : str) : Prop :=
  Forall2 (fun a ch => cls_matches fl (CChr a) ch = true) l l'.

(** Every character of a given text is, or is not, a given one. *)
Ltac all_chars :=
  repeat (constructor; [first [discriminate | reflexivity]|]); constructor.

(** The text mentions [w], whatever the case of its letters. *)
Definition mentions (w sql : str) : Prop :=
  exists pre post, lower sql = pre ++ w ++ post.

(** The sanity checks of the secondary bridge fail: the SQL is empty,
    is a ["none"] or ["null"] placeholder, or does not mention
    ["select"] or the permitted table. *)
Definition fails_sanity (sql : str) : Prop :=
  sql = []
  \/ lower (strip sql) = empty
  \/ lower (strip sql) = lit "none;"
  \/ lower (strip sql) = lit "null;"
  \/ ~ mentions (lit "select") sql
  \/ ~ mentions (lit "forex_bars") sql.

(** The file [f'] is the file [f] with one more line at its end, the
    record of [fields], after the header line when [f] did not exist. *)
Definition gains_record (f f' : logfile) (fields : list str) : Prop :=
  f' = Some (content f
             ++ match f with
                | None => writerow header
                | Some _ => []
                end
             ++ writerow fields).

(** The text holds three backticks followed by one character and the
    letters [ql], in any case: what a fence tagged [sql] looks like,
    whatever stands for the [s]. *)
Fixpoint sql_fence_ahead (s : str) : bool :=
  match s with
  | [] => false
  | _ :: t =>
      startswith (lit "```") s
      && str_eqb (lower (firstn 2 (skipn 4 s))) (lit "ql")
      || sql_fence_ahead t
  end.

(** A disk that takes every write. *)
Definition takes_all (d : disk) : Prop :=
  forall f text, d f text = Written.

(** A write that raised [e]. *)
Definition raised_by_write (d : disk) (e : exn) : Prop :=
  exists f text after, d f text = WriteRaised e after.

End Spec.

(* ================================================================== *)
(** ** Concrete requests, used to run the model *)

Module Scenario.

Import Main.

Definition registry : list dict :=
  [[(lit "natural_language_question", Some (lit "What is the max close?"));
    (lit "sql_query", Some (lit "SELECT max(close) FROM forex_bars;"));
    (lit "business_interpretation", Some (lit "Highest closing price."));
    (lit "source_url", None)]].

(** A model server that answers every question with a statement on
    another table, and a database that answers every statement. *)
Definition completion : str :=
  lit "```sql
SELECT * FROM users
```
Interpretation: Lists the users.
Source: https://example.org/users".

Definition the_world : world :=
  World (fun _ => PostResponse 200 [] (inr completion))
        (fun _ => DbResult [lit "max"] [[VFloat 4608533498688228557%Z]]).

Definition registry_request : QuestionRequest :=
  Request (lit " what is the MAX close? ") (Some 10%Z) None.

Definition free_request : QuestionRequest :=
  Request (lit "Who are the users?") None None.

End Scenario.

(* ================================================================== *)
(** ** The ways a request to [/ask] can end *)

Module Outcome.

Import Main.

(** The calls made before the Safety Gate is reached: none on the
    registry path, one call of the bridge on the fallback paths. *)
Inductive before_gate : list event -> Prop :=
| registry_path : before_gate []
| bridge_path q : before_gate [BridgeCalled q].

(** The source tags of an answer and what goes with each. *)
Inductive tagged (pre : list event) (sql : str) (resp : response) : Prop :=
| tag_registry :
    pre = [] -> source resp = lit "registry" -> sql_generated resp = None ->
    tagged pre sql resp
| tag_missing_sql q :
    pre = [BridgeCalled q] ->
    source resp = lit "registry_match_missing_sql_lmstudio_fallback" ->
    sql_generated resp = Some sql ->
    tagged pre sql resp
| tag_fallback q :
    pre = [BridgeCalled q] ->
    source resp = lit "lmstudio_fallback" ->
    r_question resp = q ->
    sql_generated resp = Some sql ->
    tagged pre sql resp.

(** The record of calls and the result of one request. *)
Inductive ask_outcome (w : world)
  : list event -> exn + response -> Prop :=
| null_question m :
    ask_outcome w [] (inl (PyException m))
| bridge_failed q d :
    ask_lmstudio_generate_pure w q = inl (HTTPException 500 d) ->
    ask_outcome w [BridgeCalled q] (inl (HTTPException 500 d))
| rejected pre sql d :
    before_gate pre ->
    validate_read_only_sql_pure sql = inl (HTTPException 400 d) ->
    ask_outcome w (pre ++ [GateRejected sql]) (inl (HTTPException 400 d))
| database_failed pre sql d :
    before_gate pre ->
    validate_read_only_sql_pure sql = inr true ->
    run_sql_pure w sql = inl (HTTPException 500 d) ->
    ask_outcome w (pre ++ [GateAccepted sql; ExecutorCalled sql])
      (inl (HTTPException 500 d))
| answered pre sql resp :
    before_gate pre ->
    validate_read_only_sql_pure sql = inr true ->
    run_sql_pure w sql = inr (QueryResult (r_columns resp) (r_rows resp)) ->
    tagged pre sql resp ->
    ask_outcome w (pre ++ [GateAccepted sql; ExecutorCalled sql])
      (inr resp).

(** The key of a registry entry: its question, trimmed. *)
Definition entry_key (entry : dict) : pyopt :=
  match dict_get entry (lit "natural_language_question") (Some []) with
  | Some q => Some (strip q)
  | None => None
  end.

(** The entry has a key and the question [q_in] is not it. *)
Definition other_key (q_in : str) (entry : dict) : Prop :=
  exists nlq, entry_key entry = Some nlq /\ lower q_in <> lower nlq.

(** The SQL of a registry entry, trimmed; empty when missing. *)
Definition entry_sql (entry : dict) : str :=
  strip (match py_or (dict_get entry (lit "sql_query") None) (Some [])
         with Some s => s | None => [] end).

End Outcome.

(* ================================================================== *)
(** ** app/services/mbridge.py: interpretation and links *)

Module Links.

Import Mbridge.

(** [interpret_business(question)]: what [_post] returned, trimmed; an
    exception of [_post] propagates, and a content that is not a [str]
    has no [strip]. *)
Definition interpret_business (posted : exn + pyval) : exn + str :=
  match posted with
  | inl e => inl e
  | inr (VStr content) => inr (strip content)
  | inr v =>
      inl (PyException
             (lit "'" ++ type_name v
              ++ lit "' object has no attribute 'strip'"))
  end.

(** The pattern of [_extract_urls], [(https?://[^\s\)\]]+)] with
    [re.IGNORECASE], read as a scanner. *)

(** [[^\s\)\]]] *)
Definition url_char (c : ascii) : bool :=
  negb (isspace c || Ascii.eqb c ")"%char || Ascii.eqb c "]"%char).

(** [[^\s\)\]]*], greedy, with nothing after it in the pattern. *)
Fixpoint url_run (s : str) : str :=
  match s with
  | c :: t => if url_char c then c :: url_run t else []
  | [] => []
  end.

(** A literal letter under [re.IGNORECASE]: on the code points of the
    model, equality of the lower-case forms.  (Beyond them the library
    also lets U+017F match [s].) *)
Definition letter (a c : ascii) : bool :=
  Ascii.eqb (lower_char a) (lower_char c).

(** [://[^\s\)\]]+] after the scheme already matched: the whole match. *)
Definition url_tail (scheme r : str) : option str :=
  match r with
  | c1 :: c2 :: c3 :: u =>
      if Ascii.eqb c1 ":"%char && Ascii.eqb c2 "/"%char
         && Ascii.eqb c3 "/"%char
      then match url_run u with
           | [] => None
           | run => Some (scheme ++ [c1; c2; c3] ++ run)
           end
      else None
  | _ => None
  end.

(** The pattern tried at the start of [s]: [http], then [s?] (with the
    [s] first, without it when that fails), then the rest. *)
Definition url_at (s : str) : option str :=
  match s with
  | h :: t1 :: t2 :: p :: r =>
      if letter "h" h && letter "t" t1 && letter "t" t2 && letter "p" p
      then
        match r with
        | s' :: r' =>
            if letter "s" s' then
              match url_tail [h; t1; t2; p; s'] r' with
              | Some m => Some m
              | None => url_tail [h; t1; t2; p] r
              end
            else url_tail [h; t1; t2; p] r
        | [] => None
        end
      else None
  | _ => None
  end.

(** [url_re.finditer(text)]: the matches from left to right, each
    search starting where the match before ended; [skip] counts the
    characters of the last match still to pass over. *)
Fixpoint finditer (skip : nat) (s : str) : list str :=
  match s with
  | [] => []
  | _ :: t =>
      match skip with
      | S k => finditer k t
      | O =>
          match url_at s with
          | Some m => m :: finditer (List.length m - 1) t
          | None => finditer 0 t
          end
      end
  end.

(** The characters of [".,);]"]. *)
Definition trailing_punctuation (c : ascii) : bool :=
  existsb (Ascii.eqb c) (lit ".,);]").

Definition _extract_urls (text : str) : list str :=
  map (rstrip_with trailing_punctuation) (finditer 0 text).

(** What a HEAD or GET request gives [_http_ok]: an exception, or a
    response with its status code and its [Content-Type] header (empty
    when absent). *)
Record reply : Type := Reply { status_code : Z; content_type : str }.

Definition _http_ok (head get : exn + reply) : bool :=
  match head with
  | inl _ => false
  | inr resp =>
      if (status_code resp <? 400)%Z
         && contains (lit "text/html") (lower (content_type resp))
      then true
      else
        match get with
        | inl _ => false
        | inr resp =>
            let ct := lower (content_type resp) in
            (status_code resp <? 400)%Z
            && (contains (lit "text/html") ct
                || contains (lit "application/xhtml+xml") ct)
        end
  end.

(** The web, as [_http_ok] sees it: for each URL the outcome of the
    HEAD request and of the GET request. *)
Definition web := str -> (exn + reply) * (exn + reply).

Definition probe (net : web) (url : str) : bool :=
  _http_ok (fst (net url)) (snd (net url)).

(** [url in seen] *)
Definition seen_before (url : str) (seen : list str) : bool :=
  existsb (str_eqb url) seen.

(** The loop of [suggest_learn_more_links] over the candidates still to
    be looked at.  The result is the list [valid] and the URLs probed,
    in the order of the probes. *)
Fixpoint validate_links (net : web) (max_links : Z)
    (candidates seen valid probed : list str) : list str * list str :=
  match candidates with
  | [] => (valid, probed)
  | url :: more =>
      if seen_before url seen then
        validate_links net max_links more seen valid probed
      else
        let seen := url :: seen in
        let valid := if probe net url then valid ++ [url] else valid in
        let probed := probed ++ [url] in
        if (Z.of_nat (List.length valid) >=? max_links)%Z
        then (valid, probed)
        else validate_links net max_links more seen valid probed
  end.

(** [suggest_learn_more_links(topic, max_links)]: [posted] is what
    [_post] does with the prompt; a returned value that is not a [str]
    makes [finditer] raise. *)
Definition suggest_learn_more_links (posted : exn + pyval) (net : web)
    (max_links : Z) : list str * (exn + list str) :=
  match posted with
  | inl e => ([], inl e)
  | inr (VStr raw) =>
      let '(valid, probed) :=
        validate_links net max_links (_extract_urls raw) [] [] [] in
      (probed, inr valid)
  | inr v =>
      ([], inl (PyException
                  (lit "expected string or bytes-like object, got '"
                   ++ type_name v ++ lit "'")))
  end.

End Links.

(* ================================================================== *)
(** ** app/services/db.py *)

Module Db.

Import Re.

(** [_PSYCO_RE = re.compile(r"%\((\w+)\)s")] *)
Definition psyco_flags : flags := Flags false false false.
Definition _PSYCO_RE : regex :=
  seq [word "%("; Group 1 (Plus CWord); word ")s"].

(** [r.sub(repl, s)] for a pattern that matches no empty text: the
    text is read from left to right; where the pattern matches, the
    replacement is written and the reading goes on after the match;
    elsewhere the character is copied.  [skip] counts the characters of
    the last match still to pass over. *)
Fixpoint sub_from (fl : flags) (r : regex) (repl : mstate -> str)
    (skip : nat) (bef rst : str) : str :=
  match rst with
  | [] => []
  | c :: t =>
      match skip with
      | S k => sub_from fl r repl k (c :: bef) t
      | O =>
          match match_at fl r bef rst with
          | Some m =>
              repl m
              ++ sub_from fl r repl
                   (List.length (before m) - List.length bef - 1)
                   (c :: bef) t
          | None => c :: sub_from fl r repl 0 (c :: bef) t
          end
      end
  end.

(** The replacement [r":\1"]. *)
Definition colon_name (m : mstate) : str :=
  lit ":" ++ match group m 1 with Some g => g | None => [] end.

Definition _to_sa_binds (sql : str) : str :=
  if contains (lit ":") sql
     && match search psyco_flags _PSYCO_RE sql with
        | Some _ => false
        | None => true
        end
  then sql
  else sub_from psyco_flags _PSYCO_RE colon_name 0 [] sql.

(** A [DataFrame]: column names and rows. *)
Definition dataframe : Type := (list str * list (list pyval))%type.

(** The [params] of a query: a [dict] from names to values. *)
Definition parameters : Type := list (str * pyval).

(** [run_query(query, params)].  [engine] is what the database does
    with the text of a statement and its parameters. *)
Definition run_query (engine : str -> parameters -> exn + dataframe)
    (query : str) (params : option parameters) : exn + dataframe :=
  let sql_clean := rstrip_semicolons (strip query) in   (* avoid trailing ; *)
  let sql_clean := _to_sa_binds sql_clean in
  engine sql_clean (match params with Some d => d | None => [] end).

End Db.

(* ================================================================== *)
(** ** app/ui/Home.py: the button "Ask Atlas" *)

Module Home.

Import Qlog Mbridge Links Db.

(** What the page shows, in the order of the calls of [st].  These
    calls are taken to return. *)
Inductive shown : Type :=
| Sorry                                (* st.warning("Sorry, I couldn't ...") *)
| ErrorText (sql : str)                (* st.error(sql) *)
| Results                              (* st.write("Results:") *)
| Data (df : dataframe)                (* st.dataframe(df) *)
| Interpretation (explanation : str)   (* st.markdown(f"**Business ...") *)
| LearnMore (links : list str)         (* "**Learn more:**", a line per link *)
| Shrugged.                            (* st.error("Atlas shrugged ..."),
                                          st.info(...) *)

(** What is outside the page during one press of the button: what
    [_post] does for the question, for the interpretation prompt and for
    the prompt about a topic; the database; the web; the disk that holds
    the log; and the time of the clock at the writes to the log, by
    [ask_qwen] (and by its handler after a write that raised) and by the
    page. *)
Record outside : Type := Outside
  { posted_sql : exn + pyval;
    engine : str -> parameters -> exn + dataframe;
    posted_interpretation : exn + pyval;
    posted_links : str -> exn + pyval;
    net : web;
    log_disk : disk;
    now_bridge : str;
    retry_bridge : str;
    now_page : str }.

(** The body of [if st.button("Ask Atlas"):].  The result is what the
    page shows, the log file afterwards, and the exception that ends
    the run of the script, if any: nothing catches what [ask_qwen]
    raises or what a write of the page to the log raises. *)
Definition ask_atlas (o : outside) (params : parameters)
    (user_question : str) (f : logfile)
  : list shown * logfile * (exn + unit) :=
  match ask_qwen (log_disk o) (posted_sql o) (now_bridge o)
          (retry_bridge o) user_question f with
  | (f, inl e) => ([], f, inl e)
  | (f, inr sql) =>
      (* append_unanswered(...), then the message *)
      let log (so_far : list shown) (failed_sql : pyopt)
              (message : shown) :=
        match append_unanswered (log_disk o) (now_page o) user_question
                failed_sql f with
        | (f, inr _) => (so_far ++ [message], f, inr tt)
        | (f, inl e) => (so_far, f, inl e)
        end in
      (* Treat empty/invalid SQL as unanswered and log it *)
      if negb (truthy sql) || negb (truthy (strip sql))
         || existsb (str_eqb (lower (strip sql)))
              [lit "none;"; lit "null;"]
      then log [] (py_or (Some sql) (Some [])) Sorry
      else if startswith (lit "error") (lower sql) then
        log [] (Some sql) (ErrorText sql)
      else
        (* except Exception: also log as unanswered *)
        let shrug (so_far : list shown) :=
          log so_far (Some sql) Shrugged in
        match run_query (engine o) sql (Some params) with
        | inl _ => shrug [Results]
        | inr df =>
            match interpret_business (posted_interpretation o) with
            | inl _ => shrug [Results; Data df]
            | inr explanation =>
                let topic :=
                  if truthy explanation then explanation
                  else user_question in
                match snd (suggest_learn_more_links (posted_links o topic)
                             (net o) 3) with
                | inl _ =>
                    shrug [Results; Data df; Interpretation explanation]
                | inr links =>
                    ([Results; Data df; Interpretation explanation]
                     ++ match links with
                        | [] => []
                        | _ :: _ => [LearnMore links]
                        end,
                     f, inr tt)
                end
            end
        end
  end.

End Home.

(* ================================================================== *)
(** ** app/services/qlog.py and app/services/db.py: vocabulary *)

Module MoreSpec.

Import Qlog Links.

(** One call of [append_unanswered]: the time, the question and the
    [failed_sql] argument. *)
Definition logged : Type := (str * str * pyopt)%type.

(** The line of the log for one call. *)
Definition line_of (e : logged) : str :=
  let '(now, question, failed_sql) := e in
  writerow
    [now; question;
     match py_or failed_sql (Some []) with Some s => s | None => [] end].

(** The calls of [append_unanswered], one after the other, as long as
    none raises. *)
Fixpoint append_all (d : disk) (es : list logged) (f : logfile)
  : logfile * (exn + unit) :=
  match es with
  | [] => (f, inr tt)
  | (now, question, failed_sql) :: more =>
      match append_unanswered d now question failed_sql f with
      | (f, inr _) => append_all d more f
      | (f, inl e) => (f, inl e)
      end
  end.

(** The opening fence of a fenced block: three backticks and the tag
    [sql] in any case, or three backticks alone before a body that is
    empty or begins with white space (a line break, as a rule). *)
Definition opening_fence (fence body : str) : Prop :=
  lower fence = lit "```sql"
  \/ fence = lit "```"
     /\ match body with
        | [] => True
        | c :: _ => isspace c = true
        end.

(** A statement template: literal text and named placeholders. *)
Inductive piece : Type :=
| Text (s : str)
| Bind (name : str).

(** The template written with psycopg2 placeholders, [%(name)s]. *)
Fixpoint render_psycopg (ps : list piece) : str :=
  match ps with
  | [] => []
  | Text s :: more => s ++ render_psycopg more
  | Bind name :: more => lit "%(" ++ name ++ lit ")s" ++ render_psycopg more
  end.

(** The template written with SQLAlchemy placeholders, [:name]. *)
Fixpoint render_sqlalchemy (ps : list piece) : str :=
  match ps with
  | [] => []
  | Text s :: more => s ++ render_sqlalchemy more
  | Bind name :: more => lit ":" ++ name ++ render_sqlalchemy more
  end.

(** Literal text holds no percent sign; a name is a non-empty word. *)
Definition well_formed (p : piece) : Prop :=
  match p with
  | Text s => Forall (fun c => c <> "%"%char) s
  | Bind name =>
      name <> []
      /\ Forall (fun c => Re.cls_matches Db.psyco_flags Re.CWord c = true)
                name
  end.

(** A character that [\w] matches. *)
Definition word_char (c : ascii) : Prop :=
  Re.cls_matches Db.psyco_flags Re.CWord c = true.

(** The psycopg2 placeholder of a name. *)
Definition placeholder (name : str) : str := lit "%(" ++ name ++ lit ")s".

(** The URL begins with [http] in any letter case, then at most one
    more character (what the [s?] of the pattern took), then [://]. *)
Definition scheme_prefix (url : str) : Prop :=
  exists scheme rest,
    url = scheme ++ lit "://" ++ rest
    /\ lower (firstn 4 scheme) = lit "http"
    /\ List.length scheme <= 5.

(** The candidates in the order of the text, each at its first
    occurrence only, and none that is in [seen]. *)
Fixpoint first_occurrences (seen candidates : list str) : list str :=
  match candidates with
  | [] => []
  | url :: more =>
      if seen_before url seen then first_occurrences seen more
      else url :: first_occurrences (url :: seen) more
  end.

End MoreSpec.

(* ================================================================== *)
(** ** A reply with links, and a web *)

Module Examples.

Import Links.

Definition link_a : str := lit "https://a.org/x".
Definition link_b : str := lit "https://b.org/y".
Definition link_c : str := lit "HTTPS://c.org/z".
Definition link_d : str := lit "https://d.org".

(** A reply of the model to the prompt of [suggest_learn_more_links]. *)
Definition suggestions : str :=
  lit "1. https://a.org/x, (https://b.org/y) https://a.org/x. [HTTPS://c.org/z]; https://d.org".

Definition html : exn + reply :=
  inr (Reply 200 (lit "text/html; charset=utf-8")).
Definition refused : exn + reply :=
  inl (PyException (lit "connection refused")).

(** A web where [link_b] cannot be reached and the other links are
    pages. *)
Definition the_web : web :=
  fun url =>
    if existsb (str_eqb url) [link_a; link_c; link_d]
    then (html, html) else (refused, refused).

End Examples.

(* ================================================================== *)
(** ** Facts about the string operations *)

Module PyStrFacts.

Import PyStr Spec.

Lemma rstrip_with_snoc_out p a c :
  p c = false -> rstrip_with p (a ++ [c]) = a ++ [c].
Proof.
  intros Hc. induction a as [|x a IH]; simpl.
  - now rewrite Hc.
  - rewrite IH. destruct (a ++ [c]) eqn:E; [|reflexivity].
    now destruct a.
Qed.

Lemma rstrip_with_snoc_in p a c :
  p c = true -> rstrip_with p (a ++ [c]) = rstrip_with p a.
Proof.
  intros Hc. induction a as [|x a IH]; simpl.
  - now rewrite Hc.
  - now rewrite IH.
Qed.

Lemma rstrip_with_no_trail p s : no_trail p (rstrip_with p s).
Proof.
  induction s as [|x s IH] using rev_ind; intros a c E.
  - now destruct a.
  - destruct (p x) eqn:Hx.
    + rewrite rstrip_with_snoc_in in E by assumption. eauto.
    + rewrite rstrip_with_snoc_out in E by assumption.
      apply app_inj_tail in E as [_ <-]. assumption.
Qed.

Lemma rstrip_with_fixed p s : no_trail p s -> rstrip_with p s = s.
Proof.
  destruct s as [|x s _] using rev_ind; [reflexivity|].
  intros H. apply rstrip_with_snoc_out. exact (H s x eq_refl).
Qed.

Lemma rstrip_with_idem p s :
  rstrip_with p (rstrip_with p s) = rstrip_with p s.
Proof. apply rstrip_with_fixed, rstrip_with_no_trail. Qed.

Lemma no_trail_app p a b : b <> [] -> no_trail p b -> no_trail p (a ++ b).
Proof.
  intros Hb H x c E.
  destruct b as [|y b _] using rev_ind; [congruence|].
  rewrite app_assoc in E. apply app_inj_tail in E as [_ <-].
  exact (H b y eq_refl).
Qed.

Lemma no_trail_single p c : p c = false -> no_trail p [c].
Proof.
  intros Hc a x E. destruct a as [|y a].
  - now inversion E; subst.
  - inversion E. now destruct a.
Qed.

(** What [rstrip] leaves starts as the string did. *)
Lemma rstrip_with_keeps_lead p q s :
  no_lead p s -> no_lead p (rstrip_with q s).
Proof.
  destruct s as [|c t]; simpl; [trivial|]. intros Hc.
  destruct (rstrip_with q t); [destruct (q c)|]; simpl; trivial.
Qed.

Lemma lstrip_with_no_lead p s : no_lead p (lstrip_with p s).
Proof.
  induction s as [|c t IH]; simpl; [trivial|].
  destruct (p c) eqn:Hc; simpl; assumption.
Qed.

Lemma lstrip_with_fixed p s : no_lead p s -> lstrip_with p s = s.
Proof. destruct s as [|c t]; simpl; [reflexivity|]. now intros ->. Qed.

Lemma no_lead_app p a b : no_lead p a -> no_lead p b -> no_lead p (a ++ b).
Proof. destruct a; simpl; trivial. Qed.

Lemma strip_no_lead s : no_lead isspace (strip s).
Proof. apply rstrip_with_keeps_lead, lstrip_with_no_lead. Qed.

Lemma strip_no_trail s : no_trail isspace (strip s).
Proof. apply rstrip_with_no_trail. Qed.

Lemma strip_fixed s :
  no_lead isspace s -> no_trail isspace s -> strip s = s.
Proof.
  intros Hl Ht. unfold strip, lstrip, rstrip.
  rewrite lstrip_with_fixed by assumption.
  now apply rstrip_with_fixed.
Qed.

Lemma strip_idem s : strip (strip s) = strip s.
Proof. apply strip_fixed; [apply strip_no_lead | apply strip_no_trail]. Qed.

(** [startswith] and [in] as decompositions. *)
Lemma startswith_spec p s :
  startswith p s = true <-> exists t, s = p ++ t.
Proof.
  revert s. induction p as [|a p IH]; intros s; simpl.
  - split; eauto.
  - destruct s as [|b s].
    + split; [discriminate | now intros [t E]].
    + rewrite andb_true_iff, Ascii.eqb_eq, IH. split.
      * intros [-> [t ->]]. eauto.
      * intros [t E]. inversion E; subst. eauto.
Qed.

Lemma contains_spec needle hay :
  contains needle hay = true
  <-> exists pre post, hay = pre ++ needle ++ post.
Proof.
  induction hay as [|c hay IH].
  - cbn [contains]. rewrite orb_false_r, startswith_spec. split.
    + intros [t E]. exists [], t. exact E.
    + intros [pre [post E]]. destruct pre; [eauto|discriminate].
  - cbn [contains]. rewrite orb_true_iff, startswith_spec, IH. split.
    + intros [[t E] | [pre [post E]]].
      * exists [], t. exact E.
      * exists (c :: pre), post. now rewrite E.
    + intros [pre [post E]]. destruct pre as [|x pre].
      * left. eauto.
      * right. inversion E; subst. eauto.
Qed.

Lemma lower_app a b : lower (a ++ b) = lower a ++ lower b.
Proof. apply map_app. Qed.

Lemma str_eqb_eq a b : str_eqb a b = true <-> a = b.
Proof.
  unfold str_eqb. destruct (list_eq_dec ascii_dec a b); split;
    congruence.
Qed.

(** The digits of [str(n)]: no semicolon among them. *)
Lemma string_of_uint_no_semicolon d :
  Forall (fun c => is_semicolon c = false)
         (lit (NilEmpty.string_of_uint d)).
Proof.
  induction d; simpl; constructor; trivial.
Qed.

Lemma str_of_int_no_semicolon n :
  Forall (fun c => is_semicolon c = false) (str_of_int n).
Proof.
  unfold str_of_int, NilEmpty.string_of_int.
  destruct (Z.to_int n); simpl.
  - apply string_of_uint_no_semicolon.
  - constructor; [reflexivity | apply string_of_uint_no_semicolon].
Qed.

Lemma Forall_no_trail p s :
  Forall (fun c => p c = false) s -> no_trail p s.
Proof.
  intros H a c ->. rewrite Forall_app in H. destruct H as [_ H].
  now inversion H.
Qed.

Lemma lstrip_with_split p s :
  exists run, s = run ++ lstrip_with p s
              /\ Forall (fun c => p c = true) run.
Proof.
  induction s as [|c s [run [E H]]]; simpl.
  - exists []. split; [reflexivity | constructor].
  - destruct (p c) eqn:Hc.
    + exists (c :: run). split; [simpl; now f_equal | now constructor].
    + exists []. split; [reflexivity | constructor].
Qed.

Lemma lstrip_with_app_stop p a c b :
  p c = false -> lstrip_with p (a ++ c :: b) = lstrip_with p a ++ c :: b.
Proof.
  intros Hc. induction a as [|x a IH]; simpl.
  - now rewrite Hc.
  - destruct (p x); [exact IH | reflexivity].
Qed.

Lemma rstrip_with_app_keep p a b :
  rstrip_with p b <> [] -> rstrip_with p (a ++ b) = a ++ rstrip_with p b.
Proof.
  intros Hb. induction a as [|x a IH]; simpl; [reflexivity|].
  rewrite IH. destruct (a ++ rstrip_with p b) eqn:E; [|reflexivity].
  apply app_eq_nil in E as [_ E]. congruence.
Qed.

Lemma rstrip_with_cons_out p c b :
  p c = false -> rstrip_with p (c :: b) = c :: rstrip_with p b.
Proof. intros Hc. simpl. destruct (rstrip_with p b); now rewrite ?Hc. Qed.

Lemma before_semicolon_app a b :
  no_semicolon a -> before_semicolon (a ++ ";"%char :: b) = a.
Proof.
  induction 1 as [|c a Hc _ IH]; simpl; [reflexivity|].
  now rewrite Hc, IH.
Qed.

Lemma strip_lstrip s : strip (lstrip s) = strip s.
Proof.
  unfold strip. f_equal. apply lstrip_with_fixed, lstrip_with_no_lead.
Qed.

(** The first statement of a block, trimmed. *)
Lemma first_statement a b :
  no_semicolon a ->
  strip (before_semicolon (strip (a ++ lit ";" ++ b))) = strip a.
Proof.
  intros Ha. unfold strip at 2. unfold lstrip, rstrip.
  change (lit ";" ++ b) with (";"%char :: b).
  rewrite lstrip_with_app_stop by reflexivity.
  rewrite rstrip_with_app_keep
    by (rewrite rstrip_with_cons_out by reflexivity; discriminate).
  rewrite rstrip_with_cons_out by reflexivity.
  fold (lstrip a).
  rewrite before_semicolon_app.
  - apply strip_lstrip.
  - destruct (lstrip_with_split isspace a) as [run [E _]].
    unfold no_semicolon in *. rewrite E in Ha.
    now apply Forall_app in Ha.
Qed.

End PyStrFacts.

(* ================================================================== *)
(** ** Facts about the Safety Gate *)

Module GateFacts.

Import PyStr Spec Main PyStrFacts.

Lemma banned_padded : banned = map pad banned_keywords.
Proof. reflexivity. Qed.

Lemma left_bounded_blank pre :
  left_bounded is_blank pre <-> exists x, lit " " ++ pre = x ++ lit " ".
Proof.
  split.
  - intros [-> | [p [c [-> Hc]]]].
    + exists []. reflexivity.
    + apply Ascii.eqb_eq in Hc. subst c. exists (lit " " ++ p).
      now rewrite <- app_assoc.
  - intros [x E]. destruct x as [|c x].
    + left. simpl in E. inversion E. reflexivity.
    + right. simpl in E. inversion E; subst. exists x, " "%char.
      split; [reflexivity | apply Ascii.eqb_refl].
Qed.

Lemma right_bounded_blank post :
  right_bounded is_blank post <-> exists y, post ++ lit " " = lit " " ++ y.
Proof.
  split.
  - intros [-> | [c [t [-> Hc]]]].
    + exists []. reflexivity.
    + apply Ascii.eqb_eq in Hc. subst c. exists (t ++ lit " ").
      reflexivity.
  - intros [y E]. destruct post as [|c t].
    + now left.
    + right. simpl in E. inversion E; subst. exists " "%char, t.
      split; [reflexivity | apply Ascii.eqb_refl].
Qed.

(** The search of the Gate, [kw in s_spaced] with the padding
    spaces, finds exactly the occurrences of [kw] that have a space or an
    end of [s] on each side. *)
Lemma padded_search w s :
  contains (pad w) (pad s) = true <-> standalone is_blank w s.
Proof.
  rewrite contains_spec. unfold standalone, pad. split.
  - intros [pre [post E]].
    assert (Hpre : exists pre_s, pre ++ lit " " = lit " " ++ pre_s).
    { destruct pre as [|c pre]; [exists []; reflexivity|].
      simpl in E. inversion E; subst. exists (pre ++ lit " ").
      reflexivity. }
    destruct Hpre as [pre_s Hpre].
    destruct (exists_last (l := lit " " ++ post)) as [q [z Hq]];
      [discriminate|].
    assert (E' : (lit " " ++ s) ++ lit " "
                 = (lit " " ++ pre_s ++ w ++ q) ++ [z]).
    { change (lit " " ++ pre_s ++ w ++ q)
        with ((lit " " ++ pre_s) ++ w ++ q).
      rewrite <- Hpre. rewrite <- !app_assoc.
      change ([z]) with ([] ++ [z]).
      rewrite <- !app_assoc in E. simpl in E. simpl.
      rewrite E. f_equal. repeat rewrite <- app_assoc. simpl.
      do 2 f_equal. simpl in Hq. rewrite <- Hq. reflexivity. }
    apply app_inj_tail in E' as [Es Ez]. subst z.
    simpl in Es. inversion Es as [Es']. exists pre_s, q. split; [|split].
    + reflexivity.
    + apply left_bounded_blank. exists pre. now rewrite Hpre.
    + apply right_bounded_blank. exists post. symmetry. exact Hq.
  - intros [pre [post [-> [Hl Hr]]]].
    apply left_bounded_blank in Hl as [x Hx].
    apply right_bounded_blank in Hr as [y Hy].
    exists x, y.
    transitivity ((lit " " ++ pre) ++ w ++ (post ++ lit " ")).
    + now rewrite <- !app_assoc.
    + rewrite Hx, Hy. now rewrite <- !app_assoc.
Qed.

Lemma gate_unfold sql :
  validate_read_only_sql_pure sql
  = if negb (startswith (lit "select") (lower (strip sql))) then
      inl (HTTPException 400 (lit "Only SELECT queries are allowed."))
    else if existsb (fun kw => contains kw (pad (lower (strip sql))))
              banned
    then inl (HTTPException 400
                (lit "Write/DDL statements are not allowed."))
    else inr true.
Proof. reflexivity. Qed.

(** What the Gate decides, in terms of the lowered, trimmed statement. *)
Lemma gate_accepts_iff sql :
  validate_read_only_sql_pure sql = inr true
  <-> startswith (lit "select") (lower (strip sql)) = true
      /\ forall kw, In kw banned_keywords ->
                    ~ standalone is_blank kw (lower (strip sql)).
Proof.
  rewrite gate_unfold.
  destruct (startswith (lit "select") (lower (strip sql))); cbn [negb].
  2: { split; [discriminate | intros [? _]; discriminate]. }
  destruct (existsb (fun kw => contains kw (pad (lower (strip sql))))
              banned) eqn:Ex.
  - split; [discriminate|]. intros [_ H]. exfalso.
    apply existsb_exists in Ex as [kw [Hin Hc]].
    rewrite banned_padded in Hin. apply in_map_iff in Hin as [w [<- Hw]].
    apply padded_search in Hc. exact (H w Hw Hc).
  - split; [|reflexivity]. intros _. split; [reflexivity|].
    intros kw Hkw Hs. apply padded_search in Hs.
    assert (existsb (fun kw => contains kw (pad (lower (strip sql))))
              banned = true); [|congruence].
    apply existsb_exists. exists (pad kw). split; [|assumption].
    rewrite banned_padded. now apply in_map.
Qed.

Lemma gate_result sql b :
  validate_read_only_sql_pure sql = inr b -> b = true.
Proof.
  rewrite gate_unfold.
  repeat match goal with |- context [if ?c then _ else _] =>
    destruct c end; congruence.
Qed.

Lemma lower_char_blank c : is_blank (lower_char c) = is_blank c.
Proof.
  destruct c as [[] [] [] [] [] [] [] []]; reflexivity.
Qed.

Lemma left_bounded_lower pre :
  left_bounded is_blank pre -> left_bounded is_blank (lower pre).
Proof.
  intros [-> | [p [c [-> Hc]]]]; [now left | right].
  exists (lower p), (lower_char c). rewrite lower_app.
  split; [reflexivity | now rewrite lower_char_blank].
Qed.

Lemma right_bounded_lower post :
  right_bounded is_blank post -> right_bounded is_blank (lower post).
Proof.
  intros [-> | [c [t [-> Hc]]]]; [now left | right].
  exists (lower_char c), (lower t).
  split; [reflexivity | now rewrite lower_char_blank].
Qed.

(** A boundary of a finer kind is a boundary of a coarser kind. *)
Lemma standalone_mono (b b' : ascii -> bool) w s :
  (forall c, b c = true -> b' c = true) ->
  standalone b w s -> standalone b' w s.
Proof.
  intros Hb [pre [post [E [Hl Hr]]]]. exists pre, post.
  split; [assumption|]. split.
  - destruct Hl as [-> | [p [c [-> Hc]]]]; [now left | right]; eauto.
  - destruct Hr as [-> | [c [t [-> Hc]]]]; [now left | right]; eauto.
Qed.

Lemma blank_is_space c : is_blank c = true -> isspace c = true.
Proof. intros H. apply Ascii.eqb_eq in H. now subst c. Qed.

(** The scan decides [standalone]. *)
Lemma standalone_from_spec b w edge s :
  standalone_from b w edge s = true
  <-> exists pre post,
        s = pre ++ w ++ post
        /\ (pre = [] /\ edge = true
            \/ exists p c, pre = p ++ [c] /\ b c = true)
        /\ right_bounded b post.
Proof.
  revert edge. induction s as [|x s IH]; intros edge.
  - cbn [standalone_from]. rewrite orb_false_r, !andb_true_iff. split.
    + intros [[He Hw] _]. apply startswith_spec in Hw as [t E].
      destruct w; [|discriminate]. destruct t; [|discriminate].
      exists [], []. split; [reflexivity|]. split; [left; auto | now left].
    + intros [pre [post [E [Hl Hr]]]].
      symmetry in E. apply app_eq_nil in E as [-> E].
      apply app_eq_nil in E as [-> ->].
      destruct Hl as [[_ ->] | [p [c [Hp _]]]]; [auto | now destruct p].
  - cbn [standalone_from]. rewrite orb_true_iff, !andb_true_iff, IH. split.
    + intros [[[He Hw] Hr] | [pre [post [E [Hl Hr]]]]].
      * apply startswith_spec in Hw as [t E]. exists [], t.
        split; [exact E|]. split; [left; auto|].
        rewrite E, skipn_app, Nat.sub_diag, skipn_all in Hr. simpl in Hr.
        destruct t as [|c t]; [now left | right; eauto].
      * exists (x :: pre), post. split; [now rewrite E|]. split; [|assumption].
        right. destruct Hl as [[-> Hx] | [p [c [-> Hc]]]].
        -- exists [], x. auto.
        -- exists (x :: p), c. auto.
    + intros [pre [post [E [Hl Hr]]]]. destruct pre as [|y pre].
      * left. destruct Hl as [[_ ->] | [p [c [Hp _]]]]; [|now destruct p].
        simpl in E. split; [split; [reflexivity|]|].
        -- apply startswith_spec. eauto.
        -- rewrite E, skipn_app, Nat.sub_diag, skipn_all. simpl.
           destruct Hr as [-> | [c [t [-> Hc]]]]; [reflexivity | exact Hc].
      * right. inversion E; subst. exists pre, post.
        split; [reflexivity|]. split; [|assumption].
        destruct Hl as [[? _] | [p [c [Hp Hc]]]]; [discriminate|].
        destruct p as [|z p].
        -- left. simpl in Hp. inversion Hp; subst. auto.
        -- right. simpl in Hp. inversion Hp; subst. eauto.
Qed.

Lemma standaloneb_spec b w s :
  standaloneb b w s = true <-> standalone b w s.
Proof.
  unfold standaloneb, standalone. rewrite standalone_from_spec.
  split; intros [pre [post [E [Hl Hr]]]]; exists pre, post;
    (split; [assumption|]); (split; [|assumption]).
  - destruct Hl as [[-> _] | H]; [now left | now right].
  - destruct Hl as [-> | H]; [left; auto | now right].
Qed.

End GateFacts.

(* ================================================================== *)
(** ** Facts about the endpoint *)

Module AskFacts.

Import PyStr Spec Main PyStrFacts GateFacts.

Lemma sound_nil : sound [].
Proof.
  split.
  - intros pre sql post E. now destruct pre.
  - intros sql [].
Qed.

Lemma sound_snoc_executor tr sql :
  sound tr -> In (GateAccepted sql) tr ->
  sound (tr ++ [ExecutorCalled sql]).
Proof.
  intros [Hg Ha] Hin. split.
  - intros pre s post E.
    destruct post as [|x post _] using rev_ind.
    + apply app_inj_tail in E as [-> E]. inversion E; subst. assumption.
    + rewrite app_comm_cons, app_assoc in E.
      apply app_inj_tail in E as [-> _]. eapply Hg. reflexivity.
  - intros s Hs. apply in_app_or in Hs as [Hs | [Hs | []]];
      [auto | discriminate].
Qed.

Lemma sound_snoc_other tr ev :
  sound tr ->
  (forall sql, ev <> ExecutorCalled sql) ->
  (forall sql, ev = GateAccepted sql ->
               validate_read_only_sql_pure sql = inr true) ->
  sound (tr ++ [ev]).
Proof.
  intros [Hg Ha] Hne Hacc. split.
  - intros pre s post E.
    destruct post as [|x post _] using rev_ind.
    + apply app_inj_tail in E as [_ E]. now apply Hne in E.
    + rewrite app_comm_cons, app_assoc in E.
      apply app_inj_tail in E as [-> _]. eapply Hg. reflexivity.
  - intros s Hs. apply in_app_or in Hs as [Hs | [Hs | []]]; auto.
Qed.

Lemma keeps_sound_ret {A : Type} (a : A) : keeps_sound (ret a).
Proof. intros tr H. exact H. Qed.

Lemma keeps_sound_raise {A : Type} e : keeps_sound (@raise A e).
Proof. intros tr H. exact H. Qed.

Lemma keeps_sound_bind {A B : Type} (m : M A) (f : A -> M B) :
  keeps_sound m -> (forall a, keeps_sound (f a)) -> keeps_sound (bind m f).
Proof.
  intros Hm Hf tr H. unfold bind. specialize (Hm tr H).
  destruct (m tr) as [tr' [e | a]]; simpl in *; [assumption|].
  now apply Hf.
Qed.

Lemma keeps_sound_bridge w q : keeps_sound (ask_lmstudio_generate w q).
Proof.
  intros tr H. unfold ask_lmstudio_generate, bind, emit, lift. simpl.
  apply sound_snoc_other; [assumption | discriminate | discriminate].
Qed.

(** The three places where [ask_query] runs a statement have the same
    shape: validate, execute, build the answer. *)
Lemma keeps_sound_validate_run {A : Type} w sql (k : query_result -> M A) :
  (forall r, keeps_sound (k r)) ->
  keeps_sound (validate_read_only_sql sql ;;; (r <- run_sql w sql ;; k r)).
Proof.
  intros Hk tr H. unfold validate_read_only_sql.
  destruct (validate_read_only_sql_pure sql) as [e | b] eqn:Ev;
    unfold bind, emit, raise, ret, run_sql, lift; simpl.
  - apply sound_snoc_other; [assumption | discriminate | discriminate].
  - assert (Hb := gate_result _ Ev). subst b.
    assert (H1 : sound (tr ++ [GateAccepted sql])).
    { apply sound_snoc_other; [assumption | discriminate|].
      intros s E. inversion E; subst. assumption. }
    assert (H2 : sound ((tr ++ [GateAccepted sql]) ++ [ExecutorCalled sql])).
    { apply sound_snoc_executor; [assumption|].
      apply in_or_app. right. now left. }
    destruct (run_sql_pure w sql) as [e | r]; simpl; [assumption|].
    now apply Hk.
Qed.

Lemma keeps_sound_fallback w req q_in :
  keeps_sound (lmstudio_fallback w req q_in).
Proof.
  unfold lmstudio_fallback. apply keeps_sound_bind.
  - apply keeps_sound_bridge.
  - intros [[sql_gen interp] src_url].
    apply keeps_sound_validate_run. intros r. apply keeps_sound_ret.
Qed.

Lemma keeps_sound_match w req q_in nlq entry :
  keeps_sound (registry_match w req q_in nlq entry).
Proof.
  unfold registry_match.
  destruct (truthy _).
  - apply keeps_sound_validate_run. intros r. apply keeps_sound_ret.
  - apply keeps_sound_bind.
    + apply keeps_sound_bridge.
    + intros [[sql_gen interp] src_url].
      apply keeps_sound_validate_run. intros r. apply keeps_sound_ret.
Qed.

Lemma keeps_sound_loop w req q_in entries :
  keeps_sound (registry_loop w req q_in entries).
Proof.
  induction entries as [|entry more IH]; simpl.
  - apply keeps_sound_fallback.
  - destruct (dict_get entry _ _) as [q|]; [|apply keeps_sound_raise].
    destruct (str_eqb _ _); [apply keeps_sound_match | exact IH].
Qed.

Lemma handle_ask_sound registry w req :
  sound (fst (handle_ask registry w req)).
Proof.
  unfold handle_ask, ask_query. apply keeps_sound_loop, sound_nil.
Qed.

End AskFacts.

(* ================================================================== *)
(** ** Facts about the matcher *)

Module ReFacts.

Import PyStr Re Spec PyStrFacts.

#[local] Arguments cls_matches : simpl never.

Section Matcher.

Variable fl : flags.

Lemma subject_step ch bef rst gs :
  subject (MState (ch :: bef) rst gs) = subject (MState bef (ch :: rst) gs).
Proof. unfold subject. simpl. now rewrite <- app_assoc. Qed.

(** Whatever a pattern consumes, the rest of the pattern continues on
    the same subject. *)
Lemma star_greedy_subject c rst : forall bef gs k m,
  star_greedy fl c bef rst gs k = Some m ->
  exists st', subject st' = subject (MState bef rst gs) /\ k st' = Some m.
Proof.
  induction rst as [|ch rst IH]; intros bef gs k m H; simpl in H.
  - eauto.
  - destruct (cls_matches fl c ch); [|eauto].
    destruct (star_greedy fl c (ch :: bef) rst gs k) eqn:E; [|eauto].
    inversion H; subst. apply IH in E as [st' [Hs Hk]].
    exists st'. now rewrite Hs, subject_step.
Qed.

Lemma star_lazy_subject c rst : forall bef gs k m,
  star_lazy fl c bef rst gs k = Some m ->
  exists st', subject st' = subject (MState bef rst gs) /\ k st' = Some m.
Proof.
  induction rst as [|ch rst IH]; intros bef gs k m H; simpl in H.
  - destruct (k (MState bef [] gs)) eqn:E; [|discriminate].
    inversion H; subst. eauto.
  - destruct (k (MState bef (ch :: rst) gs)) eqn:E.
    + inversion H; subst. eauto.
    + destruct (cls_matches fl c ch); [|discriminate].
      apply IH in H as [st' [Hs Hk]].
      exists st'. now rewrite Hs, subject_step.
Qed.

Lemma one_subject c st k m :
  one fl c st k = Some m ->
  exists st', subject st' = subject st /\ k st' = Some m.
Proof.
  unfold one. destruct st as [bef rst gs]. simpl.
  destruct rst as [|ch rst]; [discriminate|].
  destruct (cls_matches fl c ch); [|discriminate].
  intros H. eexists. split; [|exact H]. apply subject_step.
Qed.

Lemma rmatch_subject r : forall st k m,
  rmatch fl r st k = Some m ->
  exists st', subject st' = subject st /\ k st' = Some m.
Proof.
  induction r as [|c|c|c|c|r IH|r1 IH1 r2 IH2|n r IH| |];
    intros st k m H; simpl in H.
  - eauto.
  - eapply one_subject. eassumption.
  - destruct st. now apply star_greedy_subject in H.
  - destruct st. now apply star_lazy_subject in H.
  - apply one_subject in H as [st1 [Hs1 H]].
    destruct st1 as [b1 r1 g1]. simpl in H.
    apply star_greedy_subject in H as [st' [Hs Hk]].
    exists st'. split; [now rewrite Hs | assumption].
  - destruct (rmatch fl r st k) eqn:E; [|eauto].
    inversion H; subst. eauto.
  - apply IH1 in H as [st1 [Hs1 H]]. apply IH2 in H as [st' [Hs Hk]].
    exists st'. split; [congruence | assumption].
  - apply IH in H as [st1 [Hs1 H]]. eexists. split; [|exact H].
    exact Hs1.
  - destruct (at_bol fl st); [eauto | discriminate].
  - destruct (at_eol fl st); [eauto | discriminate].
Qed.

(** A sequence, one part at a time. *)
Lemma rmatch_seq_cons r rs st k :
  rmatch fl (seq (r :: rs)) st k
  = rmatch fl r st (fun st' => rmatch fl (seq rs) st' k).
Proof. reflexivity. Qed.

Lemma rmatch_seq_step r rs st k m :
  rmatch fl (seq (r :: rs)) st k = Some m ->
  exists st', subject st' = subject st
              /\ rmatch fl (seq rs) st' k = Some m.
Proof. rewrite rmatch_seq_cons. apply rmatch_subject. Qed.

Lemma rmatch_seq_split rs1 rs2 : forall st k m,
  rmatch fl (seq (rs1 ++ rs2)) st k = Some m ->
  exists st', subject st' = subject st
              /\ rmatch fl (seq rs2) st' k = Some m.
Proof.
  induction rs1 as [|r rs1 IH]; intros st k m H; [eauto|].
  simpl app in H. apply rmatch_seq_step in H as [st1 [Hs1 H]].
  apply IH in H as [st' [Hs H]]. exists st'.
  split; [now rewrite Hs | assumption].
Qed.

(** A literal word consumes characters that match it one by one. *)
Lemma rmatch_chars l : forall st k m,
  rmatch fl (chars l) st k = Some m ->
  exists l' rst',
    rest st = l' ++ rst' /\ matches_word fl l l'
    /\ k (MState (rev l' ++ before st) rst' (groups st)) = Some m.
Proof.
  induction l as [|a l IH]; intros st k m H.
  - exists [], (rest st). destruct st. simpl in *.
    repeat split; [constructor | assumption].
  - change (chars (a :: l)) with (Seq (One (CChr a)) (chars l)) in H.
    simpl in H. unfold one in H.
    destruct (rest st) as [|ch rst] eqn:Er; [discriminate|].
    destruct (cls_matches fl (CChr a) ch) eqn:Ec; [|discriminate].
    apply IH in H as [l' [rst' [E [Hw Hk]]]]. simpl in E, Hk.
    exists (ch :: l'), rst'. subst rst. split; [reflexivity|].
    split; [now constructor|].
    simpl. now rewrite <- app_assoc.
Qed.

Lemma rmatch_chars_ok l : forall l' st rst' k,
  rest st = l' ++ rst' -> matches_word fl l l' ->
  rmatch fl (chars l) st k
  = k (MState (rev l' ++ before st) rst' (groups st)).
Proof.
  induction l as [|a l IH]; intros l' st rst' k E Hw; inversion Hw; subst.
  - destruct st. simpl in *. now subst.
  - change (chars (a :: l)) with (Seq (One (CChr a)) (chars l)).
    simpl. unfold one. rewrite E. simpl.
    match goal with H : cls_matches _ _ _ = true |- _ => rewrite H end.
    erewrite IH; [|reflexivity|eassumption]. simpl.
    now rewrite <- app_assoc.
Qed.

Lemma rmatch_chars_fail a l st k :
  match rest st with
  | [] => True
  | ch :: _ => cls_matches fl (CChr a) ch = false
  end ->
  rmatch fl (chars (a :: l)) st k = None.
Proof.
  change (chars (a :: l)) with (Seq (One (CChr a)) (chars l)).
  simpl. unfold one. destruct (rest st) as [|ch rst]; [reflexivity|].
  now intros ->.
Qed.

(** Greedy repetition over a run of matching characters that ends
    before a character that does not match: when the rest of the pattern
    succeeds after the whole run, that is the match. *)
Lemma star_greedy_run c run : forall bef rst gs k m,
  Forall (fun ch => cls_matches fl c ch = true) run ->
  k (MState (rev run ++ bef) rst gs) = Some m ->
  match rst with
  | [] => True
  | ch :: _ => cls_matches fl c ch = false
  end ->
  star_greedy fl c bef (run ++ rst) gs k = Some m.
Proof.
  induction run as [|x run IH]; intros bef rst gs k m Hrun Hk Hnext.
  - simpl in *. destruct rst as [|ch rst]; simpl; [assumption|].
    now rewrite Hnext.
  - inversion Hrun; subst. simpl.
    match goal with H : cls_matches _ _ x = true |- _ => rewrite H end.
    erewrite IH; eauto. simpl in Hk. now rewrite <- app_assoc in Hk.
Qed.

(** Lazy repetition stops at the first position where the rest of the
    pattern succeeds. *)
Lemma star_lazy_first c run : forall bef rst gs k m,
  Forall (fun ch => cls_matches fl c ch = true) run ->
  (forall a1 a2, run = a1 ++ a2 -> a2 <> [] ->
                 k (MState (rev a1 ++ bef) (a2 ++ rst) gs) = None) ->
  k (MState (rev run ++ bef) rst gs) = Some m ->
  star_lazy fl c bef (run ++ rst) gs k = Some m.
Proof.
  induction run as [|x run IH]; intros bef rst gs k m Hrun Hfail Hk.
  - simpl in *. destruct rst; simpl; now rewrite Hk.
  - inversion Hrun; subst. simpl.
    pose proof (Hfail [] (x :: run) eq_refl ltac:(discriminate)) as H0.
    simpl in H0. rewrite H0.
    match goal with H : cls_matches _ _ x = true |- _ => rewrite H end.
    apply IH; [assumption | | ].
    + intros a1 a2 E Hne. specialize (Hfail (x :: a1) a2).
      simpl in Hfail. rewrite <- app_assoc in Hfail. simpl in Hfail.
      apply Hfail; [now rewrite E | assumption].
    + simpl in Hk. now rewrite <- app_assoc in Hk.
Qed.

(** [re.search] passes over the positions where the pattern fails. *)
Lemma search_from_skip r pre : forall bef rst,
  (forall p1 p2, pre = p1 ++ p2 -> p2 <> [] ->
                 match_at fl r (rev p1 ++ bef) (p2 ++ rst) = None) ->
  search_from fl r bef (pre ++ rst)
  = search_from fl r (rev pre ++ bef) rst.
Proof.
  induction pre as [|x pre IH]; intros bef rst Hfail; [reflexivity|].
  simpl.
  pose proof (Hfail [] (x :: pre) eq_refl ltac:(discriminate)) as H0.
  simpl in H0. rewrite H0.
  rewrite IH.
  - now rewrite <- app_assoc.
  - intros p1 p2 E Hne. specialize (Hfail (x :: p1) p2).
    simpl in Hfail. rewrite <- app_assoc in Hfail. simpl in Hfail.
    apply Hfail; [now rewrite E | assumption].
Qed.

Lemma search_from_here r bef rst m :
  match_at fl r bef rst = Some m -> search_from fl r bef rst = Some m.
Proof. intros H. destruct rst; simpl; now rewrite H. Qed.

End Matcher.

End ReFacts.

(* ================================================================== *)
(** ** Facts about the secondary bridge *)

Module MbridgeFacts.

Import PyStr Re Spec Mbridge PyStrFacts ReFacts.

(** The fence pattern ends with three backticks at the end of the text:
    it matches no text that ends with a semicolon. *)
Lemma fence_no_match z : match_ fence_flags fence_re (z ++ lit ";") = None.
Proof.
  destruct (match_ fence_flags fence_re (z ++ lit ";")) as [m|] eqn:E;
    [exfalso | reflexivity].
  unfold match_, match_at, fence_re in E.
  change (seq [Bol; word "```"; Opt (word "sql"); Star CSpace;
               Group 1 (StarLazy CAny); Star CSpace; word "```"; Eol])
    with (seq ([Bol; word "```"; Opt (word "sql"); Star CSpace;
                Group 1 (StarLazy CAny); Star CSpace]
               ++ [word "```"; Eol])) in E.
  apply rmatch_seq_split in E as [st [Hsub E]].
  rewrite rmatch_seq_cons in E. unfold word in E.
  apply rmatch_chars in E as [l' [rst' [Er [Hw E]]]].
  unfold subject in Hsub. rewrite Er in Hsub. simpl in Hsub.
  inversion Hw as [|a1 c1 la1 lc1 H1 Hw1]; subst.
  inversion Hw1 as [|a2 c2 la2 lc2 H2 Hw2]; subst.
  inversion Hw2 as [|a3 c3 la3 lc3 H3 Hw3]; subst.
  inversion Hw3; subst.
  simpl in E. unfold at_eol in E. simpl in E.
  destruct rst' as [|n [|n2 rst']].
  - change ([c1; c2; c3] ++ []) with ([c1; c2] ++ [c3]) in Hsub.
    rewrite app_assoc in Hsub. apply app_inj_tail in Hsub as [_ ->].
    vm_compute in H3. discriminate.
  - change ([c1; c2; c3] ++ [n]) with ([c1; c2; c3] ++ [n]) in Hsub.
    rewrite app_assoc in Hsub. apply app_inj_tail in Hsub as [_ ->].
    vm_compute in E. discriminate.
  - rewrite andb_false_r in E. discriminate.
Qed.

Lemma semicolon_not_space : isspace ";"%char = false.
Proof. reflexivity. Qed.

(** The shape of a cleaned text: a body that [rstrip(";")] cannot
    shorten and that does not start with whitespace, then one
    semicolon. *)
Lemma clean_body x :
  exists body,
    _clean x = body ++ lit ";"
    /\ no_trail is_semicolon body
    /\ no_lead isspace body.
Proof.
  exists (rstrip_semicolons (strip (_strip_fences x))).
  split; [reflexivity|]. split.
  - apply rstrip_with_no_trail.
  - apply rstrip_with_keeps_lead, strip_no_lead.
Qed.

(** A text of that shape is left as it is. *)
Lemma clean_fixed body :
  no_trail is_semicolon body -> no_lead isspace body ->
  _clean (body ++ lit ";") = body ++ lit ";".
Proof.
  intros Ht Hl.
  assert (Hs : strip (body ++ lit ";") = body ++ lit ";").
  { apply strip_fixed.
    - apply no_lead_app; [assumption | exact semicolon_not_space].
    - apply no_trail_app; [discriminate|].
      apply no_trail_single, semicolon_not_space. }
  unfold _clean, _strip_fences.
  rewrite Hs, fence_no_match, Hs, Hs.
  unfold rstrip_semicolons. change (lit ";") with [";"%char].
  rewrite rstrip_with_snoc_in by reflexivity.
  now rewrite rstrip_with_fixed.
Qed.

End MbridgeFacts.

(* ================================================================== *)
(** ** Facts about the code-block extraction *)

Module BridgeFacts.

Import PyStr Re Spec Main PyStrFacts ReFacts.

#[local] Arguments cls_matches : simpl never.

Lemma backtick_only c :
  cls_matches sql_block_flags (CChr backtick) c = true -> c = backtick.
Proof.
  destruct c as [[] [] [] [] [] [] [] []]; vm_compute; intros H;
    first [reflexivity | discriminate].
Qed.

Lemma lower_char_idem c : lower_char (lower_char c) = lower_char c.
Proof. destruct c as [[] [] [] [] [] [] [] []]; reflexivity. Qed.

Lemma matches_lowered fl l' :
  IGNORECASE fl = true -> matches_word fl (lower l') l'.
Proof.
  intros Hi. induction l' as [|c l' IH]; constructor; [|exact IH].
  unfold cls_matches. rewrite Hi, lower_char_idem. apply Ascii.eqb_refl.
Qed.

Lemma consumed_app bef rst gs run rst' gs' :
  consumed (MState bef rst gs) (MState (rev run ++ bef) rst' gs') = run.
Proof.
  unfold consumed. simpl. rewrite length_app, Nat.add_sub.
  rewrite firstn_app, firstn_all, Nat.sub_diag. simpl.
  rewrite app_nil_r. apply rev_involutive.
Qed.

Lemma fence_after_lstrip s rst :
  match lstrip s ++ lit "```" ++ rst with
  | [] => True
  | ch :: _ => cls_matches sql_block_flags CSpace ch = false
  end.
Proof.
  pose proof (lstrip_with_no_lead isspace s) as H.
  fold (lstrip s) in H. destruct (lstrip s); simpl; [reflexivity | exact H].
Qed.

Lemma matches_self fl l : matches_word fl l l.
Proof.
  induction l as [|c l IH]; constructor; [|exact IH].
  unfold cls_matches. destruct (IGNORECASE fl); apply Ascii.eqb_refl.
Qed.

Lemma block_closes fl bef body rst gs :
  (forall c, cls_matches fl (CChr backtick) c = true -> c = backtick) ->
  DOTALL fl = true ->
  no_backtick body ->
  rmatch fl (seq [Group 1 (StarLazy CDot); word "```"])
    (MState bef (body ++ lit "```" ++ rst) gs) Some
  = Some (MState (rev (lit "```") ++ rev body ++ bef) rst ((1, body) :: gs)).
Proof.
  intros Hbt Hdot Hbody.
  rewrite rmatch_seq_cons. cbn [rmatch before rest groups].
  apply star_lazy_first.
  - apply Forall_forall. intros c _. unfold cls_matches. now rewrite Hdot.
  - intros a1 a2 E Hne. cbn [before rest groups].
    rewrite rmatch_seq_cons. unfold word.
    change (lit "```") with (backtick :: lit "``").
    apply rmatch_chars_fail. cbn [rest].
    destruct a2 as [|c a2]; [congruence|]. simpl.
    destruct (cls_matches fl (CChr backtick) c) eqn:Ec; [|reflexivity].
    apply Hbt in Ec. subst c. unfold no_backtick in Hbody. rewrite E in Hbody.
    apply Forall_app in Hbody as [_ Hbody]. inversion Hbody; congruence.
  - cbn [before rest groups]. rewrite rmatch_seq_cons. unfold word.
    erewrite rmatch_chars_ok with (l' := lit "```") (rst' := rst).
    + cbn [rmatch seq fold_right before rest groups].
      rewrite consumed_app. reflexivity.
    + reflexivity.
    + apply matches_self.
Qed.

Lemma no_backtick_app a b : no_backtick (a ++ b) <-> no_backtick a /\ no_backtick b.
Proof. apply Forall_app. Qed.

Lemma sql_block_found pre fence body post :
  no_backtick pre -> lower fence = lit "```sql" -> no_backtick body ->
  exists m,
    search sql_block_flags sql_block_re
      (pre ++ fence ++ body ++ lit "```" ++ post) = Some m
    /\ group1 m = lstrip body.
Proof.
  intros Hpre Hfence Hbody.
  destruct (lstrip_with_split isspace body) as [run [Eb Hrun]].
  fold (lstrip body) in Eb.
  assert (Hrest : no_backtick (lstrip body)).
  { rewrite Eb in Hbody. now apply no_backtick_app in Hbody. }
  eexists. split.
  - unfold search. rewrite search_from_skip.
    + apply search_from_here. unfold match_at, sql_block_re.
      rewrite rmatch_seq_cons. unfold word. rewrite <- Hfence.
      erewrite rmatch_chars_ok with (l' := fence);
        [| reflexivity | now apply matches_lowered].
      cbn [before rest groups].
      rewrite rmatch_seq_cons. cbn [rmatch before rest groups].
      replace (body ++ lit "```" ++ post)
        with (run ++ lstrip body ++ lit "```" ++ post)
        by (rewrite app_assoc, <- Eb; reflexivity).
      apply star_greedy_run.
      * exact Hrun.
      * apply block_closes;
          [exact backtick_only | reflexivity | exact Hrest].
      * apply fence_after_lstrip.
    + intros p1 p2 E Hne. unfold match_at, sql_block_re.
      rewrite rmatch_seq_cons. unfold word.
      change (lit "```sql") with (backtick :: lit "``sql").
      apply rmatch_chars_fail. cbn [rest].
      destruct p2 as [|c p2]; [congruence|]. simpl.
      destruct (cls_matches sql_block_flags (CChr backtick) c) eqn:Ec;
        [|reflexivity].
      apply backtick_only in Ec. subst c. rewrite E in Hpre.
      apply no_backtick_app in Hpre as [_ Hpre]. inversion Hpre; congruence.
  - reflexivity.
Qed.


End BridgeFacts.

(* ================================================================== *)
(** ** The properties of the specification *)

Import PyStr Re Main Qlog Mbridge Spec.
Import PyStrFacts GateFacts AskFacts ReFacts MbridgeFacts BridgeFacts.

Unset Implicit Arguments.

(** *** The Safety Gate stands before the Executor *)

(** C1, as the specification states it, fails: the Gate accepts a
    statement on another table, and the endpoint then hands it to the
    Executor. *)
Lemma gate_accepts_other_table :
  let sql := lit "SELECT * FROM users" in
  validate_read_only_sql_pure sql = inr true
  /\ referenced_tables sql = [lit "users"]
  /\ ~ single_select_on_permitted_table sql
  /\ In (ExecutorCalled sql)
        (fst (handle_ask [] Scenario.the_world Scenario.free_request)).
Proof.
  cbv zeta. split; [vm_compute; reflexivity|].
  split; [vm_compute; reflexivity|]. split.
  - intros [_ [_ H]]. specialize (H (lit "users")).
    assert (E : lit "users" = lit "forex_bars")
      by (apply H; vm_compute; now left).
    vm_compute in E. discriminate.
  - vm_compute. right. right. now left.
Qed.

(** C1 (amended): in every run of [/ask], each call of the Executor
    comes after the Safety Gate accepted the same SQL string, and
    acceptance establishes that the trimmed, lowercased string starts
    with ["select"] and holds no banned keyword between spaces (or
    between a space and an end of the string). *)
Theorem executor_only_after_gate
    (queries_registry : list dict) (w : world) (req : QuestionRequest)
    (pre : list event) (sql : str) (post : list event) :
  fst (handle_ask queries_registry w req)
  = pre ++ ExecutorCalled sql :: post ->
  In (GateAccepted sql) pre
  /\ validate_read_only_sql_pure sql = inr true
  /\ startswith (lit "select") (lower (strip sql)) = true
  /\ (forall kw, In kw banned_keywords ->
                 ~ standalone is_blank kw (lower (strip sql))).
Proof.
  intros E.
  destruct (handle_ask_sound queries_registry w req) as [Hg Ha].
  assert (Hin : In (GateAccepted sql) pre) by (eapply Hg; exact E).
  split; [assumption|].
  assert (Hv : validate_read_only_sql_pure sql = inr true).
  { apply Ha. rewrite E. apply in_or_app. now left. }
  split; [assumption|]. now apply gate_accepts_iff.
Qed.

Lemma executor_only_after_gate_witness :
  let sql := lit "SELECT max(close) FROM forex_bars LIMIT 10;" in
  fst (handle_ask Scenario.registry Scenario.the_world
         Scenario.registry_request)
  = [GateAccepted sql] ++ ExecutorCalled sql :: []
  /\ In (GateAccepted sql) [GateAccepted sql]
  /\ validate_read_only_sql_pure sql = inr true.
Proof.
  cbv zeta. split; [vm_compute; reflexivity|].
  pose proof
    (executor_only_after_gate Scenario.registry Scenario.the_world
       Scenario.registry_request
       [GateAccepted (lit "SELECT max(close) FROM forex_bars LIMIT 10;")]
       (lit "SELECT max(close) FROM forex_bars LIMIT 10;") []
       ltac:(vm_compute; reflexivity)) as [H1 [H2 _]].
  split; assumption.
Defined.

(** *** The row limit *)

(** C2, as the specification states it, fails: a second application
    with the same limit appends a second LIMIT clause. *)
Lemma limit_twice_counterexample :
  add_optional_limit (add_optional_limit (lit "SELECT 1") (Some 5%Z))
    (Some 5%Z)
  = lit "SELECT 1 LIMIT 5 LIMIT 5;"
  /\ add_optional_limit (add_optional_limit (lit "SELECT 1") (Some 5%Z))
       (Some 5%Z)
     <> add_optional_limit (lit "SELECT 1") (Some 5%Z).
Proof. split; vm_compute; [reflexivity | discriminate]. Qed.

Lemma add_optional_limit_positive s n :
  (0 < n)%Z ->
  add_optional_limit s (Some n)
  = rstrip_semicolons (rstrip s) ++ lit " LIMIT " ++ str_of_int n ++ lit ";".
Proof.
  intros Hn. unfold add_optional_limit.
  destruct (Z.eqb_spec n 0); [lia | reflexivity].
Qed.

(** C2 (amended): for every SQL string [s] and positive [n], applying
    the row limit twice gives the statement stripped of its trailing
    whitespace and semicolons followed by two LIMIT clauses and one
    terminator, which differs from applying it once: the second
    application removes the terminator of the first and appends its own
    clause. *)
Theorem add_optional_limit_twice (s : str) (n : Z) :
  (0 < n)%Z ->
  add_optional_limit (add_optional_limit s (Some n)) (Some n)
  = rstrip_semicolons (rstrip s)
    ++ lit " LIMIT " ++ str_of_int n
    ++ lit " LIMIT " ++ str_of_int n ++ lit ";"
  /\ add_optional_limit (add_optional_limit s (Some n)) (Some n)
     <> add_optional_limit s (Some n).
Proof.
  intros Hn.
  assert (E : add_optional_limit (add_optional_limit s (Some n)) (Some n)
              = rstrip_semicolons (rstrip s)
                ++ lit " LIMIT " ++ str_of_int n
                ++ lit " LIMIT " ++ str_of_int n ++ lit ";").
  { rewrite (add_optional_limit_positive _ n Hn).
    rewrite (add_optional_limit_positive s n Hn).
    set (st := rstrip_semicolons (rstrip s)).
    assert (Hclause : no_trail is_semicolon (lit " LIMIT " ++ str_of_int n)).
    { apply Forall_no_trail, Forall_app. split.
      - repeat constructor.
      - apply str_of_int_no_semicolon. }
    replace (st ++ lit " LIMIT " ++ str_of_int n ++ lit ";")
      with ((st ++ lit " LIMIT " ++ str_of_int n) ++ [";"%char])
      by (now rewrite <- !app_assoc).
    unfold rstrip. rewrite rstrip_with_snoc_out by reflexivity.
    unfold rstrip_semicolons at 1.
    rewrite rstrip_with_snoc_in by reflexivity.
    rewrite rstrip_with_fixed
      by (apply no_trail_app; [discriminate | exact Hclause]).
    now rewrite <- !app_assoc. }
  split; [exact E|].
  rewrite E, (add_optional_limit_positive s n Hn). intros H.
  apply (f_equal (@List.length ascii)) in H.
  rewrite !length_app in H. simpl in H. lia.
Qed.

Lemma add_optional_limit_twice_witness :
  (0 < 5)%Z
  /\ add_optional_limit (add_optional_limit (lit "SELECT 1; ") (Some 5%Z))
       (Some 5%Z)
     <> add_optional_limit (lit "SELECT 1; ") (Some 5%Z).
Proof.
  split; [reflexivity|].
  exact (proj2 (add_optional_limit_twice (lit "SELECT 1; ") 5%Z
                  ltac:(reflexivity))).
Defined.

(** C9: a limit of [None] and a limit of [0] both leave the statement
    as it is; no ["LIMIT 0"] clause is appended. *)
Theorem add_optional_limit_none_or_zero (s : str) :
  add_optional_limit s None = s /\ add_optional_limit s (Some 0%Z) = s.
Proof. split; reflexivity. Qed.

(** *** What the Safety Gate rejects and accepts *)

(** C3, as the specification states it, fails: a banned keyword that
    stands as a token of its own next to a semicolon is not seen. *)
Lemma gate_misses_keyword_after_semicolon :
  let sql := lit "SELECT 1;DROP TABLE forex_bars" in
  In (lit "drop") banned_keywords
  /\ standalone is_token_boundary (lit "drop") (lower (strip sql))
  /\ validate_read_only_sql_pure sql = inr true.
Proof.
  cbv zeta. split; [vm_compute; tauto|]. split.
  - apply standaloneb_spec. vm_compute. reflexivity.
  - vm_compute. reflexivity.
Qed.

(** C3 (amended): when a banned keyword, in any case variant, occurs
    in the trimmed statement with a space character (U+0020) or an end
    of the statement on each side, the Gate raises its rejection (status
    400). *)
Theorem gate_rejects_spaced_keyword (sql pre K post : str) :
  strip sql = pre ++ K ++ post ->
  In (lower K) banned_keywords ->
  left_bounded is_blank pre ->
  right_bounded is_blank post ->
  exists detail, validate_read_only_sql_pure sql
                 = inl (HTTPException 400 detail).
Proof.
  intros E HK Hl Hr.
  destruct (validate_read_only_sql_pure sql) as [e | b] eqn:Ev.
  - rewrite gate_unfold in Ev.
    repeat match type of Ev with
           | (if ?c then _ else _) = _ => destruct c
           end; inversion Ev; eauto.
  - exfalso. assert (Hb := gate_result _ Ev). subst b.
    apply gate_accepts_iff in Ev as [_ Hno].
    apply (Hno (lower K) HK).
    exists (lower pre), (lower post). rewrite E, !lower_app.
    split; [reflexivity|].
    split; [now apply left_bounded_lower | now apply right_bounded_lower].
Qed.

Lemma gate_rejects_spaced_keyword_witness :
  let sql := lit "select 1 ; DrOp table forex_bars " in
  strip sql = lit "select 1 ; " ++ lit "DrOp" ++ lit " table forex_bars"
  /\ In (lower (lit "DrOp")) banned_keywords
  /\ exists detail, validate_read_only_sql_pure sql
                    = inl (HTTPException 400 detail).
Proof.
  cbv zeta. split; [vm_compute; reflexivity|].
  split; [vm_compute; tauto|].
  apply (gate_rejects_spaced_keyword
           (lit "select 1 ; DrOp table forex_bars ")
           (lit "select 1 ; ") (lit "DrOp") (lit " table forex_bars")).
  - vm_compute. reflexivity.
  - vm_compute. tauto.
  - right. exists (lit "select 1 ;"), " "%char. split; reflexivity.
  - right. exists " "%char, (lit "table forex_bars"). split; reflexivity.
Defined.

(** C4, as the specification states it, fails: the Gate looks at the
    first six characters, not at the first word. *)
Lemma gate_accepts_longer_first_word :
  let sql := lit "SELECT* FROM forex_bars" in
  validate_read_only_sql_pure sql = inr true
  /\ first_word (lower (strip sql)) = lit "select*"
  /\ first_word (lower (strip sql)) <> lit "select".
Proof.
  cbv zeta. split; [vm_compute; reflexivity|].
  split; [vm_compute; reflexivity|].
  vm_compute. discriminate.
Qed.

(** C4 (amended): every SQL string the Gate accepts has, after trimming
    and lowercasing, a first whitespace-delimited token that begins with
    ["select"]. *)
Theorem gate_accepted_starts_with_select (sql : str) :
  validate_read_only_sql_pure sql = inr true ->
  startswith (lit "select") (first_word (lower (strip sql))) = true.
Proof.
  intros H. apply gate_accepts_iff in H as [H _].
  apply startswith_spec in H as [t E]. rewrite E. reflexivity.
Qed.

Lemma gate_accepted_starts_with_select_witness :
  validate_read_only_sql_pure (lit "  Select close FROM forex_bars") = inr true
  /\ startswith (lit "select")
       (first_word (lower (strip (lit "  Select close FROM forex_bars"))))
     = true.
Proof.
  split; [vm_compute; reflexivity|].
  apply (gate_accepted_starts_with_select
           (lit "  Select close FROM forex_bars")).
  vm_compute. reflexivity.
Defined.

(** C5: a statement that starts with ["select"] (trimmed, lowercased)
    and in which no banned keyword occurs with whitespace or an end of
    the statement on both sides is accepted. *)
Theorem gate_accepts_embedded_keywords (sql : str) :
  startswith (lit "select") (lower (strip sql)) = true ->
  (forall kw, In kw banned_keywords ->
              ~ standalone isspace kw (lower (strip sql))) ->
  validate_read_only_sql_pure sql = inr true.
Proof.
  intros Hs Hno. apply gate_accepts_iff. split; [assumption|].
  intros kw Hkw Hst. apply (Hno kw Hkw).
  exact (standalone_mono _ blank_is_space Hst).
Qed.

Lemma gate_accepts_embedded_keywords_witness :
  let sql := lit "SELECT updated_at, do_call FROM forex_bars" in
  startswith (lit "select") (lower (strip sql)) = true
  /\ forallb (fun kw => negb (standaloneb isspace kw (lower (strip sql))))
       banned_keywords = true
  /\ validate_read_only_sql_pure sql = inr true.
Proof.
  cbv zeta. split; [vm_compute; reflexivity|].
  split; [vm_compute; reflexivity|].
  apply (gate_accepts_embedded_keywords
           (lit "SELECT updated_at, do_call FROM forex_bars")).
  - vm_compute. reflexivity.
  - intros kw Hkw Hst. apply standaloneb_spec in Hst.
    assert (Hall : forallb
              (fun kw => negb (standaloneb isspace kw
                 (lower (strip
                    (lit "SELECT updated_at, do_call FROM forex_bars")))))
              banned_keywords = true) by (vm_compute; reflexivity).
    rewrite forallb_forall in Hall. specialize (Hall kw Hkw).
    rewrite Hst in Hall. discriminate.
Defined.

(** *** The secondary bridge *)

Lemma rstrip_with_run p a run :
  Forall (fun c => p c = true) run ->
  rstrip_with p (a ++ run) = rstrip_with p a.
Proof.
  induction run as [|c run IH] using rev_ind; intros H.
  - now rewrite app_nil_r.
  - apply Forall_app in H as [Hrun Hc]. inversion Hc; subst.
    rewrite app_assoc, rstrip_with_snoc_in by assumption. now apply IH.
Qed.

Lemma bad_sql_spec sql : bad_sql sql = true <-> fails_sanity sql.
Proof.
  unfold bad_sql, fails_sanity, mentions. cbn [existsb].
  rewrite orb_false_r, !orb_true_iff, !negb_true_iff, !str_eqb_eq.
  rewrite <- !contains_spec.
  destruct sql as [|c sql]; cbn [truthy]; split; intros H.
  - now left.
  - now left; left; left.
  - destruct H as [[[H | [H | [H | H]]] | H] | H];
      [discriminate | | | | |].
    + right; left. congruence.
    + right; right; left. congruence.
    + right; right; right; left. congruence.
    + right; right; right; right; left. now rewrite H.
    + right; right; right; right; right. now rewrite H.
  - destruct H as [H | [H | [H | [H | [H | H]]]]]; [discriminate | | | | |].
    + left; left; right; left. congruence.
    + left; left; right; right; left. congruence.
    + left; left; right; right; right. congruence.
    + left; right. now destruct (contains _ _).
    + right. now destruct (contains _ _).
Qed.

Lemma py_or_some s : py_or (Some s) (Some []) = Some s.
Proof. now destruct s. Qed.

(** A write that the disk takes adds the line of the record. *)
Lemma append_unanswered_written d now q text f :
  d f (match f with
       | None => writerow header ++ writerow [now; q; text]
       | Some _ => writerow [now; q; text]
       end) = Written ->
  exists f',
    append_unanswered d now q (Some text) f = (f', inr tt)
    /\ gains_record f f' [now; q; text].
Proof.
  intros H. unfold append_unanswered. rewrite py_or_some, H.
  eexists. split; [reflexivity|]. unfold gains_record.
  destruct f; [reflexivity | now rewrite app_nil_l].
Qed.

(** What [append_unanswered] raises, a write raised. *)
Lemma append_unanswered_raised d now q failed f f' e :
  append_unanswered d now q failed f = (f', inl e) -> raised_by_write d e.
Proof.
  unfold append_unanswered, raised_by_write.
  match goal with |- context [d f ?t] => destruct (d f t) eqn:E end;
    intros H; inversion H; subst. eauto.
Qed.

(** What [ask_qwen] raises, a write raised. *)
Lemma ask_qwen_raised d posted now retry q f e :
  snd (ask_qwen d posted now retry q f) = inl e -> raised_by_write d e.
Proof.
  unfold ask_qwen.
  destruct (post_and_clean posted) as [e0 | sql].
  - destruct (append_unanswered d now q _ f) as [f1 [e1 | []]] eqn:E1;
      simpl; intros H; inversion H; subst.
    eapply append_unanswered_raised; eassumption.
  - destruct (bad_sql sql); [|discriminate].
    destruct (append_unanswered d now q _ f) as [f1 [e1 | []]] eqn:E1;
      [|discriminate].
    destruct (append_unanswered d retry q _ f1) as [f2 [e2 | []]] eqn:E2;
      simpl; intros H; inversion H; subst.
    eapply append_unanswered_raised; eassumption.
Qed.

(** The claim as it is worded fails: a question whose completion cannot
    be fetched, on a disk that refuses the write to the log.  The
    handler of [ask_qwen] calls [append_unanswered], and what that call
    raises reaches the caller. *)
Lemma ask_qwen_raises_when_log_write_raises :
  let denied :=
    PyException
      (lit "[Errno 13] Permission denied: 'unanswered_queries.csv'") in
  let d : disk := fun _ _ => WriteRaised denied None in
  ask_qwen d (inl (PyException (lit "Read timed out.")))
    (lit "2025-01-01T00:00:00") (lit "2025-01-01T00:00:01")
    (lit "How volatile was EURUSD?") None
  = (None, inl denied).
Proof. reflexivity. Qed.

(** C6 (amended): [ask_qwen] raises only what a write to the log
    raised.  On a disk that takes the writes it returns for every
    question, whatever [_post] does: when the call or the parsing
    raises, or when the cleaned SQL fails the sanity checks, it returns
    the empty string and the log file gains one line, the record of the
    time, the question and the error text or the failed SQL (after the
    header line when the file did not exist); otherwise it returns the
    cleaned SQL and leaves the log file as it was. *)
Theorem ask_qwen_raises_only_log_failures
    (d : disk) (posted : exn + pyval) (now retry question : str)
    (f : logfile) :
  (forall e, snd (ask_qwen d posted now retry question f) = inl e ->
             raised_by_write d e)
  /\ (takes_all d ->
      exists result f',
        ask_qwen d posted now retry question f = (f', inr result)
        /\ (forall e, post_and_clean posted = inl e ->
              result = empty
              /\ gains_record f f'
                   [now; question; lit "ERROR: " ++ str_of_exn e])
        /\ (forall sql,
              post_and_clean posted = inr sql -> fails_sanity sql ->
              result = empty /\ gains_record f f' [now; question; sql])
        /\ (forall sql,
              post_and_clean posted = inr sql -> ~ fails_sanity sql ->
              result = sql /\ f' = f)).
Proof.
  split; [intros e; apply ask_qwen_raised|].
  intros Hd. unfold ask_qwen.
  change (@Some (list ascii)) with (@Some str).
  destruct (post_and_clean posted) as [e | sql] eqn:Ep; cbv beta zeta.
  - destruct (append_unanswered_written d now question
                (lit "ERROR: " ++ str_of_exn e) f (Hd _ _))
      as [f' [E Hg]].
    exists empty, f'. rewrite E. split; [reflexivity|].
    split; [|split]; [|discriminate|discriminate].
    intros e' Ee. inversion Ee; subst. now split.
  - destruct (bad_sql sql) eqn:Eb.
    + rewrite py_or_some.
      destruct (append_unanswered_written d now question sql f (Hd _ _))
        as [f' [E Hg]].
      exists empty, f'. rewrite E. split; [reflexivity|].
      split; [discriminate|]. split; intros sql' Es Hs;
        inversion Es; subst.
      * now split.
      * exfalso. apply Hs. now apply bad_sql_spec.
    + exists sql, f. split; [reflexivity|].
      split; [discriminate|]. split; intros sql' Es Hs;
        inversion Es; subst.
      * apply bad_sql_spec in Hs. congruence.
      * now split.
Qed.

Lemma ask_qwen_raises_only_log_failures_witness :
  let now := lit "2025-01-01T00:00:00" in
  let q := lit "How volatile was EURUSD?" in
  let d : disk := fun _ _ => Written in
  takes_all d
  /\ ask_qwen d (inl (PyException (lit "Read timed out."))) now now q None
     = (Some (lit "timestamp,question,failed_sql" ++ [CR; LF]
              ++ now ++ lit "," ++ q ++ lit ",ERROR: Read timed out."
              ++ [CR; LF]),
        inr empty)
  /\ ask_qwen d (inr (VStr (lit "I cannot answer, sorry."))) now now q
       (Some (lit "old"))
     = (Some (lit "old" ++ now ++ lit "," ++ q ++ lit ","
              ++ [quotechar] ++ lit "I cannot answer, sorry.;"
              ++ [quotechar] ++ [CR; LF]),
        inr empty)
  /\ ask_qwen d (inr (VStr (lit "```sql
SELECT close FROM forex_bars;;
```"))) now now q None
     = (None, inr (lit "SELECT close FROM forex_bars;")).
Proof.
  cbv zeta.
  assert (Hd : takes_all (fun _ _ => Written)) by (intros f t; reflexivity).
  split; [exact Hd|]. split; [|split].
  - destruct (proj2 (ask_qwen_raises_only_log_failures (fun _ _ => Written)
                (inl (PyException (lit "Read timed out.")))
                (lit "2025-01-01T00:00:00") (lit "2025-01-01T00:00:00")
                (lit "How volatile was EURUSD?") None) Hd)
      as [r [f' [E [H _]]]].
    destruct (H _ eq_refl) as [-> ->]. exact E.
  - destruct (proj2 (ask_qwen_raises_only_log_failures (fun _ _ => Written)
                (inr (VStr (lit "I cannot answer, sorry.")))
                (lit "2025-01-01T00:00:00") (lit "2025-01-01T00:00:00")
                (lit "How volatile was EURUSD?") (Some (lit "old"))) Hd)
      as [r [f' [E [_ [H _]]]]].
    destruct (H (lit "I cannot answer, sorry.;")) as [-> ->].
    + vm_compute. reflexivity.
    + apply bad_sql_spec. vm_compute. reflexivity.
    + exact E.
  - destruct (proj2 (ask_qwen_raises_only_log_failures (fun _ _ => Written)
                (inr (VStr (lit "```sql
SELECT close FROM forex_bars;;
```")))
                (lit "2025-01-01T00:00:00") (lit "2025-01-01T00:00:00")
                (lit "How volatile was EURUSD?") None) Hd)
      as [r [f' [E [_ [_ H]]]]].
    destruct (H (lit "SELECT close FROM forex_bars;")) as [-> ->].
    + vm_compute. reflexivity.
    + intros Hs. apply bad_sql_spec in Hs. vm_compute in Hs. discriminate.
    + exact E.
Defined.

(** The claim as it is worded fails: trailing semicolons with white
    space between them are not collapsed into one terminator.  [_clean]
    trims the text first and then removes only the run of semicolons
    that ends it. *)
Lemma clean_keeps_spaced_semicolons :
  _clean (lit "SELECT 1; ;") = lit "SELECT 1; ;"
  /\ _clean (lit "SELECT 1 ; ; ;  ") = lit "SELECT 1 ; ; ;"
  /\ _clean (lit "SELECT 1; ;") <> lit "SELECT 1;".
Proof.
  split; [vm_compute; reflexivity|].
  split; [vm_compute; reflexivity | vm_compute; discriminate].
Qed.

(** C10 (amended): [_clean] (the same function in [mbridge.py] and in
    [mbridg1.py]) returns a string that ends in a semicolon with no
    semicolon directly before it; applied to its own result it changes
    nothing; and a run of trailing semicolons followed by trailing
    whitespace is replaced by one semicolon.  Semicolons that white
    space separates from that run are kept. *)
Theorem clean_one_semicolon_idempotent (x : str) :
  ends_in_one_semicolon (_clean x)
  /\ _clean (_clean x) = _clean x
  /\ (forall body k ws,
        x = body ++ repeat ";"%char (S k) ++ ws ->
        no_lead isspace body -> no_trail is_semicolon body ->
        Forall (fun c => isspace c = true) ws ->
        _clean x = body ++ lit ";").
Proof.
  destruct (clean_body x) as [body [E [Ht Hl]]]. split; [|split].
  - exists body. split; assumption.
  - rewrite E. now apply clean_fixed.
  - clear body E Ht Hl. intros body k ws -> Hl Ht Hws.
    assert (Hsemi : Forall (fun c => is_semicolon c = true)
                      (repeat ";"%char (S k)))
      by (apply Forall_forall; intros c Hc;
          apply repeat_spec in Hc; now subst).
    assert (Hstrip : strip (body ++ repeat ";"%char (S k) ++ ws)
                     = (body ++ repeat ";"%char k) ++ lit ";").
    { unfold strip, lstrip, rstrip. rewrite lstrip_with_fixed.
      - rewrite app_assoc, rstrip_with_run by assumption.
        replace (body ++ repeat ";"%char (S k))
          with ((body ++ repeat ";"%char k) ++ [";"%char]).
        + now apply rstrip_with_snoc_out.
        + rewrite <- app_assoc. f_equal.
          change [";"%char] with (repeat ";"%char 1).
          rewrite <- repeat_app. f_equal. lia.
      - apply no_lead_app; [assumption | reflexivity]. }
    unfold _clean, _strip_fences.
    rewrite Hstrip, fence_no_match.
    rewrite <- Hstrip, !strip_idem, Hstrip.
    unfold rstrip_semicolons. change (lit ";") with [";"%char].
    rewrite rstrip_with_snoc_in by reflexivity.
    rewrite rstrip_with_run
      by (apply Forall_forall; intros c Hc;
          apply repeat_spec in Hc; now subst).
    now rewrite rstrip_with_fixed.
Qed.

Lemma clean_one_semicolon_idempotent_witness :
  let x := lit "SELECT 1 ;;;
 " in
  x = lit "SELECT 1 " ++ repeat ";"%char 3 ++ lit "
 "
  /\ _clean x = lit "SELECT 1 ;".
Proof.
  cbv zeta. split; [reflexivity|].
  apply (proj2 (proj2 (clean_one_semicolon_idempotent (lit "SELECT 1 ;;;
 "))) (lit "SELECT 1 ") 2 (lit "
 ")).
  - reflexivity.
  - reflexivity.
  - intros a c E.
    assert (Hc : last (lit "SELECT 1 ") c = c)
      by (rewrite E; apply last_last).
    vm_compute in Hc. subst c. reflexivity.
  - repeat constructor.
Defined.

(** *** The code-block extraction of the Bridge *)

Lemma search_from_sound fl r rst : forall bef m,
  search_from fl r bef rst = Some m ->
  exists bef' rst',
    rev bef' ++ rst' = rev bef ++ rst /\ match_at fl r bef' rst' = Some m.
Proof.
  induction rst as [|c rst IH]; intros bef m H; simpl in H.
  - destruct (match_at fl r bef []) eqn:E; [|discriminate].
    inversion H; subst. eauto.
  - destruct (match_at fl r bef (c :: rst)) eqn:E.
    + inversion H; subst. eauto.
    + apply IH in H as [bef' [rst' [Es Hm]]].
      exists bef', rst'. split; [|assumption].
      rewrite Es. simpl. now rewrite <- app_assoc.
Qed.

Lemma backtick_only_plain c :
  cls_matches any_block_flags (CChr backtick) c = true -> c = backtick.
Proof.
  unfold cls_matches. cbn [IGNORECASE any_block_flags]. intros H.
  apply Ascii.eqb_eq in H. now subst.
Qed.

Module ExtractFacts.

#[local] Arguments cls_matches : simpl never.

(** A text that a literal word matches whatever the case has the
    lower-case form of the word. *)
Lemma matches_word_lower fl l : forall l',
  matches_word fl l l' -> lower l' = lower l.
Proof.
  induction l as [|a l IH]; intros l' H; inversion H; subst;
    [reflexivity|].
  simpl. f_equal; [|now apply IH].
  match goal with H : cls_matches _ _ _ = true |- _ =>
    unfold cls_matches in H; destruct (IGNORECASE fl);
    apply Ascii.eqb_eq in H end; congruence.
Qed.

Lemma sql_fence_ahead_app p s :
  sql_fence_ahead s = true -> sql_fence_ahead (p ++ s) = true.
Proof.
  intros H. induction p as [|c p IH]; [assumption|].
  simpl app. cbn [sql_fence_ahead]. rewrite IH. apply orb_true_r.
Qed.

(** Where the first pattern matches, the completion holds a fence
    tagged [sql], in some spelling. *)
Lemma no_sql_fence_no_sql_block content :
  sql_fence_ahead content = false ->
  search sql_block_flags sql_block_re content = None.
Proof.
  intros Hno.
  destruct (search sql_block_flags sql_block_re content) as [m|] eqn:E;
    [|reflexivity].
  unfold search in E. apply search_from_sound in E as [bef [rst [Es E]]].
  unfold match_at, sql_block_re in E. rewrite rmatch_seq_cons in E.
  apply rmatch_chars in E as [l' [rst' [Er [Hw _]]]]. simpl in Er, Es.
  assert (Hc : sql_fence_ahead content = true); [|congruence].
  rewrite <- Es. apply sql_fence_ahead_app. rewrite Er.
  pose proof (matches_word_lower _ _ _ Hw) as Hl.
  inversion Hw as [|a1 c1 ? ? H1 Hw1]; subst.
  inversion Hw1 as [|a2 c2 ? ? H2 Hw2]; subst.
  inversion Hw2 as [|a3 c3 ? ? H3 Hw3]; subst.
  inversion Hw3 as [|a4 c4 ? ? H4 Hw4]; subst.
  inversion Hw4 as [|a5 c5 ? ? H5 Hw5]; subst.
  inversion Hw5 as [|a6 c6 ? ? H6 Hw6]; subst.
  inversion Hw6; subst.
  apply backtick_only in H1, H2, H3. subst.
  simpl in Hl. inversion Hl as [[Hs Hq Hll]].
  cbn [app sql_fence_ahead startswith lit]. 
  simpl. rewrite Hq, Hll. reflexivity.
Qed.

(** The fallback pattern on a fenced block: the run of word characters
    after the opening backticks is taken as the tag. *)
Lemma any_block_found pre tag body post :
  no_backtick pre ->
  Forall (fun c => cls_matches any_block_flags CWord c = true) tag ->
  no_lead (cls_matches any_block_flags CWord) (body ++ lit "```") ->
  no_backtick body ->
  exists m,
    search any_block_flags any_block_re
      (pre ++ lit "```" ++ tag ++ body ++ lit "```" ++ post) = Some m
    /\ group1 m = lstrip body.
Proof.
  intros Hpre Htag Hlead Hbody.
  destruct (lstrip_with_split isspace body) as [run [Eb Hrun]].
  fold (lstrip body) in Eb.
  assert (Hrest : no_backtick (lstrip body)).
  { rewrite Eb in Hbody. now apply no_backtick_app in Hbody. }
  assert (Hnext : match body ++ lit "```" ++ post with
                  | [] => True
                  | ch :: _ => cls_matches any_block_flags CWord ch = false
                  end).
  { destruct body; exact Hlead. }
  assert (Hk : forall bef,
             rmatch any_block_flags
               (seq [Star CSpace; Group 1 (StarLazy CDot); word "```"])
               (MState bef (body ++ lit "```" ++ post) []) Some
             = Some (MState (rev (lit "```") ++ rev (lstrip body)
                               ++ rev run ++ bef)
                            post [(1, lstrip body)])).
  { intros bef. rewrite rmatch_seq_cons. cbn [rmatch before rest groups].
    replace (body ++ lit "```" ++ post)
      with (run ++ lstrip body ++ lit "```" ++ post)
      by (rewrite app_assoc, <- Eb; reflexivity).
    apply star_greedy_run.
    - exact Hrun.
    - apply block_closes;
        [exact backtick_only_plain | reflexivity | exact Hrest].
    - pose proof (lstrip_with_no_lead isspace body) as H.
      fold (lstrip body) in H.
      destruct (lstrip body); simpl; [reflexivity | exact H]. }
  assert (Hat : forall bef, exists m,
             match_at any_block_flags any_block_re bef
               (lit "```" ++ tag ++ body ++ lit "```" ++ post) = Some m
             /\ group1 m = lstrip body).
  { intros bef. unfold match_at, any_block_re.
    rewrite rmatch_seq_cons. unfold word.
    erewrite rmatch_chars_ok with (l' := lit "```");
      [| reflexivity | apply matches_self].
    cbn [before rest groups].
    rewrite rmatch_seq_cons.
    change (rmatch any_block_flags (Opt (Plus CWord)) ?st ?k)
      with (match rmatch any_block_flags (Plus CWord) st k with
            | Some m => Some m
            | None => k st
            end).
    destruct tag as [|x tag].
    - cbn [app rmatch]. unfold one. cbn [rest before groups].
      destruct (body ++ lit "```" ++ post) as [|ch t] eqn:Et;
        [destruct body; discriminate|].
      rewrite Hnext.
      eexists. split; [apply Hk | reflexivity].
    - inversion Htag; subst. cbn [app rmatch]. unfold one.
      cbn [rest before groups].
      match goal with H : cls_matches _ _ x = true |- _ => rewrite H end.
      cbn [rest before groups].
      erewrite star_greedy_run;
        [| eassumption | apply Hk | exact Hnext].
      eexists. split; reflexivity. }
  destruct (Hat (rev pre ++ [])) as [m [Hm Hg]].
  exists m. split; [|exact Hg].
  unfold search. rewrite search_from_skip.
  - now apply search_from_here.
  - intros p1 p2 E Hne. unfold match_at, any_block_re.
    rewrite rmatch_seq_cons. unfold word.
    change (lit "```") with (backtick :: lit "``").
    apply rmatch_chars_fail. cbn [rest].
    destruct p2 as [|c p2]; [congruence|]. simpl.
    destruct (cls_matches any_block_flags (CChr backtick) c) eqn:Ec;
      [|reflexivity].
    apply backtick_only_plain in Ec. subst c. rewrite E in Hpre.
    apply no_backtick_app in Hpre as [_ Hpre]. inversion Hpre; congruence.
Qed.

End ExtractFacts.

Import ExtractFacts.

(** The claim as it is worded fails: in a completion without a fence
    tagged [sql], the word that directly follows the opening backticks
    is taken as the tag of the block and is not part of the statement
    returned. *)
Lemma extract_takes_first_word_as_tag :
  extract_sql_code (lit "```SELECT close FROM forex_bars; SELECT 2```")
  = inr (lit "close FROM forex_bars")
  /\ strip (before_semicolon (lit "SELECT close FROM forex_bars; SELECT 2"))
     = lit "SELECT close FROM forex_bars".
Proof. split; vm_compute; reflexivity. Qed.

(** C7 (amended): the extraction gives ["SELECT 1"] on the response of
    the specification.  In general the result is the trimmed text
    before the first semicolon of the text captured from the block.
    After a fence tagged [sql], in any letter case, the text captured
    is everything from the tag to the next three backticks.  In a
    completion that holds no such fence (nowhere three backticks
    followed by a character and the letters [ql]), it is what lies
    between the first three backticks and the next, less the run of
    word characters that directly follows the opening backticks. *)
Theorem extract_first_statement :
  extract_sql_code (lit "prose
```sql
SELECT 1;
```
more prose") = inr (lit "SELECT 1")
  /\ (forall pre fence a b post,
        no_backtick pre -> lower fence = lit "```sql" ->
        no_backtick a -> no_semicolon a -> no_backtick b ->
        extract_sql_code
          (pre ++ fence ++ (a ++ lit ";" ++ b) ++ lit "```" ++ post)
        = inr (strip a))
  /\ (forall pre tag a b post,
        no_backtick pre ->
        Forall (fun c => cls_matches any_block_flags CWord c = true) tag ->
        no_lead (cls_matches any_block_flags CWord) a ->
        no_backtick a -> no_semicolon a -> no_backtick b ->
        sql_fence_ahead
          (pre ++ lit "```" ++ tag ++ (a ++ lit ";" ++ b)
           ++ lit "```" ++ post) = false ->
        extract_sql_code
          (pre ++ lit "```" ++ tag ++ (a ++ lit ";" ++ b)
           ++ lit "```" ++ post)
        = inr (strip a))
  /\ (forall w question text,
        lmstudio w (strip question)
        = PostResponse 200 text (inr (lit "prose
```sql
SELECT 1;
```
more prose")) ->
        exists interp src,
          ask_lmstudio_generate_pure w question
          = inr (lit "SELECT 1", interp, src)).
Proof.
  assert (Hblock : forall a b,
            no_backtick a -> no_backtick b ->
            no_backtick (a ++ lit ";" ++ b)).
  { intros a b Ha Hb. apply no_backtick_app. split; [assumption|].
    apply no_backtick_app. split; [|assumption].
    repeat constructor. discriminate. }
  split; [vm_compute; reflexivity|]. split; [|split].
  3: { intros w question text E. do 2 eexists.
       unfold ask_lmstudio_generate_pure. rewrite E.
       vm_compute. reflexivity. }
  - intros pre fence a b post Hpre Hfence Ha Hsa Hb.
    destruct (@sql_block_found pre fence (a ++ lit ";" ++ b) post)
      as [m [Hm Hg]]; try assumption; [now apply Hblock|].
    unfold extract_sql_code, find_sql_block. rewrite Hm, Hg.
    rewrite strip_lstrip. f_equal. now apply first_statement.
  - intros pre tag a b post Hpre Htag Hlead Ha Hsa Hb Hno.
    destruct (any_block_found pre tag (a ++ lit ";" ++ b) post)
      as [m [Hm Hg]]; try assumption; [|now apply Hblock|].
    { destruct a; [reflexivity | exact Hlead]. }
    unfold extract_sql_code, find_sql_block.
    rewrite (no_sql_fence_no_sql_block _ Hno), Hm, Hg.
    rewrite strip_lstrip. f_equal. now apply first_statement.
Qed.

Lemma extract_first_statement_witness :
  let content := lit "Here you go:
```SQL
SELECT close FROM forex_bars ; SELECT 2;
```
Interpretation: closes" in
  content
  = lit "Here you go:
" ++ lit "```SQL"
    ++ (lit "
SELECT close FROM forex_bars " ++ lit ";" ++ lit " SELECT 2;
") ++ lit "```" ++ lit "
Interpretation: closes"
  /\ extract_sql_code content = inr (lit "SELECT close FROM forex_bars")
  /\ extract_sql_code (lit "```postgres
SELECT 1; SELECT 2```") = inr (lit "SELECT 1").
Proof.
  cbv zeta. split; [reflexivity|]. split.
  - apply (proj1 (proj2 extract_first_statement)
             (lit "Here you go:
") (lit "```SQL") (lit "
SELECT close FROM forex_bars ") (lit " SELECT 2;
") (lit "
Interpretation: closes")).
    + all_chars.
    + reflexivity.
    + all_chars.
    + all_chars.
    + all_chars.
  - apply (proj1 (proj2 (proj2 extract_first_statement))
             [] (lit "postgres") (lit "
SELECT 1") (lit " SELECT 2") []).
    + constructor.
    + repeat (constructor; [reflexivity|]); constructor.
    + reflexivity.
    + all_chars.
    + all_chars.
    + all_chars.
    + vm_compute. reflexivity.
Defined.

(** *** The row conversion of the Executor *)

Lemma json_friendly_value_converted v :
  converted v (json_friendly_value v)
  /\ transport_safe (json_friendly_value v).
Proof.
  destruct v; simpl; (split; [constructor; reflexivity|]);
    unfold transport_safe; simpl; eauto.
Qed.

(** C8: the conversion keeps the number of rows, and in each row the
    number and the order of the values; an [int], a [float] or [None]
    stays as it is and any other value becomes its [str]; every cell of
    the result is a number, [None] or a string; and these converted
    rows are what [run_sql] returns, next to the column names. *)
Theorem json_friendly_rows_preserve (fetched : list (list pyval)) :
  List.length (_json_friendly_rows fetched) = List.length fetched
  /\ map (@List.length pyval) (_json_friendly_rows fetched)
     = map (@List.length pyval) fetched
  /\ Forall2 (Forall2 converted) fetched (_json_friendly_rows fetched)
  /\ Forall (Forall transport_safe) (_json_friendly_rows fetched)
  /\ (forall w sql cols,
        database w sql = DbResult cols fetched ->
        run_sql_pure w sql
        = inr (QueryResult cols (_json_friendly_rows fetched))).
Proof.
  unfold _json_friendly_rows. split; [apply length_map|]. split; [|split; [|split]].
  - rewrite map_map. apply map_ext. intros r. apply length_map.
  - induction fetched as [|r rows IH]; constructor; [|exact IH].
    induction r as [|v r IHr]; constructor; [|exact IHr].
    apply json_friendly_value_converted.
  - apply Forall_forall. intros r' Hr'.
    apply in_map_iff in Hr' as [r [<- _]].
    apply Forall_forall. intros v' Hv'.
    apply in_map_iff in Hv' as [v [<- _]].
    apply json_friendly_value_converted.
  - intros w sql cols E. unfold run_sql_pure. now rewrite E.
Qed.

Lemma json_friendly_rows_preserve_witness :
  let fetched :=
    [[VInt 7; VFloat 4608533498688228557%Z; VNone; VBool true;
      VStr (lit "EURUSD");
      VObj (lit "datetime") (lit "2024-01-02 00:00:00+00:00")]] in
  database Scenario.the_world (lit "SELECT 1")
  = DbResult [lit "max"] [[VFloat 4608533498688228557%Z]]
  /\ run_sql_pure Scenario.the_world (lit "SELECT 1")
     = inr (QueryResult [lit "max"] [[VFloat 4608533498688228557%Z]])
  /\ _json_friendly_rows fetched
     = [[VInt 7; VFloat 4608533498688228557%Z; VNone; VBool true;
         VStr (lit "EURUSD"); VStr (lit "2024-01-02 00:00:00+00:00")]].
Proof.
  cbv zeta. split; [reflexivity|]. split; [|reflexivity].
  apply (proj2 (proj2 (proj2 (proj2
           (json_friendly_rows_preserve
              [[VFloat 4608533498688228557%Z]]))))
           Scenario.the_world (lit "SELECT 1") [lit "max"]).
  reflexivity.
Defined.

(* ================================================================== *)
(** ** Further properties of the endpoint *)

Module AskOutcomeFacts.

Import PyStr Main Spec Outcome PyStrFacts GateFacts.

Lemma gate_error sql e :
  validate_read_only_sql_pure sql = inl e ->
  exists d, e = HTTPException 400 d.
Proof.
  rewrite gate_unfold.
  repeat match goal with |- context [if ?c then _ else _] =>
    destruct c end; intros H; inversion H; eauto.
Qed.

Lemma run_sql_error w sql e :
  run_sql_pure w sql = inl e ->
  exists d, e = HTTPException 500 (lit "Database error: " ++ d).
Proof.
  unfold run_sql_pure. destruct (database w sql); intros H; inversion H.
  eexists. reflexivity.
Qed.

Lemma bridge_error w q e :
  ask_lmstudio_generate_pure w q = inl e -> exists d, e = HTTPException 500 d.
Proof.
  unfold ask_lmstudio_generate_pure, lmstudio_content, extract_sql_code.
  destruct (lmstudio w (strip q)) as [e0 | code text [e0 | c]].
  - intros H. inversion H. eauto.
  - destruct (negb (code =? 200)%Z); intros H; inversion H; eauto.
  - destruct (negb (code =? 200)%Z); [intros H; inversion H; eauto|].
    destruct (find_sql_block (strip c)); intros H; inversion H. eauto.
Qed.

(** Validate, execute, answer: the common tail of the three paths. *)
Lemma validate_run_outcome w pre sql (build : query_result -> response) :
  before_gate pre ->
  (forall r, r_columns (build r) = columns r /\ r_rows (build r) = rows r) ->
  (forall r, tagged pre sql (build r)) ->
  let '(tr, res) :=
    (validate_read_only_sql sql ;;;
     (result <- run_sql w sql ;; ret (build result))) pre in
  ask_outcome w tr res.
Proof.
  intros Hpre Hb Ht. unfold validate_read_only_sql.
  destruct (validate_read_only_sql_pure sql) as [e | b] eqn:Ev;
    unfold bind, emit, raise, ret, run_sql, lift; simpl.
  - destruct (gate_error _ _ Ev) as [d ->]. now apply rejected.
  - assert (Hb' := gate_result _ Ev). subst b.
    rewrite <- app_assoc. simpl.
    destruct (run_sql_pure w sql) as [e | r] eqn:Er.
    + destruct (run_sql_error _ _ _ Er) as [d ->].
      now apply database_failed.
    + apply answered; try assumption; [|apply Ht].
      destruct (Hb r) as [-> ->]. now destruct r.
Qed.

Lemma fallback_outcome w req q_in :
  let '(tr, res) := lmstudio_fallback w req q_in [] in
  ask_outcome w tr res.
Proof.
  unfold lmstudio_fallback, ask_lmstudio_generate.
  unfold bind at 1. unfold bind at 1. unfold emit, lift. simpl.
  destruct (ask_lmstudio_generate_pure w q_in) as [e | [[sql_gen interp] src]]
    eqn:Eg.
  - destruct (bridge_error _ _ _ Eg) as [d ->]. now apply bridge_failed.
  - apply validate_run_outcome.
    + constructor.
    + intros r. split; reflexivity.
    + intros r. now apply tag_fallback with (q := q_in).
Qed.

Lemma match_outcome w req q_in nlq entry :
  let '(tr, res) := registry_match w req q_in nlq entry [] in
  ask_outcome w tr res.
Proof.
  unfold registry_match. destruct (truthy _).
  - apply validate_run_outcome.
    + constructor.
    + intros r. split; reflexivity.
    + intros r. now apply tag_registry.
  - unfold ask_lmstudio_generate.
    unfold bind at 1. unfold bind at 1. unfold emit, lift. simpl.
    destruct (ask_lmstudio_generate_pure w q_in)
      as [e | [[sql_gen interp] src]] eqn:Eg.
    + destruct (bridge_error _ _ _ Eg) as [d ->]. now apply bridge_failed.
    + apply validate_run_outcome.
      * constructor.
      * intros r. split; reflexivity.
      * intros r. now apply tag_missing_sql with (q := q_in).
Qed.

Lemma loop_outcome w req q_in entries :
  let '(tr, res) := registry_loop w req q_in entries [] in
  ask_outcome w tr res.
Proof.
  induction entries as [|entry more IH]; simpl.
  - apply fallback_outcome.
  - destruct (dict_get entry _ _) as [q|]; [|apply null_question].
    destruct (str_eqb _ _); [apply match_outcome | exact IH].
Qed.

Lemma handle_ask_outcome queries_registry w req :
  ask_outcome w (fst (handle_ask queries_registry w req))
                (snd (handle_ask queries_registry w req)).
Proof.
  unfold handle_ask, ask_query.
  pose proof (loop_outcome w req (strip (question req)) queries_registry)
    as H.
  now destruct (registry_loop w req (strip (question req))
                  queries_registry []).
Qed.

End AskOutcomeFacts.

(* ================================================================== *)
(** ** Further properties, beyond the specification's list *)

Import Outcome AskOutcomeFacts.

(** *** The endpoint *)

(** X1: every call of [ask_query] on a parsed request ends in one of
    five ways.  It raises an [AttributeError] before any call (a
    registry entry whose question is null); it raises the 500 of the
    bridge, with nothing validated or executed; it raises the 400 of the
    Safety Gate, with nothing executed; it raises the 500 of the
    Executor, after the Gate accepted the statement; or it returns an
    answer whose columns and rows are the Executor's result for the one
    accepted statement and whose source tag names the path taken.  So a
    call asks the bridge at most once and executes at most one
    statement.  What the framework does before the call, with a body
    that does not parse, and after it, when it renders the answer, is
    not part of [ask_query]. *)
Theorem ask_ends_in_one_of_five_ways
    (queries_registry : list dict) (w : world) (req : QuestionRequest) :
  ask_outcome w (fst (handle_ask queries_registry w req))
                (snd (handle_ask queries_registry w req)).
Proof.
  unfold handle_ask, ask_query.
  pose proof (loop_outcome w req (strip (question req)) queries_registry)
    as H.
  now destruct (registry_loop w req (strip (question req))
                  queries_registry []).
Qed.

(** X2: a statement the Safety Gate rejects is never executed, and the
    request ends with the Gate's 400. *)
Theorem rejected_statement_never_executed
    (queries_registry : list dict) (w : world) (req : QuestionRequest)
    (sql : str) :
  In (GateRejected sql) (fst (handle_ask queries_registry w req)) ->
  (exists d, snd (handle_ask queries_registry w req)
             = inl (HTTPException 400 d))
  /\ forall s, ~ In (ExecutorCalled s)
                 (fst (handle_ask queries_registry w req)).
Proof.
  intros Hin.
  pose proof (handle_ask_outcome queries_registry w req) as H.
  destruct (handle_ask queries_registry w req) as [tr res]. simpl in *.
  inversion H as [m E1 E2 | q d Hb E1 E2 | pre s d Hpre Hv E1 E2
                  | pre s d Hpre Hv Hr E1 E2
                  | pre s resp Hpre Hv Hr Ht E1 E2]; subst; simpl in Hin.
  - contradiction.
  - destruct Hin as [Hin | []]. discriminate.
  - split; [eauto|]. intros s' Hs'.
    apply in_app_or in Hs' as [Hs' | [Hs' | []]]; [|discriminate].
    inversion Hpre; subst; simpl in Hs'; [contradiction|].
    destruct Hs' as [Hs' | []]. discriminate.
  - exfalso. apply in_app_or in Hin as [Hin | [Hin | [Hin | []]]];
      try discriminate.
    inversion Hpre; subst; simpl in Hin; [contradiction|].
    destruct Hin as [Hin | []]. discriminate.
  - exfalso. apply in_app_or in Hin as [Hin | [Hin | [Hin | []]]];
      try discriminate.
    inversion Hpre; subst; simpl in Hin; [contradiction|].
    destruct Hin as [Hin | []]. discriminate.
Qed.

Lemma rejected_statement_never_executed_witness :
  let req := Request (lit "Who are the users?") (Some 3%Z) None in
  let w := World (fun _ => PostResponse 200 []
                             (inr (lit "```sql
DELETE FROM forex_bars
```")))
                 (fun _ => DbRaised (PyException [])) in
  fst (handle_ask [] w req)
  = [BridgeCalled (lit "Who are the users?");
     GateRejected (lit "DELETE FROM forex_bars LIMIT 3;")]
  /\ exists d, snd (handle_ask [] w req) = inl (HTTPException 400 d).
Proof.
  cbv zeta. split; [vm_compute; reflexivity|].
  refine (proj1 (rejected_statement_never_executed [] _ _
                   (lit "DELETE FROM forex_bars LIMIT 3;") _)).
  vm_compute. right. now left.
Defined.

Lemma bind_bridge {A : Type} w q (k : str * str * pyopt -> M A) :
  (gen <- ask_lmstudio_generate w q ;; k gen) []
  = match ask_lmstudio_generate_pure w q with
    | inl e => ([BridgeCalled q], inl e)
    | inr gen => k gen [BridgeCalled q]
    end.
Proof.
  unfold ask_lmstudio_generate, bind, emit, lift. simpl.
  now destruct (ask_lmstudio_generate_pure w q).
Qed.

Lemma validate_run_answer w pre sql (build : query_result -> response) resp :
  snd ((validate_read_only_sql sql ;;;
        (result <- run_sql w sql ;; ret (build result))) pre) = inr resp ->
  (exists r, resp = build r)
  /\ fst ((validate_read_only_sql sql ;;;
           (result <- run_sql w sql ;; ret (build result))) pre)
     = pre ++ [GateAccepted sql; ExecutorCalled sql].
Proof.
  unfold validate_read_only_sql.
  destruct (validate_read_only_sql_pure sql) as [e | b];
    unfold bind, emit, raise, ret, run_sql, lift; simpl;
    [discriminate|].
  destruct (run_sql_pure w sql) as [e | r]; simpl; [discriminate|].
  intros H. inversion H. split; [eauto|]. now rewrite <- app_assoc.
Qed.

Lemma validate_run_extends w pre sql (build : query_result -> response) :
  exists tr,
    fst ((validate_read_only_sql sql ;;;
          (result <- run_sql w sql ;; ret (build result))) pre)
    = pre ++ tr.
Proof.
  unfold validate_read_only_sql.
  destruct (validate_read_only_sql_pure sql) as [e | b];
    unfold bind, emit, raise, ret, run_sql, lift; simpl; [eauto|].
  destruct (run_sql_pure w sql) as [e | r]; simpl;
    rewrite <- app_assoc; eauto.
Qed.

Lemma registry_loop_cons w req q_in entry more :
  registry_loop w req q_in (entry :: more)
  = match entry_key entry with
    | None =>
        raise (PyException
                 (lit "'NoneType' object has no attribute 'strip'"))
    | Some nlq =>
        if str_eqb (lower q_in) (lower nlq)
        then registry_match w req q_in nlq entry
        else registry_loop w req q_in more
    end.
Proof.
  unfold entry_key. cbn [registry_loop].
  now destruct (dict_get entry (lit "natural_language_question") (Some [])).
Qed.

Lemma registry_loop_skip w req q_in before rest :
  Forall (other_key q_in) before ->
  registry_loop w req q_in (before ++ rest) = registry_loop w req q_in rest.
Proof.
  induction 1 as [|entry before [nlq [Hk Hne]] _ IH]; [reflexivity|].
  rewrite <- app_comm_cons, registry_loop_cons, Hk.
  destruct (str_eqb (lower q_in) (lower nlq)) eqn:E; [|exact IH].
  apply str_eqb_eq in E. contradiction.
Qed.

Lemma registry_loop_match w req q_in entry nlq after :
  entry_key entry = Some nlq -> lower q_in = lower nlq ->
  registry_loop w req q_in (entry :: after)
  = registry_match w req q_in nlq entry.
Proof.
  intros Hk He. rewrite registry_loop_cons, Hk.
  destruct (str_eqb (lower q_in) (lower nlq)) eqn:E; [reflexivity|].
  apply str_eqb_eq in He. congruence.
Qed.

(** X3: the first registry entry whose question equals the request's
    question, letter case and surrounding whitespace aside, answers the
    request when it carries SQL: that SQL, trimmed and with the optional
    limit, is validated and executed without any call of the bridge, and
    the answer is tagged ["registry"] with the entry's own question,
    interpretation and source.  Entries after it are not looked at. *)
Theorem registry_hit_runs_registry_sql
    (before : list dict) (entry : dict) (after : list dict)
    (w : world) (req : QuestionRequest) (nlq : str)
    (cols : list str) (fetched : list (list pyval)) :
  let q_in := strip (question req) in
  let sql := add_optional_limit (entry_sql entry) (limit req) in
  Forall (other_key q_in) before ->
  entry_key entry = Some nlq ->
  lower q_in = lower nlq ->
  entry_sql entry <> [] ->
  validate_read_only_sql_pure sql = inr true ->
  database w sql = DbResult cols fetched ->
  handle_ask (before ++ entry :: after) w req
  = ([GateAccepted sql; ExecutorCalled sql],
     inr (Response (lit "registry") nlq None cols
            (_json_friendly_rows fetched)
            (dict_get entry (lit "business_interpretation")
               (Some (lit "No interpretation available.")))
            (dict_get entry (lit "source_url") None))).
Proof.
  intros q_in sql Hbefore Hk He Hsql Hv Hdb.
  unfold handle_ask, ask_query. fold q_in.
  rewrite registry_loop_skip by assumption.
  rewrite (registry_loop_match w req q_in entry nlq after Hk He).
  unfold registry_match. fold (entry_sql entry).
  assert (Ht : truthy (entry_sql entry) = true)
    by (destruct (entry_sql entry); [congruence | reflexivity]).
  rewrite Ht. subst sql.
  unfold validate_read_only_sql. rewrite Hv.
  unfold bind, emit, ret, run_sql, lift, run_sql_pure. simpl.
  rewrite Hdb. reflexivity.
Qed.

Lemma registry_hit_runs_registry_sql_witness :
  fst (handle_ask
         ([[(lit "natural_language_question", Some (lit "Other question"))]]
          ++ hd [] Scenario.registry :: Scenario.registry)
         Scenario.the_world Scenario.registry_request)
  = [GateAccepted (lit "SELECT max(close) FROM forex_bars LIMIT 10;");
     ExecutorCalled (lit "SELECT max(close) FROM forex_bars LIMIT 10;")].
Proof.
  assert (H1 : Forall (other_key (strip (question Scenario.registry_request)))
                 [[(lit "natural_language_question",
                    Some (lit "Other question"))]]).
  { constructor; [|constructor].
    exists (lit "Other question"). split; [reflexivity|].
    vm_compute. discriminate. }
  assert (H4 : entry_sql (hd [] Scenario.registry) <> [])
    by (vm_compute; discriminate).
  exact (f_equal fst
           (registry_hit_runs_registry_sql
              [[(lit "natural_language_question",
                 Some (lit "Other question"))]]
              (hd [] Scenario.registry) Scenario.registry
              Scenario.the_world Scenario.registry_request
              (lit "What is the max close?")
              [lit "max"] [[VFloat 4608533498688228557%Z]]
              H1 eq_refl eq_refl H4 eq_refl eq_refl)).
Defined.

(** X4: when the first matching entry carries no SQL (missing, null,
    empty or blank), the bridge is asked with the trimmed question, and
    an answer is tagged
    ["registry_match_missing_sql_lmstudio_fallback"], carries the entry's
    question and the generated SQL as executed, and keeps the entry's
    interpretation and source whenever the entry has non-empty ones. *)
Theorem registry_hit_without_sql_asks_bridge
    (before : list dict) (entry : dict) (after : list dict)
    (w : world) (req : QuestionRequest) (nlq : str) :
  let q_in := strip (question req) in
  Forall (other_key q_in) before ->
  entry_key entry = Some nlq ->
  lower q_in = lower nlq ->
  entry_sql entry = [] ->
  (exists tr, fst (handle_ask (before ++ entry :: after) w req)
              = BridgeCalled q_in :: tr)
  /\ forall resp,
       snd (handle_ask (before ++ entry :: after) w req) = inr resp ->
       source resp = lit "registry_match_missing_sql_lmstudio_fallback"
       /\ r_question resp = nlq
       /\ (exists sql, sql_generated resp = Some sql
             /\ In (ExecutorCalled sql)
                  (fst (handle_ask (before ++ entry :: after) w req)))
       /\ (forall i, dict_get entry (lit "business_interpretation") None
                     = Some i -> i <> [] -> interpretation resp = Some i)
       /\ (forall u, dict_get entry (lit "source_url") None = Some u ->
                     u <> [] -> source_url resp = Some u).
Proof.
  intros q_in Hbefore Hk He Hsql.
  unfold handle_ask, ask_query. fold q_in.
  rewrite registry_loop_skip by assumption.
  rewrite (registry_loop_match w req q_in entry nlq after Hk He).
  unfold registry_match. fold (entry_sql entry). rewrite Hsql.
  cbn [truthy]. rewrite bind_bridge.
  destruct (ask_lmstudio_generate_pure w q_in)
    as [e | [[sql_gen interp] src]].
  - split; [eexists; reflexivity|]. intros resp H. discriminate.
  - split.
    + destruct (validate_run_extends w [BridgeCalled q_in]
                  (add_optional_limit sql_gen (limit req))
                  (fun result =>
                     Response
                       (lit "registry_match_missing_sql_lmstudio_fallback")
                       nlq (Some (add_optional_limit sql_gen (limit req)))
                       (columns result) (rows result)
                       (py_or (dict_get entry
                                 (lit "business_interpretation") None)
                          (py_or (Some interp)
                             (Some (lit "No interpretation available."))))
                       (py_or (dict_get entry (lit "source_url") None) src)))
        as [tr Htr].
      exists tr. exact Htr.
    + intros resp H. apply validate_run_answer in H as [[r ->] Htr].
      rewrite Htr. simpl.
      split; [reflexivity|]. split; [reflexivity|]. split; [|split].
      * eexists. split; [reflexivity|]. right. right. now left.
      * intros i Hi Hne. rewrite Hi. destruct i; [congruence|reflexivity].
      * intros u Hu Hne. rewrite Hu. destruct u; [congruence|reflexivity].
Qed.

Lemma registry_hit_without_sql_asks_bridge_witness :
  let registry :=
    [[(lit "natural_language_question", Some (lit "Who are the users?"));
      (lit "sql_query", Some (lit "   "));
      (lit "business_interpretation", Some (lit "From the registry."))]] in
  exists tr,
    fst (handle_ask ([] ++ hd [] registry :: [])
           Scenario.the_world Scenario.free_request)
    = BridgeCalled (lit "Who are the users?") :: tr.
Proof.
  cbv zeta.
  refine (proj1 (registry_hit_without_sql_asks_bridge [] _ []
                   Scenario.the_world Scenario.free_request
                   (lit "Who are the users?") _ _ _ _)).
  - constructor.
  - reflexivity.
  - reflexivity.
  - reflexivity.
Defined.

(** X5: when no registry entry has the request's question, the bridge
    is asked with the trimmed question, and an answer is tagged
    ["lmstudio_fallback"], carries that question and the generated SQL
    as executed. *)
Theorem no_registry_match_asks_bridge
    (queries_registry : list dict) (w : world) (req : QuestionRequest) :
  let q_in := strip (question req) in
  Forall (other_key q_in) queries_registry ->
  (exists tr, fst (handle_ask queries_registry w req)
              = BridgeCalled q_in :: tr)
  /\ forall resp,
       snd (handle_ask queries_registry w req) = inr resp ->
       source resp = lit "lmstudio_fallback"
       /\ r_question resp = q_in
       /\ exists sql, sql_generated resp = Some sql
            /\ In (ExecutorCalled sql)
                 (fst (handle_ask queries_registry w req)).
Proof.
  intros q_in Hall.
  unfold handle_ask, ask_query. fold q_in.
  rewrite <- (app_nil_r queries_registry).
  rewrite registry_loop_skip by assumption. cbn [registry_loop].
  unfold lmstudio_fallback. rewrite bind_bridge.
  destruct (ask_lmstudio_generate_pure w q_in)
    as [e | [[sql_gen interp] src]].
  - split; [eexists; reflexivity|]. intros resp H. discriminate.
  - split.
    + destruct (validate_run_extends w [BridgeCalled q_in]
                  (add_optional_limit sql_gen (limit req))
                  (fun result =>
                     Response (lit "lmstudio_fallback") q_in
                       (Some (add_optional_limit sql_gen (limit req)))
                       (columns result) (rows result)
                       (py_or (Some interp)
                          (Some (lit "No interpretation available.")))
                       src))
        as [tr Htr].
      exists tr. exact Htr.
    + intros resp H. apply validate_run_answer in H as [[r ->] Htr].
      rewrite Htr. simpl.
      split; [reflexivity|]. split; [reflexivity|].
      eexists. split; [reflexivity|]. right. right. now left.
Qed.

Lemma no_registry_match_asks_bridge_witness :
  exists tr,
    fst (handle_ask Scenario.registry Scenario.the_world
           Scenario.free_request)
    = BridgeCalled (lit "Who are the users?") :: tr.
Proof.
  refine (proj1 (no_registry_match_asks_bridge Scenario.registry
                   Scenario.the_world Scenario.free_request _)).
  constructor; [|constructor].
  exists (lit "What is the max close?"). split; [reflexivity|].
  vm_compute. discriminate.
Defined.

(** *** The bridge of [main.py] *)

Lemma rstrip_with_split p s :
  exists run, s = rstrip_with p s ++ run
              /\ Forall (fun c => p c = true) run.
Proof.
  induction s as [|c s [run [E H]]] using rev_ind.
  - exists []. split; [reflexivity | constructor].
  - destruct (p c) eqn:Hc.
    + rewrite rstrip_with_snoc_in by assumption.
      exists (run ++ [c]). split.
      * rewrite app_assoc. now rewrite <- E.
      * apply Forall_app. split; [assumption | now repeat constructor].
    + rewrite rstrip_with_snoc_out by assumption.
      exists []. split; [now rewrite app_nil_r | constructor].
Qed.

Lemma strip_split s :
  exists lead trail,
    s = lead ++ strip s ++ trail
    /\ Forall (fun c => isspace c = true) lead
    /\ Forall (fun c => isspace c = true) trail.
Proof.
  destruct (lstrip_with_split isspace s) as [lead [El Hl]].
  destruct (rstrip_with_split isspace (lstrip s)) as [trail [Et Ht]].
  exists lead, trail. split; [|split; assumption].
  unfold strip, rstrip. fold (lstrip s) in El.
  now rewrite <- Et.
Qed.

Lemma contains_strip needle s :
  contains needle (strip s) = true -> contains needle s = true.
Proof.
  rewrite !contains_spec. intros [pre [post E]].
  destruct (strip_split s) as [lead [trail [Es _]]].
  exists (lead ++ pre), (post ++ trail).
  rewrite Es at 1. rewrite E. now rewrite <- !app_assoc.
Qed.

(** A pattern that begins with three backticks only matches where the
    text has them. *)
Lemma fence_match_has_backticks fl l rs bef rst m :
  (forall c, cls_matches fl (CChr backtick) c = true -> c = backtick) ->
  match_at fl (seq (chars (lit "```" ++ l) :: rs)) bef rst = Some m ->
  exists rst', rst = lit "```" ++ rst'.
Proof.
  intros Hbt H. unfold match_at in H. rewrite rmatch_seq_cons in H.
  apply rmatch_chars in H as [l' [rst' [Er [Hw _]]]]. simpl in Er.
  inversion Hw as [|a1 c1 la1 lc1 H1 Hw1]; subst.
  inversion Hw1 as [|a2 c2 la2 lc2 H2 Hw2]; subst.
  inversion Hw2 as [|a3 c3 la3 lc3 H3 Hw3]; subst.
  apply Hbt in H1, H2, H3. subst. eexists. simpl. reflexivity.
Qed.

Lemma no_fence_no_block content :
  contains (lit "```") content = false -> find_sql_block content = None.
Proof.
  intros Hno. unfold find_sql_block, search.
  assert (Hgen : forall fl l rs,
            (forall c, cls_matches fl (CChr backtick) c = true ->
                       c = backtick) ->
            search_from fl (seq (chars (lit "```" ++ l) :: rs)) [] content
            = None).
  { intros fl l rs Hbt.
    destruct (search_from fl _ [] content) as [m|] eqn:E; [|reflexivity].
    apply search_from_sound in E as [bef' [rst' [Es Hm]]].
    apply fence_match_has_backticks in Hm as [rst'' ->]; [|assumption].
    assert (contains (lit "```") content = true); [|congruence].
    apply contains_spec. exists (rev bef'), rst''. simpl in Es.
    now rewrite <- Es. }
  change sql_block_re
    with (seq [chars (lit "```" ++ lit "sql"); Star CSpace;
               Group 1 (StarLazy CDot); word "```"]).
  rewrite (Hgen _ _ _ backtick_only).
  change any_block_re
    with (seq [chars (lit "```" ++ []); Opt (Plus CWord); Star CSpace;
               Group 1 (StarLazy CDot); word "```"]).
  now rewrite (Hgen _ _ _ backtick_only_plain).
Qed.

(** X6: a completion with no triple backtick is a parse failure: the
    bridge raises its 500 "Could not parse SQL code block" instead of
    returning an empty statement. *)
Theorem completion_without_fence_is_parse_failure
    (w : world) (question text raw : str) :
  lmstudio w (strip question) = PostResponse 200 text (inr raw) ->
  contains (lit "```") raw = false ->
  ask_lmstudio_generate_pure w question
  = inl (HTTPException 500
           (lit "Could not parse SQL code block from LM Studio response.")).
Proof.
  intros Hpost Hno. unfold ask_lmstudio_generate_pure. rewrite Hpost.
  unfold lmstudio_content. simpl negb. cbv iota.
  unfold extract_sql_code. rewrite no_fence_no_block; [reflexivity|].
  destruct (contains (lit "```") (strip raw)) eqn:E; [|reflexivity].
  apply contains_strip in E. congruence.
Qed.

Lemma completion_without_fence_is_parse_failure_witness :
  let w := World (fun _ => PostResponse 200 []
                             (inr (lit "SELECT max(close) FROM forex_bars;")))
                 (fun _ => DbRaised (PyException [])) in
  ask_lmstudio_generate_pure w (lit "What is the max close?")
  = inl (HTTPException 500
           (lit "Could not parse SQL code block from LM Studio response.")).
Proof.
  cbv zeta.
  apply (completion_without_fence_is_parse_failure _
           (lit "What is the max close?") []
           (lit "SELECT max(close) FROM forex_bars;")).
  - reflexivity.
  - vm_compute. reflexivity.
Defined.

(** *** The row limit and the Safety Gate *)

Lemma lstrip_with_run p run a :
  Forall (fun c => p c = true) run ->
  lstrip_with p (run ++ a) = lstrip_with p a.
Proof.
  induction 1 as [|c run Hc _ IH]; [reflexivity|]. simpl. now rewrite Hc.
Qed.

Lemma lstrip_with_app_keep p a b :
  lstrip_with p a <> [] -> lstrip_with p (a ++ b) = lstrip_with p a ++ b.
Proof.
  induction a as [|c a IH]; simpl; [congruence|].
  destruct (p c); [exact IH | reflexivity].
Qed.

Lemma lstrip_with_all p a :
  lstrip_with p a = [] -> Forall (fun c => p c = true) a.
Proof.
  induction a as [|c a IH]; simpl; [constructor|].
  destruct (p c) eqn:Hc; [|discriminate]. intros H. constructor; auto.
Qed.

Lemma strip_commutes s : strip s = lstrip (rstrip s).
Proof.
  destruct (strip_split s) as [lead [trail [E [Hl Ht]]]].
  rewrite E at 2. unfold rstrip, lstrip.
  rewrite app_assoc, rstrip_with_run by assumption.
  destruct (strip s) as [|c t] eqn:Es.
  - rewrite app_nil_r.
    rewrite <- (app_nil_l lead), rstrip_with_run by assumption.
    reflexivity.
  - rewrite <- Es. rewrite rstrip_with_fixed.
    + rewrite lstrip_with_run by assumption.
      apply eq_sym, lstrip_with_fixed, strip_no_lead.
    + apply no_trail_app; [rewrite Es; discriminate | apply strip_no_trail].
Qed.

Lemma startswith_before p a c t :
  ~ In c p -> startswith p (a ++ c :: t) = true -> startswith p a = true.
Proof.
  revert a. induction p as [|x p IH]; intros a Hc H; [reflexivity|].
  destruct a as [|y a]; simpl in *.
  - apply andb_true_iff in H as [H _]. apply Ascii.eqb_eq in H.
    subst. exfalso. apply Hc. now left.
  - apply andb_true_iff in H as [H1 H2]. rewrite H1. simpl.
    apply IH; [|assumption]. intros Hin. apply Hc. now right.
Qed.

Lemma startswith_app p a b :
  startswith p a = true -> startswith p (a ++ b) = true.
Proof.
  rewrite !startswith_spec. intros [t ->]. exists (t ++ b).
  now rewrite app_assoc.
Qed.

Lemma banned_keywords_plain :
  Forall (fun kw => kw <> [] /\ Forall (fun c => is_semicolon c = false) kw)
         banned_keywords.
Proof.
  repeat (constructor; [split; [discriminate | all_chars]|]). constructor.
Qed.

(** A clause that starts with a blank, put in the place of a run of
    semicolons, keeps every keyword that stood alone. *)
Lemma standalone_survives kw a semis clause :
  kw <> [] -> Forall (fun c => is_semicolon c = false) kw ->
  Forall (fun c => is_semicolon c = true) semis ->
  right_bounded is_blank clause -> clause <> [] ->
  standalone is_blank kw (a ++ semis) ->
  standalone is_blank kw (a ++ clause).
Proof.
  intros Hne Hkw Hsemis Hclause Hcne [pre [post [E [Hl Hr]]]].
  rewrite app_assoc in E. symmetry in E.
  apply app_eq_app in E as [l [[E1 E2] | [E1 E2]]].
  - destruct (list_eq_dec ascii_dec l []) as [-> | Hl0].
    + rewrite app_nil_r in E1. subst a. exists pre, clause.
      split; [now rewrite <- app_assoc|]. split; assumption.
    + exfalso.
      destruct (exists_last Hl0) as [l' [c ->]].
      destruct (exists_last Hne) as [kw' [k ->]].
      rewrite !app_assoc in E1. apply app_inj_tail in E1 as [_ <-].
      apply Forall_app in Hkw as [_ Hk].
      rewrite E2 in Hsemis. apply Forall_app in Hsemis as [Hs _].
      apply Forall_app in Hs as [_ Hs].
      inversion Hk as [|? ? Hk1 _]. inversion Hs as [|? ? Hs1 _].
      congruence.
  - subst a. destruct l as [|c l].
    + exists pre, clause. split; [now rewrite <- !app_assoc|].
      split; assumption.
    + exists pre, ((c :: l) ++ clause).
      split; [now rewrite <- !app_assoc|]. split; [assumption|].
      right. exists c, (l ++ clause). split; [reflexivity|].
      destruct Hr as [Hr | [c' [t [Hr Hc']]]]; [subst; discriminate|].
      rewrite E2 in Hr. inversion Hr; subst. assumption.
Qed.

Lemma lower_semicolons semis :
  Forall (fun c => is_semicolon c = true) semis ->
  Forall (fun c => is_semicolon c = true) (lower semis).
Proof.
  induction 1 as [|c semis Hc _ IH]; constructor; [|exact IH].
  apply Ascii.eqb_eq in Hc. now subst.
Qed.

(** X7: the row limit never turns a statement the Safety Gate rejects
    into one it accepts: when the statement with its limit is accepted,
    the statement itself is. *)
Theorem limit_never_unlocks_gate (sql : str) (limit : option Z) :
  validate_read_only_sql_pure (add_optional_limit sql limit) = inr true ->
  validate_read_only_sql_pure sql = inr true.
Proof.
  destruct limit as [n|]; [|trivial]. unfold add_optional_limit.
  destruct (n =? 0)%Z; [trivial|].
  set (X := rstrip_semicolons (rstrip sql)).
  set (T := lit " LIMIT " ++ str_of_int n ++ lit ";").
  intros H. apply gate_accepts_iff in H as [Hs Hno]. apply gate_accepts_iff.
  assert (Hr : rstrip (X ++ T) = X ++ T).
  { unfold T. replace (X ++ lit " LIMIT " ++ str_of_int n ++ lit ";")
      with ((X ++ lit " LIMIT " ++ str_of_int n) ++ [";"%char])
      by (now rewrite <- !app_assoc).
    now apply rstrip_with_snoc_out. }
  rewrite strip_commutes, Hr in Hs, Hno.
  destruct (lstrip X) as [|c0 A0] eqn:EA.
  - exfalso. apply lstrip_with_all in EA.
    unfold lstrip in Hs. rewrite lstrip_with_run in Hs by assumption.
    discriminate Hs.
  - assert (HA : lstrip X <> []) by (rewrite EA; discriminate).
    assert (El : lstrip (X ++ T) = lstrip X ++ T)
      by (now apply lstrip_with_app_keep).
    rewrite El, lower_app in Hs, Hno.
    destruct (rstrip_with_split is_semicolon (rstrip sql))
      as [semis [Esemis Hsemis]].
    fold (rstrip_semicolons (rstrip sql)) in Esemis. fold X in Esemis.
    assert (Eold : strip sql = lstrip X ++ semis).
    { rewrite strip_commutes, Esemis. now apply lstrip_with_app_keep. }
    rewrite Eold, lower_app. split.
    + apply startswith_app.
      apply (startswith_before (lit "select") (lower (lstrip X)) " "%char
               (lower (lit "LIMIT " ++ str_of_int n ++ lit ";"))).
      * vm_compute. intuition discriminate.
      * exact Hs.
    + intros kw Hkw Hst. apply (Hno kw Hkw).
      pose proof banned_keywords_plain as Hplain.
      rewrite Forall_forall in Hplain. destruct (Hplain kw Hkw) as [Hne Hk].
      apply (standalone_survives kw (lower (lstrip X)) (lower semis));
        try assumption.
      * now apply lower_semicolons.
      * right. exists " "%char,
          (lower (lit "LIMIT " ++ str_of_int n ++ lit ";")).
        split; reflexivity.
      * discriminate.
Qed.

Lemma limit_never_unlocks_gate_witness :
  validate_read_only_sql_pure
    (add_optional_limit (lit "SELECT close FROM forex_bars;") (Some 5%Z))
  = inr true
  /\ validate_read_only_sql_pure (lit "SELECT close FROM forex_bars;")
     = inr true.
Proof.
  split; [vm_compute; reflexivity|].
  apply (limit_never_unlocks_gate (lit "SELECT close FROM forex_bars;")
           (Some 5%Z)).
  vm_compute. reflexivity.
Defined.

(** The converse fails: the LIMIT clause can put a space after a word
    that a semicolon followed. *)
Example limit_can_lock_gate :
  validate_read_only_sql_pure (lit "SELECT 1 AS do;") = inr true
  /\ validate_read_only_sql_pure
       (add_optional_limit (lit "SELECT 1 AS do;") (Some 5%Z))
     = inl (HTTPException 400 (lit "Write/DDL statements are not allowed.")).
Proof. split; vm_compute; reflexivity. Qed.

(** X8: for every limit other than zero, negative ones included, a
    statement followed by any run of semicolons and then any run of
    whitespace gets the same result: the statement, one LIMIT clause and
    one terminator. *)
Theorem limit_normalises_terminators (body semis ws : str) (n : Z) :
  n <> 0%Z ->
  no_trail isspace body -> no_trail is_semicolon body ->
  Forall (fun c => is_semicolon c = true) semis ->
  Forall (fun c => isspace c = true) ws ->
  add_optional_limit (body ++ semis ++ ws) (Some n)
  = body ++ lit " LIMIT " ++ str_of_int n ++ lit ";".
Proof.
  intros Hn Hws Hsc Hsemis Hspace. unfold add_optional_limit.
  destruct (Z.eqb_spec n 0); [contradiction|].
  unfold rstrip, rstrip_semicolons.
  replace (body ++ semis ++ ws) with ((body ++ semis) ++ ws)
    by (now rewrite <- app_assoc).
  rewrite rstrip_with_run by assumption.
  destruct (list_eq_dec ascii_dec semis []) as [-> | Hne].
  - rewrite app_nil_r, (rstrip_with_fixed Hws).
    now rewrite (rstrip_with_fixed Hsc).
  - rewrite (rstrip_with_fixed (s := body ++ semis)).
    + now rewrite rstrip_with_run, (rstrip_with_fixed Hsc) by assumption.
    + apply no_trail_app; [assumption|]. intros a c ->.
      apply Forall_app in Hsemis as [_ Hc]. inversion Hc; subst.
      match goal with H : is_semicolon c = true |- _ =>
        apply Ascii.eqb_eq in H; now subst end.
Qed.

Lemma limit_normalises_terminators_witness :
  add_optional_limit (lit "SELECT 1" ++ lit ";;" ++ lit "
 ") (Some (-3)%Z)
  = lit "SELECT 1 LIMIT -3;".
Proof.
  apply (limit_normalises_terminators (lit "SELECT 1") (lit ";;") (lit "
 ") (-3)%Z).
  - discriminate.
  - intros a c E.
    assert (Hc : last (lit "SELECT 1") c = c)
      by (rewrite E; apply last_last).
    vm_compute in Hc. subst c. reflexivity.
  - apply Forall_no_trail. all_chars.
  - all_chars.
  - all_chars.
Defined.

(** *** The secondary bridge: fences *)

Module FenceFacts.

Import MoreSpec.

#[local] Arguments cls_matches : simpl never.

Lemma backtick_only_fence c :
  cls_matches fence_flags (CChr backtick) c = true -> c = backtick.
Proof. exact (backtick_only c). Qed.

Lemma not_backtick_fence c :
  c <> backtick -> cls_matches fence_flags (CChr backtick) c = false.
Proof.
  intros Hc. destruct (cls_matches fence_flags (CChr backtick) c) eqn:E;
    [|reflexivity].
  now apply backtick_only_fence in E.
Qed.

(** The fence pattern matches no text whose last character is neither a
    backtick nor whitespace. *)
Lemma fence_needs_closing z c :
  c <> backtick -> isspace c = false ->
  match_ fence_flags fence_re (z ++ [c]) = None.
Proof.
  intros Hc Hs.
  destruct (match_ fence_flags fence_re (z ++ [c])) as [m|] eqn:E;
    [exfalso | reflexivity].
  unfold match_, match_at, fence_re in E.
  change (seq [Bol; word "```"; Opt (word "sql"); Star CSpace;
               Group 1 (StarLazy CAny); Star CSpace; word "```"; Eol])
    with (seq ([Bol; word "```"; Opt (word "sql"); Star CSpace;
                Group 1 (StarLazy CAny); Star CSpace]
               ++ [word "```"; Eol])) in E.
  apply rmatch_seq_split in E as [st [Hsub E]].
  rewrite rmatch_seq_cons in E. unfold word in E.
  apply rmatch_chars in E as [l' [rst' [Er [Hw E]]]].
  unfold subject in Hsub. rewrite Er in Hsub. simpl in Hsub.
  inversion Hw as [|a1 c1 la1 lc1 H1 Hw1]; subst.
  inversion Hw1 as [|a2 c2 la2 lc2 H2 Hw2]; subst.
  inversion Hw2 as [|a3 c3 la3 lc3 H3 Hw3]; subst.
  inversion Hw3; subst.
  simpl in E. unfold at_eol in E. simpl in E.
  destruct rst' as [|n [|n2 rst']].
  - change ([c1; c2; c3] ++ []) with ([c1; c2] ++ [c3]) in Hsub.
    rewrite app_assoc in Hsub. apply app_inj_tail in Hsub as [_ ->].
    apply backtick_only_fence in H3. contradiction.
  - rewrite app_assoc in Hsub. apply app_inj_tail in Hsub as [_ ->].
    destruct (Ascii.eqb_spec c newline) as [-> | Hn];
      [discriminate Hs | discriminate E].
  - rewrite andb_false_r in E. discriminate.
Qed.

Section Fence.

Let fl := fence_flags.

Lemma star_greedy_none c run : forall bef rst gs k,
  Forall (fun ch => cls_matches fl c ch = true) run ->
  match rst with
  | [] => True
  | ch :: _ => cls_matches fl c ch = false
  end ->
  (forall a1 a2, run = a1 ++ a2 ->
                 k (MState (rev a1 ++ bef) (a2 ++ rst) gs) = None) ->
  star_greedy fl c bef (run ++ rst) gs k = None.
Proof.
  induction run as [|x run IH]; intros bef rst gs k Hrun Hnext Hfail.
  - pose proof (Hfail [] [] eq_refl) as H0. simpl in *.
    destruct rst as [|ch rst]; simpl; [assumption|]. now rewrite Hnext.
  - inversion Hrun; subst. simpl.
    match goal with H : cls_matches _ _ x = true |- _ => rewrite H end.
    rewrite IH; try assumption.
    + exact (Hfail [] (x :: run) eq_refl).
    + intros a1 a2 E. specialize (Hfail (x :: a1) a2).
      simpl in Hfail. rewrite <- app_assoc in Hfail. simpl in Hfail.
      apply Hfail. now rewrite E.
Qed.

(** The closing part of the fence pattern, [\s*```$], at a position
    from which a character other than whitespace and backtick is still
    ahead: no match. *)
Lemma closing_fails bef a rst gs :
  no_backtick a -> lstrip a <> [] ->
  rmatch fl (seq [Star CSpace; word "```"; Eol]) (MState bef (a ++ rst) gs)
    Some = None.
Proof.
  intros Ha Hl.
  destruct (lstrip_with_split isspace a) as [run [E Hrun]].
  fold (lstrip a) in E.
  destruct (lstrip a) as [|c more] eqn:El; [congruence|].
  assert (Hc : c <> backtick /\ isspace c = false).
  { split.
    - rewrite E in Ha. apply Forall_app in Ha as [_ Ha]. now inversion Ha.
    - pose proof (lstrip_with_no_lead isspace a) as H.
      fold (lstrip a) in H. now rewrite El in H. }
  destruct Hc as [Hcb Hcs].
  rewrite rmatch_seq_cons. cbn [rmatch before rest groups].
  rewrite E, <- app_assoc.
  apply star_greedy_none.
  - exact Hrun.
  - simpl. exact Hcs.
  - intros a1 a2 Ea. rewrite rmatch_seq_cons. unfold word.
    change (lit "```") with (backtick :: lit "``").
    apply rmatch_chars_fail. cbn [rest].
    destruct a2 as [|ch a2]; simpl.
    + now apply not_backtick_fence.
    + apply not_backtick_fence. intros ->.
      rewrite Ea in Hrun. apply Forall_app in Hrun as [_ Hrun].
      inversion Hrun as [|? ? Hsp _]. discriminate Hsp.
Qed.

Lemma closing_succeeds bef trail gs :
  Forall (fun c => isspace c = true) trail ->
  rmatch fl (seq [Star CSpace; word "```"; Eol])
    (MState bef (trail ++ lit "```") gs) Some
  = Some (MState (rev (lit "```") ++ rev trail ++ bef) [] gs).
Proof.
  intros Ht. rewrite rmatch_seq_cons. cbn [rmatch before rest groups].
  apply star_greedy_run.
  - exact Ht.
  - rewrite rmatch_seq_cons. unfold word.
    erewrite rmatch_chars_ok with (l' := lit "```") (rst' := []);
      [reflexivity | reflexivity | apply matches_self].
  - reflexivity.
Qed.

(** The pattern after the opening fence and its tag, on a body without
    backtick followed by the closing fence: the group is the body,
    trimmed. *)
Lemma fence_body bef body gs :
  no_backtick body ->
  rmatch fl (seq [Star CSpace; Group 1 (StarLazy CAny); Star CSpace;
                  word "```"; Eol])
    (MState bef (body ++ lit "```") gs) Some
  = Some (MState (rev (lit "```") ++ rev body ++ bef) []
            ((1, strip body) :: gs)).
Proof.
  intros Hbody.
  destruct (strip_split body) as [lead [trail [E [Hlead Htrail]]]].
  destruct (list_eq_dec ascii_dec (strip body) []) as [E0 | Hne].
  - (* the body is whitespace only *)
    rewrite E0 in *. simpl in E.
    assert (Hall : Forall (fun c => isspace c = true) body)
      by (rewrite E; now apply Forall_app).
    rewrite rmatch_seq_cons. cbn [rmatch before rest groups].
    apply star_greedy_run; [exact Hall | | reflexivity].
    rewrite rmatch_seq_cons. cbn [rmatch before rest groups].
    apply (@star_lazy_first fl CAny [] (rev body ++ bef) (lit "```") gs);
      [constructor | |].
    + intros a1 a2 Ea Hne. destruct a1; destruct a2; try discriminate.
      congruence.
    + cbn [before rest groups app rev].
      rewrite (closing_succeeds _ [] _ ltac:(constructor)).
      cbn [before rest groups app rev].
      rewrite (consumed_app (rev body ++ bef) (lit "```") gs [] _ _).
      reflexivity.
  - (* the general case *)
    assert (Hcore : no_backtick (strip body)).
    { rewrite E in Hbody. apply Forall_app in Hbody as [_ Hbody].
      now apply Forall_app in Hbody as [Hbody _]. }
    rewrite E at 1. rewrite <- !app_assoc.
    rewrite rmatch_seq_cons. cbn [rmatch before rest groups].
    apply star_greedy_run; [exact Hlead | |].
    2: { pose proof (strip_no_lead body) as H.
         destruct (strip body); [congruence | exact H]. }
    rewrite rmatch_seq_cons. cbn [rmatch before rest groups].
    apply star_lazy_first.
    + apply Forall_forall. intros c _. reflexivity.
    + intros a1 a2 Ea Hne2. cbn [before rest groups].
      apply closing_fails.
      * rewrite Ea in Hcore. now apply Forall_app in Hcore.
      * intros Hl. apply lstrip_with_all in Hl.
        destruct (exists_last Hne2) as [a2' [c Ec]].
        pose proof (strip_no_trail body (a1 ++ a2') c) as Hc.
        rewrite Ea, Ec, app_assoc in Hc. specialize (Hc eq_refl).
        rewrite Ec in Hl. apply Forall_app in Hl as [_ Hl].
        inversion Hl; congruence.
    + cbn [before rest groups].
      rewrite closing_succeeds by assumption.
      rewrite consumed_app.
      assert (Hrev : rev body = rev trail ++ rev (strip body) ++ rev lead)
        by (rewrite E at 1; rewrite !rev_app_distr, <- app_assoc;
            reflexivity).
      rewrite Hrev, <- !app_assoc. reflexivity.
Qed.

End Fence.

Lemma space_is_not_s c :
  isspace c = true -> lower_char c <> lower_char "s"%char.
Proof.
  destruct c as [[] [] [] [] [] [] [] []]; vm_compute; intros H;
    discriminate.
Qed.

Lemma opening_fence_match fence body :
  opening_fence fence body -> no_backtick body ->
  match_ fence_flags fence_re (fence ++ body ++ lit "```")
  = Some (MState (rev (lit "```") ++ rev body ++ rev fence) []
            [(1, strip body)]).
Proof.
  intros [Htag | [-> Hplain]] Hbody; unfold match_, match_at, fence_re.
  - pose proof (matches_lowered fence_flags fence eq_refl) as Hw.
    rewrite Htag in Hw.
    change (lit "```sql") with (lit "```" ++ lit "sql") in Hw.
    apply Forall2_app_inv_l in Hw as [f1 [f2 [Hw1 [Hw2 ->]]]].
    rewrite rmatch_seq_cons. cbn [rmatch at_bol before].
    rewrite rmatch_seq_cons. unfold word at 1.
    rewrite <- (app_assoc f1 f2).
    erewrite rmatch_chars_ok with (l' := f1); [|reflexivity|exact Hw1].
    cbn [before rest groups].
    rewrite rmatch_seq_cons. cbn [rmatch]. unfold word at 1.
    erewrite rmatch_chars_ok with (l' := f2); [|reflexivity|exact Hw2].
    cbn [before rest groups].
    rewrite fence_body by assumption.
    now rewrite rev_app_distr, !app_nil_r.
  - rewrite rmatch_seq_cons. cbn [rmatch at_bol before].
    rewrite rmatch_seq_cons. unfold word at 1.
    erewrite rmatch_chars_ok with (l' := lit "```");
      [|reflexivity|apply matches_self].
    cbn [before rest groups].
    rewrite rmatch_seq_cons. cbn [rmatch]. unfold word at 1.
    change (lit "sql") with ("s"%char :: lit "ql").
    rewrite rmatch_chars_fail.
    + rewrite fence_body by assumption. now rewrite !app_nil_r.
    + cbn [rest]. destruct body as [|c body]; simpl; [reflexivity|].
      unfold cls_matches. cbn [IGNORECASE fence_flags].
      apply Ascii.eqb_neq. intros E. symmetry in E.
      now apply space_is_not_s in E.
Qed.

Lemma opening_fence_head fence body :
  opening_fence fence body -> exists t, fence = backtick :: t.
Proof.
  intros [Htag | [-> _]]; [|eexists; reflexivity].
  pose proof (matches_lowered fence_flags fence eq_refl) as Hw.
  rewrite Htag in Hw. inversion Hw as [|a c la lc Hc _]; subst.
  apply backtick_only_fence in Hc. subst. eauto.
Qed.

Lemma strip_surrounded lead text trail :
  Forall (fun c => isspace c = true) lead ->
  Forall (fun c => isspace c = true) trail ->
  no_lead isspace text -> no_trail isspace text -> text <> [] ->
  strip (lead ++ text ++ trail) = text.
Proof.
  intros Hl Ht Hnl Hnt Hne. unfold strip, lstrip, rstrip.
  rewrite lstrip_with_run by assumption.
  rewrite lstrip_with_fixed by (destruct text; [congruence | exact Hnl]).
  rewrite rstrip_with_run by assumption.
  now apply rstrip_with_fixed.
Qed.

End FenceFacts.

Import MoreSpec FenceFacts.

(** X9: unless the trimmed text ends with a backtick, [_strip_fences]
    only trims it and [_clean] only normalises its terminator: a fenced
    block followed by anything else keeps its fences. *)
Theorem strip_fences_needs_closing_fence (x : str) :
  no_trail (fun c => Ascii.eqb c backtick) (strip x) ->
  _strip_fences x = strip x
  /\ _clean x = rstrip_semicolons (strip x) ++ lit ";".
Proof.
  intros Hnt.
  assert (E : _strip_fences x = strip x).
  { unfold _strip_fences.
    destruct (list_eq_dec ascii_dec (strip x) []) as [E0 | Hne].
    - rewrite E0. reflexivity.
    - destruct (exists_last Hne) as [z [c Ez]].
      rewrite Ez, fence_needs_closing, <- Ez; [apply strip_idem | |].
      + intros ->. specialize (Hnt z backtick Ez). discriminate.
      + exact (strip_no_trail x z c Ez). }
  split; [exact E|]. unfold _clean. now rewrite E, strip_idem.
Qed.


Lemma strip_fences_needs_closing_fence_witness :
  let x := lit "```sql
SELECT 1
```
This returns one." in
  _strip_fences x = x.
Proof.
  cbv zeta.
  refine (proj1 (strip_fences_needs_closing_fence _ _)).
  intros a c E.
  match type of E with
  | ?s = _ => assert (Hc : last s c = c) by (rewrite E; apply last_last)
  end.
  vm_compute in Hc. subst c. reflexivity.
Defined.

(** X10: a text that is one fenced block, with whitespace around it or
    not, opened by three backticks and the tag [sql] in any case (or by
    three backticks alone before a body that is empty or begins with
    white space) and holding no backtick inside, is reduced by
    [_strip_fences] to the trimmed body, and by [_clean] to that body
    with exactly one terminator. *)
Theorem strip_fences_takes_body (lead fence body trail : str) :
  Forall (fun c => isspace c = true) lead ->
  Forall (fun c => isspace c = true) trail ->
  opening_fence fence body ->
  no_backtick body ->
  _strip_fences (lead ++ (fence ++ body ++ lit "```") ++ trail)
  = strip body
  /\ _clean (lead ++ (fence ++ body ++ lit "```") ++ trail)
     = rstrip_semicolons (strip body) ++ lit ";".
Proof.
  intros Hl Ht Hf Hb.
  assert (Hs : strip (lead ++ (fence ++ body ++ lit "```") ++ trail)
               = fence ++ body ++ lit "```").
  { destruct (opening_fence_head fence body Hf) as [t ->].
    apply strip_surrounded; try assumption.
    - reflexivity.
    - rewrite app_assoc. apply no_trail_app; [discriminate|].
      apply Forall_no_trail. repeat constructor.
    - discriminate. }
  assert (E : _strip_fences (lead ++ (fence ++ body ++ lit "```") ++ trail)
              = strip body).
  { unfold _strip_fences. rewrite Hs, opening_fence_match by assumption.
    cbn [group groups lookup_group Nat.eqb]. apply strip_idem. }
  split; [exact E|]. unfold _clean. now rewrite E, strip_idem.
Qed.

Lemma strip_fences_takes_body_witness :
  _clean (lit " " ++ (lit "```SQL" ++ lit "
  SELECT close FROM forex_bars;;
" ++ lit "```") ++ lit "
") = lit "SELECT close FROM forex_bars;"
  /\ _clean ([] ++ (lit "```" ++ lit "
SELECT 1
" ++ lit "```") ++ []) = lit "SELECT 1;".
Proof.
  split.
  - refine (proj2 (strip_fences_takes_body (lit " ") (lit "```SQL") (lit "
  SELECT close FROM forex_bars;;
") (lit "
") _ _ _ _)).
    + all_chars.
    + all_chars.
    + left. reflexivity.
    + all_chars.
  - refine (proj2 (strip_fences_takes_body [] (lit "```") (lit "
SELECT 1
") [] _ _ _ _)).
    + constructor.
    + constructor.
    + right. split; reflexivity.
    + all_chars.
Defined.

(** *** The secondary bridge: what it returns and what it logs *)

(** X11: whatever [ask_qwen] returns other than the empty string is the
    cleaned SQL of the response, mentions [select] and [forex_bars]
    (in any letter case), ends in exactly one semicolon, and was
    returned without a write to the log, whatever the disk would have
    done with one. *)
Theorem ask_qwen_answer_is_checked
    (d : disk) (posted : exn + pyval) (now retry question : str)
    (f : logfile) (sql : str) :
  snd (ask_qwen d posted now retry question f) = inr sql ->
  sql <> [] ->
  post_and_clean posted = inr sql
  /\ mentions (lit "select") sql
  /\ mentions (lit "forex_bars") sql
  /\ ends_in_one_semicolon sql
  /\ fst (ask_qwen d posted now retry question f) = f.
Proof.
  unfold ask_qwen.
  destruct (post_and_clean posted) as [e | sql0] eqn:Ep.
  - destruct (append_unanswered d now question _ f) as [f1 [e1 | []]];
      simpl; intros H Hne; inversion H; subst; exfalso; now apply Hne.
  - destruct (bad_sql sql0) eqn:Eb.
    + destruct (append_unanswered d now question _ f) as [f1 [e1 | []]];
        [|simpl; intros H Hne; inversion H; subst; exfalso; now apply Hne].
      destruct (append_unanswered d retry question _ f1) as [f2 [e2 | []]];
        simpl; intros H Hne; inversion H; subst; exfalso; now apply Hne.
    + simpl. intros H _. inversion H; subst sql0.
      split; [reflexivity|].
      unfold bad_sql in Eb. repeat rewrite orb_false_iff in Eb.
      destruct Eb as [[_ Hsel] Hfx].
      apply negb_false_iff in Hsel, Hfx.
      split; [now apply contains_spec|]. split; [now apply contains_spec|].
      split; [|reflexivity].
      unfold post_and_clean in Ep.
      destruct posted as [e | v]; [discriminate|].
      destruct v; try discriminate. simpl in Ep. inversion Ep.
      destruct (clean_body s) as [body [E [Ht _]]]. exists body. now split.
Qed.

Lemma ask_qwen_answer_is_checked_witness :
  let posted := inr (VStr (lit "```sql
SELECT close FROM forex_bars
```")) in
  let d : disk := fun _ _ => WriteRaised (PyException []) None in
  snd (ask_qwen d posted [] [] [] None)
  = inr (lit "SELECT close FROM forex_bars;")
  /\ fst (ask_qwen d posted [] [] [] None) = None.
Proof.
  cbv zeta. split; [vm_compute; reflexivity|].
  refine (proj2 (proj2 (proj2 (proj2
            (ask_qwen_answer_is_checked _ _ [] [] [] None
               (lit "SELECT close FROM forex_bars;") _ _))))).
  - vm_compute. reflexivity.
  - discriminate.
Defined.

Lemma append_all_some d es old :
  takes_all d ->
  append_all d es (Some old)
  = (Some (old ++ List.concat (map line_of es)), inr tt).
Proof.
  intros Hd. revert old.
  induction es as [|[[now q] fs] es IH]; intros old.
  - simpl. now rewrite app_nil_r.
  - cbn [append_all]. unfold append_unanswered. rewrite Hd.
    rewrite IH. cbn [map List.concat content line_of].
    now rewrite <- app_assoc.
Qed.

(** X12: the log file is append-only.  After any number of calls of
    [append_unanswered] on a disk that takes the writes, the text that
    was in the file is still there, unchanged and first, followed by
    one line per call, in the order of the calls; the header line is
    written once, and only when the file did not exist: an existing
    file, even an empty one, never gets a header.  Nothing is put
    between the old text and the new line, so a file whose last line has
    no terminator gets the first new record on that line. *)
Theorem log_is_append_only (d : disk) (es : list logged) (f : logfile) :
  takes_all d ->
  append_all d es f
  = (match es, f with
     | [], _ => f
     | _ :: _, None => Some (writerow header ++ List.concat (map line_of es))
     | _ :: _, Some old => Some (old ++ List.concat (map line_of es))
     end, inr tt).
Proof.
  intros Hd. destruct es as [|[[now q] fs] es]; [reflexivity|].
  destruct f as [old|]; [now apply append_all_some|].
  cbn [append_all]. unfold append_unanswered. rewrite Hd.
  rewrite append_all_some by assumption.
  cbn [map List.concat content line_of app]. now rewrite <- app_assoc.
Qed.

Lemma log_is_append_only_witness :
  let d : disk := fun _ _ => Written in
  takes_all d
  /\ append_all d
       [(lit "T1", lit "a,b", None); (lit "T2", lit "c", Some (lit "x"))]
       (Some (lit "t,q,s"))
     = (Some (lit "t,q,sT1," ++ [quotechar] ++ lit "a,b" ++ [quotechar]
              ++ lit "," ++ [CR; LF] ++ lit "T2,c,x" ++ [CR; LF]),
        inr tt).
Proof.
  cbv zeta.
  assert (Hd : takes_all (fun _ _ => Written)) by (intros f t; reflexivity).
  split; [exact Hd|].
  rewrite (log_is_append_only _ _ _ Hd). vm_compute. reflexivity.
Defined.

(* ================================================================== *)
(** ** The links of "Learn more" *)

Module LinksFacts.

Import Links.

Lemma url_run_spec s :
  Forall (fun c => url_char c = true) (url_run s)
  /\ exists t, s = url_run s ++ t.
Proof.
  induction s as [|c s [IH [t Et]]]; simpl.
  - split; [constructor | now exists []].
  - destruct (url_char c) eqn:Hc.
    + split; [now constructor|]. exists t. simpl. now f_equal.
    + split; [constructor|]. now exists (c :: s).
Qed.

Lemma url_tail_spec scheme r m :
  url_tail scheme r = Some m ->
  exists run t,
    r = lit "://" ++ run ++ t /\ m = scheme ++ lit "://" ++ run
    /\ run <> [] /\ Forall (fun c => url_char c = true) run.
Proof.
  unfold url_tail. destruct r as [|c1 [|c2 [|c3 u]]]; try discriminate.
  destruct (Ascii.eqb_spec c1 ":"%char) as [-> |]; [|discriminate].
  destruct (Ascii.eqb_spec c2 "/"%char) as [-> |]; [|discriminate].
  destruct (Ascii.eqb_spec c3 "/"%char) as [-> |]; [|discriminate].
  simpl. destruct (url_run_spec u) as [Hrun [t Et]].
  destruct (url_run u) as [|x run] eqn:Er; [discriminate|].
  intros H. inversion H; subst. exists (x :: run), t.
  split; [reflexivity|]. split; [reflexivity|].
  split; [discriminate | assumption].
Qed.

Lemma letter_lower a c : letter a c = true -> lower_char c = lower_char a.
Proof. unfold letter. intros H. apply Ascii.eqb_eq in H. now rewrite H. Qed.

Lemma url_char_lower c : url_char (lower_char c) = true -> url_char c = true.
Proof. destruct c as [[] [] [] [] [] [] [] []]; vm_compute; trivial. Qed.

Lemma url_at_spec s m :
  url_at s = Some m ->
  exists scheme run t,
    s = m ++ t /\ m = scheme ++ lit "://" ++ run
    /\ (lower scheme = lit "http" \/ lower scheme = lit "https")
    /\ Forall (fun c => url_char c = true) scheme
    /\ run <> [] /\ Forall (fun c => url_char c = true) run.
Proof.
  unfold url_at. destruct s as [|h [|t1 [|t2 [|p r]]]]; try discriminate.
  destruct (letter "h" h) eqn:H1; [|discriminate].
  destruct (letter "t" t1) eqn:H2; [|discriminate].
  destruct (letter "t" t2) eqn:H3; [|discriminate].
  destruct (letter "p" p) eqn:H4; [|discriminate]. simpl.
  apply letter_lower in H1, H2, H3, H4.
  assert (Hhttp : lower [h; t1; t2; p] = lit "http")
    by (simpl; now rewrite H1, H2, H3, H4).
  assert (Hc4 : Forall (fun c => url_char c = true) [h; t1; t2; p]).
  { repeat constructor; apply url_char_lower;
      [rewrite H1 | rewrite H2 | rewrite H3 | rewrite H4]; reflexivity. }
  assert (Hplain : forall m, url_tail [h; t1; t2; p] r = Some m ->
            exists scheme run t,
              h :: t1 :: t2 :: p :: r = m ++ t
              /\ m = scheme ++ lit "://" ++ run
              /\ (lower scheme = lit "http" \/ lower scheme = lit "https")
              /\ Forall (fun c => url_char c = true) scheme
              /\ run <> [] /\ Forall (fun c => url_char c = true) run).
  { intros m' Hm. apply url_tail_spec in Hm as [run [t [Er [Em [Hne Hrun]]]]].
    exists [h; t1; t2; p], run, t. subst. repeat split; auto. }
  destruct r as [|s' r']; [discriminate|].
  destruct (letter "s" s') eqn:H5; [|apply Hplain].
  destruct (url_tail [h; t1; t2; p; s'] r') as [m'|] eqn:Et; [|apply Hplain].
  intros H. inversion H; subst. clear Hplain.
  apply url_tail_spec in Et as [run [t [Er [Em [Hne Hrun]]]]].
  apply letter_lower in H5.
  exists [h; t1; t2; p; s'], run, t. subst. repeat split; auto.
  - right. simpl. now rewrite H1, H2, H3, H4, H5.
  - change [h; t1; t2; p; s'] with ([h; t1; t2; p] ++ [s']).
    apply Forall_app. split; [assumption|].
    repeat constructor. apply url_char_lower. now rewrite H5.
Qed.

Lemma finditer_spec s : forall skip m,
  In m (finditer skip s) ->
  exists pre t, s = pre ++ t /\ url_at t = Some m.
Proof.
  induction s as [|c s IH]; intros skip m H; cbn [finditer] in H;
    [contradiction|].
  assert (Hrec : forall k, In m (finditer k s) ->
            exists pre t, c :: s = pre ++ t /\ url_at t = Some m).
  { intros k Hk. apply IH in Hk as [pre [t [E Hu]]].
    exists (c :: pre), t. split; [now rewrite E | assumption]. }
  destruct skip as [|k]; [|eauto].
  destruct (url_at (c :: s)) as [m'|] eqn:Eu; [|eauto].
  simpl in H. destruct H as [-> | H]; [|eauto].
  exists [], (c :: s). auto.
Qed.

Lemma rstrip_with_after p a c b :
  p c = false ->
  rstrip_with p ((a ++ [c]) ++ b) = (a ++ [c]) ++ rstrip_with p b.
Proof.
  intros Hc. destruct (rstrip_with p b) as [|x rb] eqn:Eb.
  - destruct (rstrip_with_split p b) as [run [E Hrun]].
    rewrite Eb in E. simpl in E. subst run.
    rewrite rstrip_with_run by assumption.
    rewrite app_nil_r. now apply rstrip_with_snoc_out.
  - rewrite <- Eb. apply rstrip_with_app_keep. rewrite Eb. discriminate.
Qed.

Lemma rstrip_with_prefix p s : exists t, s = rstrip_with p s ++ t.
Proof. destruct (rstrip_with_split p s) as [t [E _]]. eauto. Qed.

Lemma seen_before_false url seen :
  seen_before url seen = false -> ~ In url seen.
Proof.
  unfold seen_before. intros H Hin.
  assert (existsb (str_eqb url) seen = true); [|congruence].
  apply existsb_exists. exists url. split; [assumption|].
  now apply str_eqb_eq.
Qed.

Lemma validate_links_inv net max_links cands :
  forall seen valid probed v p,
    validate_links net max_links cands seen valid probed = (v, p) ->
    NoDup probed -> incl probed seen -> incl valid probed ->
    NoDup valid -> Forall (fun u => probe net u = true) valid ->
    (Z.of_nat (List.length valid) < Z.max 1 max_links)%Z ->
    NoDup p /\ NoDup v /\ incl v p
    /\ Forall (fun u => probe net u = true) v
    /\ (forall u, In u p -> In u probed \/ In u cands)
    /\ (Z.of_nat (List.length v) <= Z.max 1 max_links)%Z.
Proof.
  induction cands as [|url more IH];
    intros seen valid probed v p H Hp Hps Hvp Hv Hok Hlen; simpl in H.
  - inversion H; subst. repeat split; auto. lia.
  - destruct (seen_before url seen) eqn:Es.
    + destruct (IH _ _ _ _ _ H Hp Hps Hvp Hv Hok Hlen)
        as [H1 [H2 [H3 [H4 [H5 H6]]]]].
      repeat split; auto. intros u Hu.
      destruct (H5 u Hu); [now left | right; now right].
    + apply seen_before_false in Es.
      assert (Hnew : ~ In url probed) by (intros Hin; apply Es; auto).
      assert (Hp' : NoDup (probed ++ [url])).
      { apply NoDup_app; [assumption | repeat constructor; intros [] |].
        intros x Hx [<- | []]. contradiction. }
      assert (Hps' : incl (probed ++ [url]) (url :: seen)).
      { intros x Hx. apply in_app_or in Hx as [Hx | [<- | []]];
          [right; auto | now left]. }
      set (valid' := if probe net url then valid ++ [url] else valid) in *.
      assert (Hvp' : incl valid' (probed ++ [url])).
      { subst valid'. destruct (probe net url); intros x Hx.
        - apply in_app_or in Hx as [Hx | Hx];
            apply in_or_app; [left; auto | now right].
        - apply in_or_app. left. auto. }
      assert (Hv' : NoDup valid').
      { subst valid'. destruct (probe net url); [|assumption].
        apply NoDup_app; [assumption | repeat constructor; intros [] |].
        intros x Hx [<- | []]. apply Hnew. auto. }
      assert (Hok' : Forall (fun u => probe net u = true) valid').
      { subst valid'. destruct (probe net url) eqn:Epr; [|assumption].
        apply Forall_app. split; [assumption | now repeat constructor]. }
      assert (Hlen' : (Z.of_nat (List.length valid')
                       <= Z.of_nat (List.length valid) + 1)%Z).
      { subst valid'. destruct (probe net url); [|lia].
        rewrite length_app. simpl. lia. }
      destruct (Z.of_nat (List.length valid') >=? max_links)%Z eqn:Ecap.
      * rewrite Z.geb_leb in Ecap. apply Z.leb_le in Ecap.
        inversion H; subst v p. repeat split; auto.
        -- intros u Hu. apply in_app_or in Hu as [Hu | [<- | []]];
             [now left | right; now left].
        -- lia.
      * rewrite Z.geb_leb in Ecap. apply Z.leb_gt in Ecap.
        destruct (IH _ _ _ _ _ H Hp' Hps' Hvp' Hv' Hok')
          as [H1 [H2 [H3 [H4 [H5 H6]]]]]; [lia|].
        repeat split; auto. intros u Hu.
        destruct (H5 u Hu) as [Hu' | Hu']; [|right; now right].
        apply in_app_or in Hu' as [Hu' | [<- | []]];
          [now left | right; now left].
Qed.

Lemma validate_links_first net max_links cands :
  forall seen valid probed,
    (Z.of_nat (List.length valid) < max_links)%Z ->
    fst (validate_links net max_links cands seen valid probed)
    = valid
      ++ firstn (Z.to_nat max_links - List.length valid)
           (filter (probe net) (first_occurrences seen cands)).
Proof.
  induction cands as [|url more IH]; intros seen valid probed Hlen.
  - simpl. rewrite firstn_nil. now rewrite app_nil_r.
  - cbn [validate_links first_occurrences].
    destruct (seen_before url seen); [now apply IH|].
    cbn [filter]. destruct (probe net url).
    + destruct (Z.of_nat (List.length (valid ++ [url])) >=? max_links)%Z
        eqn:Ecap; rewrite Z.geb_leb in Ecap;
        rewrite length_app in Ecap; simpl in Ecap.
      * apply Z.leb_le in Ecap. cbn [fst].
        replace (Z.to_nat max_links - List.length valid) with 1 by lia.
        reflexivity.
      * apply Z.leb_gt in Ecap. rewrite IH
          by (rewrite length_app; simpl; lia).
        rewrite length_app. simpl.
        replace (Z.to_nat max_links - List.length valid)
          with (S (Z.to_nat max_links - (List.length valid + 1))) by lia.
        cbn [firstn]. now rewrite <- app_assoc.
    + destruct (Z.of_nat (List.length valid) >=? max_links)%Z eqn:Ecap;
        rewrite Z.geb_leb in Ecap.
      * apply Z.leb_le in Ecap. lia.
      * now apply IH.
Qed.

End LinksFacts.

Import Links LinksFacts Examples.

(** X13: every URL that [_extract_urls] returns begins with [http] in
    any letter case, followed by at most one more character (what the
    optional [s] of the pattern took) and by [://]; it holds no white
    space, no [)] and no [\]], does not end with one of the characters
    [.,);\]], and occurs in the text as it stands. *)
Theorem extracted_urls_are_clean (text url : str) :
  In url (_extract_urls text) ->
  scheme_prefix url
  /\ Forall (fun c => url_char c = true) url
  /\ no_trail trailing_punctuation url
  /\ exists pre post, text = pre ++ url ++ post.
Proof.
  unfold _extract_urls. intros H. apply in_map_iff in H as [m [<- Hm]].
  apply finditer_spec in Hm as [pre [t [Et Hu]]].
  apply url_at_spec in Hu
    as [scheme [run [t' [Es [Em [Hs [Hsc [Hne Hrun]]]]]]]].
  assert (Er : rstrip_with trailing_punctuation m
               = scheme ++ lit "://" ++ rstrip_with trailing_punctuation run).
  { rewrite Em.
    replace (scheme ++ lit "://" ++ run)
      with (((scheme ++ lit ":/") ++ ["/"%char]) ++ run)
      by (now rewrite <- !app_assoc).
    rewrite rstrip_with_after by reflexivity.
    now rewrite <- !app_assoc. }
  split; [|split; [|split]].
  - exists scheme, (rstrip_with trailing_punctuation run).
    split; [assumption|]. unfold lower in *. rewrite <- firstn_map.
    assert (Hlen : List.length scheme
                   = List.length (map lower_char scheme))
      by (now rewrite length_map).
    destruct Hs as [Hs | Hs]; rewrite Hs in *;
      (split; [reflexivity | rewrite Hlen; simpl; lia]).
  - rewrite Er. apply Forall_app. split; [assumption|].
    apply Forall_app. split; [repeat constructor|].
    destruct (rstrip_with_prefix trailing_punctuation run) as [x Ex].
    rewrite Ex in Hrun. now apply Forall_app in Hrun.
  - apply rstrip_with_no_trail.
  - destruct (rstrip_with_prefix trailing_punctuation m) as [x Ex].
    exists pre, (x ++ t'). rewrite Et, Es. rewrite Ex at 1.
    now rewrite <- !app_assoc.
Qed.

Lemma extracted_urls_are_clean_witness :
  _extract_urls suggestions
  = [link_a; link_b; link_a; link_c; link_d]
  /\ scheme_prefix link_c
  /\ exists pre post, suggestions = pre ++ link_c ++ post.
Proof.
  split; [vm_compute; reflexivity|].
  assert (H : In link_c (_extract_urls suggestions))
    by (vm_compute; right; right; right; left; reflexivity).
  destruct (extracted_urls_are_clean suggestions link_c H)
    as [H1 [_ [_ H4]]].
  now split.
Defined.

(** X14: when [suggest_learn_more_links] returns, no URL was probed
    twice and no link is returned twice; every link returned was probed
    and [_http_ok] accepted it; every URL probed is one that
    [_extract_urls] found in the reply of the model; and the number of
    links returned is at most [max_links], or at most one when
    [max_links] is below one. *)
Theorem suggested_links_are_valid
    (posted : exn + pyval) (net : web) (max_links : Z)
    (probed valid : list str) :
  suggest_learn_more_links posted net max_links = (probed, inr valid) ->
  NoDup probed /\ NoDup valid
  /\ (forall u, In u valid -> In u probed /\ probe net u = true)
  /\ (forall u, In u probed ->
        exists raw, posted = inr (VStr raw) /\ In u (_extract_urls raw))
  /\ (Z.of_nat (List.length valid) <= Z.max 1 max_links)%Z.
Proof.
  unfold suggest_learn_more_links.
  destruct posted as [e | v]; [discriminate|].
  destruct v; try discriminate.
  destruct (validate_links net max_links (_extract_urls s) [] [] [])
    as [v p] eqn:E.
  intros H. inversion H; subst.
  assert (Hnil : @NoDup str []) by constructor.
  assert (Hincl : incl (@nil str) []) by (intros x []).
  assert (Hall : Forall (fun u => probe net u = true) []) by constructor.
  assert (Hzero : (Z.of_nat (@List.length str []) < Z.max 1 max_links)%Z)
    by (simpl; lia).
  destruct (validate_links_inv net max_links _ _ _ _ _ _ E
              Hnil Hincl Hincl Hnil Hall Hzero)
    as [H1 [H2 [H3 [H4 [H5 H6]]]]].
  split; [assumption|]. split; [assumption|]. split; [|split].
  - intros u Hu. split; [now apply H3|].
    rewrite Forall_forall in H4. now apply H4.
  - intros u Hu. exists s. split; [reflexivity|].
    destruct (H5 u Hu) as [[] | Hc]. exact Hc.
  - assumption.
Qed.

Lemma suggested_links_are_valid_witness :
  suggest_learn_more_links (inr (VStr suggestions)) the_web 2
  = ([link_a; link_b; link_c], inr [link_a; link_c])
  /\ NoDup [link_a; link_b; link_c] /\ NoDup [link_a; link_c].
Proof.
  assert (H : suggest_learn_more_links (inr (VStr suggestions)) the_web 2
              = ([link_a; link_b; link_c], inr [link_a; link_c]))
    by (vm_compute; reflexivity).
  split; [exact H|].
  destruct (suggested_links_are_valid _ _ _ _ _ H) as [H1 [H2 _]].
  now split.
Defined.

(** X15: for [max_links] of at least one, the links returned are the
    first [max_links] of the URLs of the reply that [_http_ok] accepts,
    each URL counted at its first occurrence, in the order of the
    reply. *)
Theorem suggested_links_are_the_first_valid
    (raw : str) (net : web) (max_links : Z) :
  (1 <= max_links)%Z ->
  snd (suggest_learn_more_links (inr (VStr raw)) net max_links)
  = inr (firstn (Z.to_nat max_links)
           (filter (probe net) (first_occurrences [] (_extract_urls raw)))).
Proof.
  intros H. unfold suggest_learn_more_links.
  pose proof (validate_links_first net max_links (_extract_urls raw)
                [] [] []) as Hf.
  destruct (validate_links net max_links (_extract_urls raw) [] [] [])
    as [valid probed].
  cbn [snd fst] in *. rewrite Hf by (simpl; lia).
  simpl. now rewrite Nat.sub_0_r.
Qed.

Lemma suggested_links_are_the_first_valid_witness :
  (1 <= 2)%Z
  /\ snd (suggest_learn_more_links (inr (VStr suggestions)) the_web 2)
     = inr [link_a; link_c].
Proof.
  split; [lia|].
  rewrite suggested_links_are_the_first_valid by lia.
  vm_compute. reflexivity.
Defined.

(** X16: [max_links] below one does not mean no link: the first URL of
    the reply is still probed, and it is returned when [_http_ok]
    accepts it; no other URL is looked at. *)
Theorem no_links_wanted_still_probes_one
    (raw : str) (net : web) (max_links : Z) :
  (max_links <= 0)%Z ->
  suggest_learn_more_links (inr (VStr raw)) net max_links
  = (firstn 1 (_extract_urls raw),
     inr (filter (probe net) (firstn 1 (_extract_urls raw)))).
Proof.
  intros H. unfold suggest_learn_more_links.
  destruct (_extract_urls raw) as [|url more]; [reflexivity|].
  cbn [validate_links seen_before existsb firstn filter app].
  destruct (probe net url); cbn [List.length app].
  - destruct (Z.of_nat 1 >=? max_links)%Z eqn:E; [reflexivity|].
    rewrite Z.geb_leb in E. apply Z.leb_gt in E. lia.
  - destruct (Z.of_nat 0 >=? max_links)%Z eqn:E; [reflexivity|].
    rewrite Z.geb_leb in E. apply Z.leb_gt in E. lia.
Qed.

Lemma no_links_wanted_still_probes_one_witness :
  (0 <= 0)%Z
  /\ suggest_learn_more_links (inr (VStr suggestions)) the_web 0
     = ([link_a], inr [link_a]).
Proof.
  split; [lia|].
  rewrite no_links_wanted_still_probes_one by lia.
  vm_compute. reflexivity.
Defined.

(* ================================================================== *)
(** ** The statements sent to the database by [run_query] *)

Module DbFacts.

Import Db.

#[local] Arguments cls_matches : simpl never.

(** Where the pattern matches nowhere, [sub] copies the text. *)
Lemma sub_from_no_match fl r repl rst : forall bef,
  search_from fl r bef rst = None -> sub_from fl r repl 0 bef rst = rst.
Proof.
  induction rst as [|c t IH]; intros bef H; [reflexivity|].
  simpl in *. destruct (match_at fl r bef (c :: t)); [discriminate|].
  now rewrite IH.
Qed.

(** The test for a colon changes nothing: the result is the one of the
    substitution. *)
Lemma to_sa_binds_sub sql :
  _to_sa_binds sql = sub_from psyco_flags _PSYCO_RE colon_name 0 [] sql.
Proof.
  unfold _to_sa_binds.
  destruct (contains (lit ":") sql); simpl; [|reflexivity].
  destruct (search psyco_flags _PSYCO_RE sql) eqn:E; [reflexivity|].
  symmetry. now apply sub_from_no_match.
Qed.

Lemma sub_from_skip fl r repl pre : forall bef rst,
  sub_from fl r repl (List.length pre) bef (pre ++ rst)
  = sub_from fl r repl 0 (rev pre ++ bef) rst.
Proof.
  induction pre as [|x pre IH]; intros bef rst; [reflexivity|].
  simpl. rewrite IH. now rewrite <- app_assoc.
Qed.

Lemma psyco_unfold st k :
  rmatch psyco_flags _PSYCO_RE st k
  = rmatch psyco_flags (chars (lit "%(")) st
      (fun st1 =>
         rmatch psyco_flags (Plus CWord) st1
           (fun st2 =>
              rmatch psyco_flags (chars (lit ")s"))
                (MState (before st2) (rest st2)
                        ((1, consumed st1 st2) :: groups st2))
                k)).
Proof. reflexivity. Qed.

Lemma percent_only c :
  cls_matches psyco_flags (CChr "%"%char) c = false <-> c <> "%"%char.
Proof.
  unfold cls_matches. cbn [IGNORECASE psyco_flags].
  rewrite <- not_true_iff_false, Ascii.eqb_eq. split; congruence.
Qed.

Lemma matches_word_plain l : forall l',
  matches_word psyco_flags l l' -> l' = l.
Proof.
  induction l as [|a l IH]; intros l' H; inversion H; subst; [reflexivity|].
  f_equal; [|now apply IH].
  match goal with H : cls_matches _ _ _ = true |- _ =>
    unfold cls_matches in H; cbn [IGNORECASE psyco_flags] in H;
    apply Ascii.eqb_eq in H end.
  congruence.
Qed.

Lemma matches_word_refl l : matches_word psyco_flags l l.
Proof.
  induction l; constructor; [|assumption].
  unfold cls_matches. cbn [IGNORECASE psyco_flags]. apply Ascii.eqb_refl.
Qed.

(** The pattern fails at a character that is not a percent sign. *)
Lemma psyco_fails_at c bef t :
  c <> "%"%char -> match_at psyco_flags _PSYCO_RE bef (c :: t) = None.
Proof.
  intros Hc. unfold match_at. rewrite psyco_unfold.
  change (lit "%(") with ["%"%char; "("%char].
  apply rmatch_chars_fail. simpl. now apply percent_only.
Qed.

Lemma psyco_match bef name rst :
  name <> [] -> Forall word_char name ->
  match_at psyco_flags _PSYCO_RE bef (placeholder name ++ rst)
  = Some (MState (rev (placeholder name) ++ bef) rst [(1, name)]).
Proof.
  intros Hne Hw. destruct name as [|x name]; [congruence|].
  inversion Hw; subst.
  unfold match_at. rewrite psyco_unfold.
  erewrite (@rmatch_chars_ok psyco_flags (lit "%(") (lit "%(") _
              ((x :: name) ++ lit ")s" ++ rst));
    [| unfold placeholder; simpl; now rewrite <- app_assoc
     | apply matches_word_refl].
  cbn [rmatch before rest groups]. unfold one. cbn [rest before groups app].
  match goal with H : word_char x |- _ => unfold word_char in H; rewrite H end.
  cbn [rest before groups].
  erewrite (@star_greedy_run psyco_flags CWord name);
    [reflexivity | assumption | | reflexivity].
  cbn [before rest groups].
  erewrite (@rmatch_chars_ok psyco_flags (lit ")s") (lit ")s") _ rst);
    [| reflexivity | apply matches_word_refl].
  cbn [rmatch before rest groups]. f_equal. f_equal.
  - unfold placeholder. simpl. rewrite !rev_app_distr. simpl.
    now rewrite <- !app_assoc.
  - f_equal. f_equal.
    replace (rev name ++ x :: rev (lit "%(") ++ bef)
      with (rev (x :: name) ++ rev (lit "%(") ++ bef)
      by (simpl; now rewrite <- app_assoc).
    apply consumed_app.
Qed.

(** Text without a percent sign is copied. *)
Lemma sub_from_text s : forall bef rst,
  Forall (fun c => c <> "%"%char) s ->
  sub_from psyco_flags _PSYCO_RE colon_name 0 bef (s ++ rst)
  = s ++ sub_from psyco_flags _PSYCO_RE colon_name 0 (rev s ++ bef) rst.
Proof.
  induction s as [|c s IH]; intros bef rst H; [reflexivity|].
  inversion H; subst. cbn [app sub_from].
  rewrite psyco_fails_at by assumption.
  rewrite IH by assumption. simpl. now rewrite <- app_assoc.
Qed.

(** A placeholder is replaced by a colon and its name. *)
Lemma sub_from_placeholder name bef rst :
  name <> [] -> Forall word_char name ->
  sub_from psyco_flags _PSYCO_RE colon_name 0 bef (placeholder name ++ rst)
  = lit ":" ++ name
    ++ sub_from psyco_flags _PSYCO_RE colon_name 0
         (rev (placeholder name) ++ bef) rst.
Proof.
  intros Hne Hw.
  pose proof (psyco_match bef name rst Hne Hw) as Hm.
  unfold placeholder in *.
  change ((lit "%(" ++ name ++ lit ")s") ++ rst)
    with ("%"%char :: (["("%char] ++ name ++ lit ")s") ++ rst) in *.
  cbn [sub_from]. rewrite Hm. cbn [before].
  replace (List.length (rev (lit "%(" ++ name ++ lit ")s") ++ bef)
           - List.length bef - 1)
    with (List.length (["("%char] ++ name ++ lit ")s"))
    by (simpl; rewrite ?length_app, ?length_rev; simpl;
        rewrite ?length_app; simpl; lia).
  rewrite sub_from_skip.
  unfold colon_name at 1, group. cbn [groups lookup_group Nat.eqb].
  rewrite <- app_assoc. f_equal. f_equal. f_equal.
  simpl. now rewrite <- !app_assoc.
Qed.

Lemma sub_from_template ps : forall bef,
  Forall well_formed ps ->
  sub_from psyco_flags _PSYCO_RE colon_name 0 bef (render_psycopg ps)
  = render_sqlalchemy ps.
Proof.
  induction ps as [|p ps IH]; intros bef H; [reflexivity|].
  inversion H as [|? ? Hp Hps]; subst.
  destruct p as [s | name];
    cbn [render_psycopg render_sqlalchemy well_formed] in *.
  - rewrite sub_from_text by assumption. now rewrite IH.
  - destruct Hp as [Hne Hw].
    replace (lit "%(" ++ name ++ lit ")s" ++ render_psycopg ps)
      with (placeholder name ++ render_psycopg ps)
      by (unfold placeholder; now rewrite <- !app_assoc).
    rewrite sub_from_placeholder by assumption.
    now rewrite IH.
Qed.

Lemma word_not_percent c : word_char c -> c <> "%"%char.
Proof. intros H ->. discriminate H. Qed.

(** The converted template holds no percent sign. *)
Lemma render_sqlalchemy_plain ps :
  Forall well_formed ps ->
  Forall (fun c => c <> "%"%char) (render_sqlalchemy ps).
Proof.
  induction 1 as [|p ps Hp Hps IH]; [constructor|].
  destruct p as [s | name]; simpl in *.
  - apply Forall_app. now split.
  - constructor; [discriminate|]. apply Forall_app. split; [|assumption].
    destruct Hp as [_ Hw]. eapply Forall_impl; [|exact Hw].
    intros c. apply word_not_percent.
Qed.

(** What greedy repetition returns, the rest of the pattern returned it
    after a run of matching characters. *)
Lemma star_greedy_sound fl c rst : forall bef gs k m,
  star_greedy fl c bef rst gs k = Some m ->
  exists run rst',
    rst = run ++ rst'
    /\ Forall (fun ch => cls_matches fl c ch = true) run
    /\ k (MState (rev run ++ bef) rst' gs) = Some m.
Proof.
  induction rst as [|ch rst IH]; intros bef gs k m H; simpl in H.
  - exists [], []. repeat split; [constructor | assumption].
  - destruct (cls_matches fl c ch) eqn:Ec.
    + destruct (star_greedy fl c (ch :: bef) rst gs k) eqn:Es.
      * inversion H; subst.
        apply IH in Es as [run [rst' [E [Hrun Hk]]]].
        exists (ch :: run), rst'. subst rst. split; [reflexivity|].
        split; [now constructor|]. simpl. now rewrite <- app_assoc.
      * exists [], (ch :: rst). repeat split; [constructor | assumption].
    + exists [], (ch :: rst). repeat split; [constructor | assumption].
Qed.

(** Where the pattern matches, the text ahead begins with a
    placeholder. *)
Lemma psyco_match_shape bef rst m :
  match_at psyco_flags _PSYCO_RE bef rst = Some m ->
  exists name rst',
    rst = placeholder name ++ rst'
    /\ name <> [] /\ Forall word_char name
    /\ m = MState (rev (placeholder name) ++ bef) rst' [(1, name)].
Proof.
  intros Hm. pose proof Hm as H.
  unfold match_at in H. rewrite psyco_unfold in H.
  apply rmatch_chars in H as [l1 [rst1 [E1 [Hw1 H]]]].
  apply matches_word_plain in Hw1. subst l1.
  cbn [rmatch before rest groups] in *. unfold one in H.
  cbn [rest before groups] in H.
  destruct rst1 as [|x rst2]; [discriminate|].
  destruct (cls_matches psyco_flags CWord x) eqn:Ex; [|discriminate].
  cbn [rest before groups] in H.
  apply star_greedy_sound in H as [run [rst3 [E2 [Hrun H]]]].
  cbn [rest before groups] in H.
  apply rmatch_chars in H as [l2 [rst4 [E3 [Hw2 H]]]].
  apply matches_word_plain in Hw2. subst l2.
  cbn [rmatch before rest groups] in *.
  assert (E : rst = placeholder (x :: run) ++ rst4).
  { subst rst rst2 rst3. unfold placeholder. simpl.
    now rewrite <- !app_assoc. }
  assert (Hw : Forall word_char (x :: run)) by now constructor.
  exists (x :: run), rst4.
  split; [assumption|]. split; [discriminate|]. split; [assumption|].
  rewrite E, psyco_match in Hm by (assumption || discriminate).
  now inversion Hm.
Qed.

(** The text written by the substitution is not empty where text is
    left to read. *)
Lemma sub_from_nonempty bef c t :
  sub_from psyco_flags _PSYCO_RE colon_name 0 bef (c :: t) <> [].
Proof.
  cbn [sub_from].
  destruct (match_at psyco_flags _PSYCO_RE bef (c :: t)); discriminate.
Qed.

(** What the substitution writes before the first colon was in the
    text. *)
Lemma sub_from_prefix p : forall bef rst out,
  Forall (fun c => c <> ":"%char) p ->
  sub_from psyco_flags _PSYCO_RE colon_name 0 bef rst = p ++ out ->
  exists rst',
    rst = p ++ rst'
    /\ (forall p1 p2, p = p1 ++ p2 -> p2 <> [] ->
          match_at psyco_flags _PSYCO_RE (rev p1 ++ bef) (p2 ++ rst') = None).
Proof.
  induction p as [|c p IH]; intros bef rst out Hp H.
  - exists rst. split; [reflexivity|].
    intros p1 p2 E Hne. destruct p1; destruct p2; try discriminate.
    congruence.
  - inversion Hp; subst.
    destruct rst as [|c' t]; [discriminate|]. cbn [sub_from] in H.
    destruct (match_at psyco_flags _PSYCO_RE bef (c' :: t)) eqn:Em.
    + unfold colon_name in H. simpl in H. inversion H. congruence.
    + simpl in H. inversion H; subst c'.
      match goal with H : sub_from _ _ _ _ _ _ = _ |- _ =>
        apply IH in H as [rst' [-> Hfail]]; [|assumption] end.
      exists rst'. split; [reflexivity|].
      intros p1 p2 E Hne. destruct p1 as [|x p1].
      * simpl in E. subst p2. exact Em.
      * simpl in E. inversion E; subst.
        simpl. rewrite <- app_assoc. simpl. now apply Hfail.
Qed.

Lemma sub_from_copy bef c t :
  match_at psyco_flags _PSYCO_RE bef (c :: t) = None ->
  sub_from psyco_flags _PSYCO_RE colon_name 0 bef (c :: t)
  = c :: sub_from psyco_flags _PSYCO_RE colon_name 0 (c :: bef) t.
Proof. intros H. cbn [sub_from]. now rewrite H. Qed.

Lemma placeholder_no_colon name :
  Forall word_char name ->
  Forall (fun c => c <> ":"%char) (placeholder name).
Proof.
  intros H. unfold placeholder.
  repeat (constructor; [discriminate|]).
  apply Forall_app. split.
  - eapply Forall_impl; [|exact H]. intros c Hc ->. discriminate Hc.
  - repeat (constructor; [discriminate|]). constructor.
Qed.

(** The text written by the substitution holds no placeholder. *)
Lemma sub_from_clean n : forall rst bef bef',
  List.length rst <= n ->
  search_from psyco_flags _PSYCO_RE bef'
    (sub_from psyco_flags _PSYCO_RE colon_name 0 bef rst) = None.
Proof.
  induction n as [|n IH]; intros rst bef bef' Hn.
  - destruct rst; [reflexivity | simpl in Hn; lia].
  - destruct rst as [|c t]; [reflexivity|].
    destruct (match_at psyco_flags _PSYCO_RE bef (c :: t)) eqn:Em.
    + apply psyco_match_shape in Em as [name [rst' [E [Hne [Hw _]]]]].
      rewrite E, sub_from_placeholder by assumption.
      rewrite (app_assoc (lit ":") name).
      rewrite (@search_from_skip psyco_flags).
      * apply IH. apply (f_equal (@List.length ascii)) in E.
        unfold placeholder in E. simpl in E, Hn.
        rewrite !length_app in E. lia.
      * intros p1 p2 Ep Hp2. destruct p2 as [|c2 p2]; [congruence|].
        apply psyco_fails_at.
        assert (Hin : In c2 (lit ":" ++ name)).
        { rewrite Ep. apply in_or_app. right. now left. }
        destruct Hin as [<- | Hin]; [discriminate|].
        rewrite Forall_forall in Hw. apply word_not_percent. now apply Hw.
    + rewrite sub_from_copy by assumption. cbn [search_from].
      destruct (match_at psyco_flags _PSYCO_RE bef'
                  (c :: sub_from psyco_flags _PSYCO_RE colon_name 0
                          (c :: bef) t)) eqn:Eo.
      * exfalso. rewrite <- sub_from_copy in Eo by assumption.
        apply psyco_match_shape in Eo as [name [out [E [Hne [Hw _]]]]].
        apply sub_from_prefix in E as [rst' [E _]];
          [|now apply placeholder_no_colon].
        rewrite E, psyco_match in Em by assumption. discriminate.
      * apply IH. simpl in Hn. lia.
Qed.

Lemma no_trail_nil p : no_trail p [].
Proof. intros a c E. destruct a; discriminate. Qed.

Lemma no_trail_tail p c t : t <> [] -> no_trail p (c :: t) -> no_trail p t.
Proof. intros Hne H a x E. apply (H (c :: a) x). now rewrite E. Qed.

Lemma sub_from_nil skip bef :
  sub_from psyco_flags _PSYCO_RE colon_name skip bef [] = [].
Proof. now destruct skip. Qed.

(** The substitution writes no semicolon at the end of a text that has
    none there. *)
Lemma sub_from_no_trail rst : forall skip bef,
  no_trail is_semicolon rst ->
  no_trail is_semicolon
    (sub_from psyco_flags _PSYCO_RE colon_name skip bef rst).
Proof.
  induction rst as [|c t IH]; intros skip bef H.
  - rewrite sub_from_nil. apply no_trail_nil.
  - assert (Ht : forall k b,
               no_trail is_semicolon
                 (sub_from psyco_flags _PSYCO_RE colon_name k b t)).
    { intros k b. destruct t as [|c' t'].
      - rewrite sub_from_nil. apply no_trail_nil.
      - apply IH. eapply no_trail_tail; [discriminate | exact H]. }
    destruct skip as [|k]; [|apply Ht].
    destruct (match_at psyco_flags _PSYCO_RE bef (c :: t)) eqn:Em.
    + cbn [sub_from]. rewrite Em.
      apply psyco_match_shape in Em as [name [rst' [E [Hne [Hw ->]]]]].
      unfold colon_name, group. cbn [groups lookup_group Nat.eqb before].
      match goal with |- no_trail _ (_ ++ ?X) =>
        destruct X as [|x X'] eqn:EX end.
      * rewrite app_nil_r. apply Forall_no_trail.
        constructor; [reflexivity|].
        eapply Forall_impl; [|exact Hw].
        intros a Ha. unfold is_semicolon.
        destruct (Ascii.eqb a ";"%char) eqn:Ea; [|reflexivity].
        apply Ascii.eqb_eq in Ea. subst a. discriminate Ha.
      * apply no_trail_app; [discriminate|]. rewrite <- EX. apply Ht.
    + rewrite sub_from_copy by assumption.
      destruct t as [|c' t'].
      * rewrite sub_from_nil. exact H.
      * change (c :: ?X) with ([c] ++ X).
        apply no_trail_app; [apply sub_from_nonempty | apply Ht].
Qed.

(** The converted statement holds no placeholder. *)
Lemma to_sa_binds_clean sql :
  search psyco_flags _PSYCO_RE (_to_sa_binds sql) = None.
Proof.
  rewrite to_sa_binds_sub. unfold search.
  now apply (sub_from_clean (List.length sql)).
Qed.

End DbFacts.

Import Db DbFacts.

(** X17: [_to_sa_binds] turns every placeholder [%(name)s] of a
    statement template into [:name] and copies the text between them,
    when that text holds no percent sign and the names are non-empty
    words; a colon in the text does not prevent it.  The converted
    template is left as it is. *)
Theorem to_sa_binds_converts_template (ps : list piece) :
  Forall well_formed ps ->
  _to_sa_binds (render_psycopg ps) = render_sqlalchemy ps
  /\ _to_sa_binds (render_sqlalchemy ps) = render_sqlalchemy ps.
Proof.
  intros H. rewrite !to_sa_binds_sub. split.
  - now apply sub_from_template.
  - pose proof (sub_from_text (render_sqlalchemy ps) [] []
                  (render_sqlalchemy_plain ps H)) as Ht.
    now rewrite !app_nil_r in Ht.
Qed.

Lemma to_sa_binds_converts_template_witness :
  let ps := [Text (lit "SELECT * FROM forex_bars WHERE symbol = ");
             Bind (lit "symbol");
             Text (lit " AND datetime >= '2024-01-01 00:00' LIMIT ");
             Bind (lit "n")] in
  Forall well_formed ps
  /\ _to_sa_binds (render_psycopg ps) = render_sqlalchemy ps
  /\ _to_sa_binds (render_sqlalchemy ps) = render_sqlalchemy ps.
Proof.
  assert (H : Forall well_formed
                [Text (lit "SELECT * FROM forex_bars WHERE symbol = ");
                 Bind (lit "symbol");
                 Text (lit " AND datetime >= '2024-01-01 00:00' LIMIT ");
                 Bind (lit "n")]).
  { repeat constructor; discriminate. }
  split; [exact H|].
  exact (to_sa_binds_converts_template _ H).
Defined.

(** X18: whatever the statement, no placeholder [%(name)s] is left in
    the result of [_to_sa_binds], and converting twice is converting
    once. *)
Theorem to_sa_binds_leaves_no_placeholder (sql : str) :
  search psyco_flags _PSYCO_RE (_to_sa_binds sql) = None
  /\ _to_sa_binds (_to_sa_binds sql) = _to_sa_binds sql.
Proof.
  split; [apply to_sa_binds_clean|].
  rewrite (to_sa_binds_sub (_to_sa_binds sql)).
  apply sub_from_no_match. apply to_sa_binds_clean.
Qed.

(** X19: the statement that [run_query] hands to the database does not
    end with a semicolon and holds no placeholder [%(name)s]; the
    parameters are handed over as they are, an empty [dict] when there
    are none. *)
Theorem run_query_statement_is_clean
    (query : str) (params : option parameters) :
  exists sql,
    (forall engine,
       run_query engine query params
       = engine sql (match params with Some d => d | None => [] end))
    /\ no_trail is_semicolon sql
    /\ search psyco_flags _PSYCO_RE sql = None.
Proof.
  exists (_to_sa_binds (rstrip_semicolons (strip query))).
  split; [reflexivity|]. split.
  - rewrite to_sa_binds_sub. apply sub_from_no_trail.
    apply rstrip_with_no_trail.
  - apply to_sa_binds_clean.
Qed.

(* ================================================================== *)
(** ** What the bridge returns *)

Module ParseFacts.

#[local] Arguments cls_matches : simpl never.

Lemma before_semicolon_plain s : no_semicolon (before_semicolon s).
Proof.
  induction s as [|c s IH]; simpl; [constructor|].
  destruct (is_semicolon c) eqn:E; [constructor | now constructor].
Qed.

Lemma Forall_strip (P : ascii -> Prop) s : Forall P s -> Forall P (strip s).
Proof.
  intros H. destruct (strip_split s) as [lead [trail [E _]]].
  rewrite E in H. apply Forall_app in H as [_ H].
  now apply Forall_app in H as [H _].
Qed.

(** What [c+] returns, the rest of the pattern returned it after a run
    of one or more matching characters. *)
Lemma plus_sound fl c bef rst gs k m :
  rmatch fl (Plus c) (MState bef rst gs) k = Some m ->
  exists run rst',
    run <> [] /\ rst = run ++ rst'
    /\ Forall (fun ch => cls_matches fl c ch = true) run
    /\ k (MState (rev run ++ bef) rst' gs) = Some m.
Proof.
  cbn [rmatch]. unfold one. cbn [rest before groups].
  destruct rst as [|x rst]; [discriminate|].
  destruct (cls_matches fl c x) eqn:Ex; [|discriminate].
  cbn [rest before groups]. intros H.
  apply star_greedy_sound in H as [run [rst' [E [Hrun H]]]].
  exists (x :: run), rst'. split; [discriminate|].
  split; [simpl; now f_equal|]. split; [now constructor|].
  simpl. now rewrite <- app_assoc.
Qed.

(** The first group of a match of a pattern of the form
    [^\s*word\s*(c+) ... $], where nothing after the group captures. *)
Lemma line_group fl w c tail bef rst m :
  (forall st k m, rmatch fl (seq tail) st k = Some m ->
                  exists st', groups st' = groups st /\ k st' = Some m) ->
  match_at fl (seq ([Bol; Star CSpace; chars w; Star CSpace;
                     Group 1 (Plus c)] ++ tail)) bef rst = Some m ->
  exists g,
    group m 1 = Some g /\ g <> []
    /\ Forall (fun ch => cls_matches fl c ch = true) g.
Proof.
  intros Htail H. unfold match_at in H. cbn [app] in H.
  rewrite rmatch_seq_cons in H. cbn [rmatch] in H.
  destruct (at_bol fl _); [|discriminate].
  rewrite rmatch_seq_cons in H. cbn [rmatch before rest groups] in H.
  apply star_greedy_sound in H as [r1 [rst1 [_ [_ H]]]].
  rewrite rmatch_seq_cons in H.
  apply rmatch_chars in H as [l [rst2 [_ [_ H]]]].
  rewrite rmatch_seq_cons in H. cbn [rmatch before rest groups] in H.
  apply star_greedy_sound in H as [r2 [rst3 [_ [_ H]]]].
  rewrite rmatch_seq_cons in H.
  change (rmatch fl (Group 1 (Plus c)) ?st ?k)
    with (rmatch fl (Plus c) st
            (fun st' => k (MState (before st') (rest st')
                                  ((1, consumed st st') :: groups st'))))
    in H.
  apply plus_sound in H as [g [rst4 [Hne [_ [Hg H]]]]].
  cbn [before rest groups] in H. rewrite consumed_app in H.
  apply Htail in H as [st' [Hgs H]]. inversion H; subst m.
  exists g. unfold group. rewrite Hgs. cbn [groups lookup_group Nat.eqb].
  now repeat split.
Qed.

Lemma eol_keeps_groups fl st k m :
  rmatch fl (seq [Eol]) st k = Some m ->
  exists st', groups st' = groups st /\ k st' = Some m.
Proof.
  rewrite rmatch_seq_cons. cbn [rmatch seq fold_right].
  destruct (at_eol fl st); [eauto | discriminate].
Qed.

Lemma spaces_eol_keep_groups fl st k m :
  rmatch fl (seq [Star CSpace; Eol]) st k = Some m ->
  exists st', groups st' = groups st /\ k st' = Some m.
Proof.
  rewrite rmatch_seq_cons. cbn [rmatch]. intros H.
  apply star_greedy_sound in H as [run [rst' [_ [_ H]]]].
  apply eol_keeps_groups in H as [st' [Hg H]]. eauto.
Qed.

(** The text of the interpretation is one line. *)
Lemma interpretation_group content m :
  search line_flags interpretation_re content = Some m ->
  Forall (fun c => c <> newline) (group1 m).
Proof.
  intros H. apply search_from_sound in H as [bef [rst [_ H]]].
  apply (line_group line_flags (lit "Interpretation:") CDot [Eol]) in H;
    [|apply eol_keeps_groups].
  destruct H as [g [Eg [_ Hg]]]. unfold group1. rewrite Eg.
  eapply Forall_impl; [|exact Hg]. intros c Hc ->. discriminate Hc.
Qed.

(** The text of the source is one token. *)
Lemma source_group content m :
  search line_flags source_re content = Some m ->
  group1 m <> [] /\ Forall (fun c => isspace c = false) (group1 m).
Proof.
  intros H. apply search_from_sound in H as [bef [rst [_ H]]].
  apply (line_group line_flags (lit "Source:") CNonSpace
           [Star CSpace; Eol]) in H; [|apply spaces_eol_keep_groups].
  destruct H as [g [Eg [Hne Hg]]]. unfold group1. rewrite Eg.
  split; [assumption|].
  eapply Forall_impl; [|exact Hg]. intros c Hc.
  unfold cls_matches in Hc. now apply negb_true_iff in Hc.
Qed.

Lemma strip_token s :
  Forall (fun c => isspace c = false) s -> strip s = s.
Proof.
  intros H. apply strip_fixed.
  - destruct s; [exact I | now inversion H].
  - now apply Forall_no_trail.
Qed.

End ParseFacts.

Import ParseFacts.

(** X20: whatever the completion, an answer of [ask_lmstudio_generate]
    is tidy.  The SQL holds no semicolon and has no white space around
    it; the interpretation is one line, trimmed (the default text when
    the completion has no such line); and the source URL, when there is
    one, is a non-empty token without white space. *)
Theorem bridge_answer_is_tidy
    (w : world) (question sql_code interp : str) (src : pyopt) :
  ask_lmstudio_generate_pure w question = inr (sql_code, interp, src) ->
  (no_semicolon sql_code
   /\ no_lead isspace sql_code /\ no_trail isspace sql_code)
  /\ (Forall (fun c => c <> newline) interp
      /\ no_lead isspace interp /\ no_trail isspace interp)
  /\ match src with
     | Some url => url <> [] /\ Forall (fun c => isspace c = false) url
     | None => True
     end.
Proof.
  unfold ask_lmstudio_generate_pure.
  destruct (lmstudio_content _) as [e | content]; [discriminate|].
  unfold extract_sql_code.
  destruct (find_sql_block content) as [sql_block|]; [|discriminate].
  intros H. inversion H; subst; clear H. split; [|split].
  - split; [|split; [apply strip_no_lead | apply strip_no_trail]].
    apply Forall_strip, before_semicolon_plain.
  - unfold extract_interpretation.
    destruct (search line_flags interpretation_re content) as [m|] eqn:E.
    + split; [|split; [apply strip_no_lead | apply strip_no_trail]].
      apply Forall_strip. now apply interpretation_group in E.
    + split; [repeat (constructor; [discriminate|]); constructor|].
      split; [reflexivity|]. intros a c Ea.
      assert (Hc : last (lit "No interpretation provided.") c = c)
        by (rewrite Ea; apply last_last).
      vm_compute in Hc. now subst c.
  - unfold extract_source_url.
    destruct (search line_flags source_re content) as [m|] eqn:E;
      [|exact I].
    apply source_group in E as [Hne Hg].
    rewrite strip_token by assumption. now split.
Qed.

Lemma bridge_answer_is_tidy_witness :
  ask_lmstudio_generate_pure Scenario.the_world []
  = inr (lit "SELECT * FROM users", lit "Lists the users.",
         Some (lit "https://example.org/users"))
  /\ no_semicolon (lit "SELECT * FROM users")
  /\ Forall (fun c => c <> newline) (lit "Lists the users.").
Proof.
  assert (H : ask_lmstudio_generate_pure Scenario.the_world []
              = inr (lit "SELECT * FROM users", lit "Lists the users.",
                     Some (lit "https://example.org/users")))
    by (vm_compute; reflexivity).
  split; [exact H|].
  destruct (bridge_answer_is_tidy _ _ _ _ _ H) as [[H1 _] [[H2 _] _]].
  now split.
Defined.

(* ================================================================== *)
(** ** The button "Ask Atlas" and the log *)

Module HomeFacts.

Lemma post_and_clean_nonempty posted sql :
  post_and_clean posted = inr sql -> sql <> [].
Proof.
  unfold post_and_clean, clean_value, _clean.
  destruct posted as [e | v]; [discriminate|].
  destruct v; try discriminate. intros H. inversion H.
  intros E. apply app_eq_nil in E as [_ E]. discriminate.
Qed.

(** On a disk that takes the writes, [ask_qwen] returns nothing and
    writes one record, or returns a statement that passed its checks and
    writes nothing. *)
Lemma ask_qwen_cases d posted now retry q f :
  takes_all d ->
  (exists failed f1,
     failed <> []
     /\ ask_qwen d posted now retry q f = (f1, inr empty)
     /\ gains_record f f1 [now; q; failed])
  \/ (exists sql,
        bad_sql sql = false
        /\ ask_qwen d posted now retry q f = (f, inr sql)).
Proof.
  intros Hd. unfold ask_qwen.
  change (@Some (list ascii)) with (@Some str).
  destruct (post_and_clean posted) as [e | sql] eqn:Ep; cbv beta zeta.
  - left.
    destruct (append_unanswered_written d now q
                (lit "ERROR: " ++ str_of_exn e) f (Hd _ _))
      as [f1 [E Hg]].
    exists (lit "ERROR: " ++ str_of_exn e), f1. rewrite E.
    split; [discriminate|]. now split.
  - destruct (bad_sql sql) eqn:Eb.
    + left. rewrite py_or_some.
      destruct (append_unanswered_written d now q sql f (Hd _ _))
        as [f1 [E Hg]].
      exists sql, f1. rewrite E.
      split; [now apply post_and_clean_nonempty in Ep|]. now split.
    + right. now exists sql.
Qed.

(** A statement that passed the checks of [ask_qwen] passes the first
    test of the page. *)
Lemma checked_is_not_empty sql :
  bad_sql sql = false ->
  negb (truthy sql) || negb (truthy (strip sql))
  || existsb (str_eqb (lower (strip sql))) [lit "none;"; lit "null;"]
  = false.
Proof.
  intros H. unfold bad_sql in H. cbn [existsb] in *.
  rewrite !orb_false_iff in H.
  destruct H as [[[H1 [H2 [H3 [H4 _]]]] _] _].
  rewrite H1, H3, H4.
  destruct (strip sql); [discriminate H2 | reflexivity].
Qed.

End HomeFacts.

Import Home HomeFacts.

(** X21: one press of "Ask Atlas" ends with an exception only when a
    write to the log raised it, in [ask_qwen] or in the page.  On a disk
    that takes the writes the press changes the log in one of three
    ways.  When [ask_qwen] returns nothing, the page shows the apology
    and the question is logged twice: by [ask_qwen] with the rejected
    text or the error, then by the page with an empty [failed_sql].
    When [ask_qwen] returns a statement, the log is left as it was only
    if the statement does not begin with [error] and the database, the
    interpretation and the link suggestion all return; otherwise one
    record with the statement is appended, also when the data were
    already shown. *)
Theorem atlas_log_growth
    (o : outside) (params : parameters) (question : str) (f : logfile) :
  (forall e, snd (ask_atlas o params question f) = inl e ->
             raised_by_write (log_disk o) e)
  /\ (takes_all (log_disk o) ->
      (exists failed f1 f2,
         failed <> []
         /\ ask_qwen (log_disk o) (posted_sql o) (now_bridge o)
              (retry_bridge o) question f = (f1, inr empty)
         /\ gains_record f f1 [now_bridge o; question; failed]
         /\ ask_atlas o params question f = ([Sorry], f2, inr tt)
         /\ gains_record f1 f2 [now_page o; question; empty])
      \/ (exists sql,
            sql <> []
            /\ ask_qwen (log_disk o) (posted_sql o) (now_bridge o)
                 (retry_bridge o) question f = (f, inr sql)
            /\ ((exists df explanation links,
                   startswith (lit "error") (lower sql) = false
                   /\ run_query (engine o) sql (Some params) = inr df
                   /\ interpret_business (posted_interpretation o)
                      = inr explanation
                   /\ snd (suggest_learn_more_links
                             (posted_links o
                                (if truthy explanation then explanation
                                 else question))
                             (net o) 3) = inr links
                   /\ ask_atlas o params question f
                      = ([Results; Data df; Interpretation explanation]
                         ++ match links with
                            | [] => []
                            | _ :: _ => [LearnMore links]
                            end,
                         f, inr tt))
                \/ (exists so_far f2,
                      ask_atlas o params question f = (so_far, f2, inr tt)
                      /\ gains_record f f2 [now_page o; question; sql]
                      /\ (so_far = [ErrorText sql]
                          \/ exists pre, so_far = pre ++ [Shrugged]))))).
Proof.
  split.
  - intros e. unfold ask_atlas.
    destruct (ask_qwen (log_disk o) (posted_sql o) (now_bridge o)
                (retry_bridge o) question f) as [f1 [e1 | sql]] eqn:Eq.
    + simpl. intros H. inversion H; subst.
      apply (ask_qwen_raised (log_disk o) (posted_sql o) (now_bridge o)
               (retry_bridge o) question f). now rewrite Eq.
    + cbv beta zeta.
      repeat match goal with
             | |- context [if ?b then _ else _] => destruct b
             | |- context [match run_query ?a ?b ?c with _ => _ end] =>
                 destruct (run_query a b c)
             | |- context [match interpret_business ?a with _ => _ end] =>
                 destruct (interpret_business a)
             | |- context [match snd ?a with _ => _ end] =>
                 destruct (snd a)
             end;
        try (simpl; discriminate);
        match goal with
        | |- context [append_unanswered ?d ?n ?q ?fs ?g] =>
            destruct (append_unanswered d n q fs g) as [f2 [e2 | []]] eqn:E2
        end;
        simpl; intros H; inversion H; subst;
        eapply append_unanswered_raised; eassumption.
  - intros Hd. unfold ask_atlas.
    destruct (ask_qwen_cases (log_disk o) (posted_sql o) (now_bridge o)
                (retry_bridge o) question f Hd)
      as [[failed [f1 [Hne [E Hg]]]] | [sql [Hb E]]]; rewrite E.
    + left. cbv beta zeta. cbn [truthy negb orb empty].
      fold empty. rewrite py_or_some.
      destruct (append_unanswered_written (log_disk o) (now_page o)
                  question empty f1 (Hd _ _)) as [f2 [E2 Hg2]].
      exists failed, f1, f2. rewrite E2. repeat split; assumption.
    + right. exists sql.
      split; [intros ->; discriminate Hb|]. split; [reflexivity|].
      cbv beta zeta. rewrite (checked_is_not_empty sql Hb).
      destruct (append_unanswered_written (log_disk o) (now_page o)
                  question sql f (Hd _ _)) as [f2 [E2 Hg2]].
      destruct (startswith (lit "error") (lower sql)) eqn:Ee.
      { right. exists [ErrorText sql], f2. rewrite E2.
        split; [reflexivity|]. split; [assumption | now left]. }
      destruct (run_query (engine o) sql (Some params)) as [e | df] eqn:Er.
      { right. exists ([Results] ++ [Shrugged]), f2. rewrite E2.
        split; [reflexivity|]. split; [assumption|].
        right. now exists [Results]. }
      destruct (interpret_business (posted_interpretation o))
        as [e | explanation] eqn:Ei.
      { right. exists ([Results; Data df] ++ [Shrugged]), f2. rewrite E2.
        split; [reflexivity|]. split; [assumption|].
        right. now exists [Results; Data df]. }
      destruct (snd (suggest_learn_more_links _ _ _)) as [e | links] eqn:El.
      { right.
        exists ([Results; Data df; Interpretation explanation]
                ++ [Shrugged]), f2.
        rewrite E2. split; [reflexivity|]. split; [assumption|].
        right. now exists [Results; Data df; Interpretation explanation]. }
      left. exists df, explanation, links. repeat split; assumption.
Qed.
